(** * Strade marketplace contracts: escrow vault, arbitration board, listing registry

    A shallow embedding of the three Clarity contracts of the repository
    (EscrowService, DisputeResolution, CoreMarketPlace) together with the part
    of the Clarity runtime they rely on, and the properties the written
    specification states about them.  The [print] events of the contracts
    are not part of the persisted state and are left out.

    The two remaining contracts, UserProfile and the Strade Token, are
    embedded the same way, and a second part collects further properties of
    all five contracts. *)

From Stdlib Require Import NArith Lia.
From stdpp Require Import gmap strings fin_maps.

Local Open Scope N_scope.

(** ** The Clarity runtime used by the contracts *)

Module Clarity.

(** Principals are addresses; the contracts only compare them with [is-eq]. *)
Definition principal : Type := string.

(** [uint] is an unsigned 128-bit integer.  Arithmetic does not wrap: an
    overflow or underflow is a runtime error that aborts the transaction. *)
Definition UINT_MAX : N := 2 ^ 128 - 1.

Inductive response (A E : Type) : Type :=
| ok (a : A)
| err (e : E).
Arguments ok {A E} a.
Arguments err {A E} e.

Inductive runtime_error : Type :=
| ArithmeticOverflow
| ArithmeticUnderflow.

(** What evaluating an expression inside a function body can do: yield a
    value, leave the enclosing function with a value ([asserts!], [unwrap!],
    [try!]), or abort the whole transaction. *)
Inductive flow (S R A : Type) : Type :=
| Next (a : A) (s : S)
| Return (r : R) (s : S)
| Fault (e : runtime_error).
Arguments Next {S R A} a s.
Arguments Return {S R A} r s.
Arguments Fault {S R A} e.

Definition clar (S R A : Type) : Type := S → flow S R A.

Definition pure {S R A} (a : A) : clar S R A := λ s, Next a s.

Definition bind {S R A B} (m : clar S R A) (k : A → clar S R B) : clar S R B :=
  λ s, match m s with
       | Next a s' => k a s'
       | Return r s' => Return r s'
       | Fault e => Fault e
       end.

Definition gets {S R A} (f : S → A) : clar S R A := λ s, Next (f s) s.
Definition modify {S R} (f : S → S) : clar S R unit := λ s, Next tt (f s).

(** [(asserts! c thrown)] *)
Definition asserts {S R} (c : bool) (thrown : R) : clar S R unit :=
  λ s, if c then Next tt s else Return thrown s.

(** [(unwrap! o thrown)] *)
Definition unwrap {S R A} (o : option A) (thrown : R) : clar S R A :=
  λ s, match o with Some a => Next a s | None => Return thrown s end.

(** [(try! r)] on a response: an [err] leaves the function with that [err]. *)
Definition try {S A B E} (r : response A E) : clar S (response B E) A :=
  λ s, match r with ok a => Next a s | err e => Return (err e) s end.

(** [(+ a b)] and [(- a b)] on [uint]. *)
Definition uint_add (a b : N) : option N :=
  if a + b <=? UINT_MAX then Some (a + b) else None.
Definition uint_sub (a b : N) : option N :=
  if b <=? a then Some (a - b) else None.

Definition add {S R} (a b : N) : clar S R N :=
  λ s, match uint_add a b with Some n => Next n s | None => Fault ArithmeticOverflow end.
Definition sub {S R} (a b : N) : clar S R N :=
  λ s, match uint_sub a b with Some n => Next n s | None => Fault ArithmeticUnderflow end.

(** [(is-eq a b)] *)
Definition is_eq {A} `{EqDecision A} (a b : A) : bool := bool_decide (a = b).

(** Calling a private function: an early exit of its body is its result. *)
Definition call {S R R' } (body : clar S R' R') : clar S R R' :=
  λ s, match body s with
       | Next r s' | Return r s' => Next r s'
       | Fault e => Fault e
       end.

(** The outcome of a transaction.  For a public function the runtime commits
    the body's writes only when the body answers [ok]; on [err] and on a
    runtime error every write of the transaction is discarded. *)
Inductive outcome (R : Type) : Type :=
| Answer (r : R)
| Aborted (e : runtime_error).
Arguments Answer {R} r.
Arguments Aborted {R} e.

(** What a function body answers and the store it leaves behind. *)
Definition run_body {S R} (body : clar S R R) (s : S) : outcome R * S :=
  match body s with
  | Next r s' | Return r s' => (Answer r, s')
  | Fault e => (Aborted e, s)
  end.

Definition call_public {S A E} (body : clar S (response A E) (response A E))
    (s : S) : outcome (response A E) * S :=
  match run_body body s with
  | (Answer (ok a), s') => (Answer (ok a), s')
  | (Answer (err e), _) => (Answer (err e), s)
  | (Aborted e, _) => (Aborted e, s)
  end.

(** A body that has written nothing whenever it answers [err]. *)
Definition fails_clean {S A E} (body : clar S (response A E) (response A E)) : Prop :=
  ∀ s e s', run_body body s = (Answer (err e), s') → s' = s.

(** A read-only function cannot write; its answer is the body's value. *)
Definition call_read_only {S R} (body : clar S R R) (s : S) : outcome R :=
  match body s with
  | Next r _ | Return r _ => Answer r
  | Fault e => Aborted e
  end.

(** The transaction context. *)
Record tx : Type := { tx_sender : principal; block_height : N }.

(** *** The STX ledger and [stx-transfer?]

    [stx-transfer?] fails with [u3] for a zero amount, [u2] when sender and
    recipient coincide, [u4] when the sender is not the current [tx-sender],
    and [u1] when the sender's balance is too small.  The total STX supply is
    far below [2^128], so crediting an account cannot overflow. *)
Definition stx_balance (l : gmap principal N) (p : principal) : N :=
  default 0 (l !! p).

Definition stx_transfer (current_sender : principal) (amount : N)
    (sender recipient : principal) (l : gmap principal N)
    : response (gmap principal N) N :=
  if amount =? 0 then err 3
  else if is_eq sender recipient then err 2
  else if negb (is_eq sender current_sender) then err 4
  else if stx_balance l sender <? amount then err 1
  else ok (<[recipient := stx_balance l recipient + amount]>
             (<[sender := stx_balance l sender - amount]> l)).

(** Values as they appear in a transaction result. *)
Inductive value : Type :=
| VUInt (n : N)
| VBool (b : bool)
| VAscii (s : string)
| VOk (v : value)
| VErr (v : value).

(** The contracts declare their error constants as [(err uN)], a response
    whose [ok] side is never inhabited. *)
Definition error : Type := response Empty_set N.

Definition error_value (e : error) : value :=
  match e with
  | ok absurd => match absurd with end
  | err code => VErr (VUInt code)
  end.

Definition response_value {A} (f : A → value) (r : response A error) : value :=
  match r with
  | ok a => VOk (f a)
  | err e => VErr (error_value e)
  end.

Definition answer_value {S A} (f : A → value)
    (o : outcome (response A error) * S) : outcome value * S :=
  match o with
  | (Answer r, s) => (Answer (response_value f r), s)
  | (Aborted e, s) => (Aborted e, s)
  end.

(** *** [string-utf8]

    A [(string-utf8 max)] is a sequence of Unicode scalar values, at most
    [max] of them, and [len] counts them.  The bound is part of the type: the
    runtime checks the arguments of a contract call against the declared
    parameter types before the body runs, so a longer string never reaches
    a function.  A shorter-bounded string is accepted where a longer bound
    is declared. *)
Record string_utf8 (max : N) : Type := Utf8 {
  chars : list N;
  chars_fit : Is_true (N.of_nat (length chars) <=? max)
}.
Arguments Utf8 {max} chars chars_fit.
Arguments chars {max} s.
Arguments chars_fit {max} s.

Definition len {max} (s : string_utf8 max) : N := N.of_nat (length (chars s)).

(** An ASCII literal [u"..."] at a declared bound. *)
Definition code_points (s : string) : list N :=
  map Ascii.N_of_ascii (String.list_ascii_of_string s).

Definition utf8 {max} (s : string)
    (fit : Is_true (N.of_nat (length (code_points s)) <=? max)) : string_utf8 max :=
  Utf8 (code_points s) fit.
Arguments utf8 {max} s & fit.

End Clarity.

Import Clarity.

Notation "'let*' x ':=' m 'in' k" := (bind m (λ x, k))
  (at level 10, x name, m at level 100, k at level 200).
Notation "m '>>' k" := (bind m (λ _, k))
  (at level 100, k at level 200, right associativity).

(** ** EscrowService *)

Module EscrowService.

Record escrow : Type := {
  buyer : principal;
  seller : principal;
  amount : N;
  state : string;
  created_at : N;
  expires_at : N
}.

(** [(merge escrow { state: st })] *)
Definition with_state (e : escrow) (st : string) : escrow :=
  {| buyer := buyer e; seller := seller e; amount := amount e; state := st;
     created_at := created_at e; expires_at := expires_at e |}.

(** The contract's data map and data variable, and the STX ledger its
    transfers act on. *)
Record store : Type := {
  Escrows : gmap N escrow;
  last_escrow_id : N;
  stx : gmap principal N
}.

Definition set_Escrows (f : gmap N escrow → gmap N escrow) (s : store) : store :=
  {| Escrows := f (Escrows s); last_escrow_id := last_escrow_id s; stx := stx s |}.
Definition set_last_escrow_id (n : N) (s : store) : store :=
  {| Escrows := Escrows s; last_escrow_id := n; stx := stx s |}.
Definition set_stx (l : gmap principal N) (s : store) : store :=
  {| Escrows := Escrows s; last_escrow_id := last_escrow_id s; stx := l |}.

(** The error constants are themselves [err] responses. *)
Definition ERR_NOT_AUTHORIZED : error := err 100.
Definition ERR_ESCROW_NOT_FOUND : error := err 101.
Definition ERR_ALREADY_RELEASED : error := err 102.
Definition ERR_TRANSFER_FAILED : error := err 103.
Definition ERR_INVALID_ESCROW_ID : error := err 104.
Definition ERR_INVALID_AMOUNT : error := err 105.
Definition ERR_INVALID_SELLER : error := err 106.
Definition ERR_ESCROW_EXPIRED : error := err 107.
Definition ESCROW_DURATION : N := 1008.

Section Contract.

(** [CONTRACT_OWNER] is the deployer; [contract_principal] is what
    [(as-contract tx-sender)] evaluates to. *)
Variable CONTRACT_OWNER : principal.
Variable contract_principal : principal.

Definition is_valid_seller (t : tx) (seller : principal) : bool :=
  negb (is_eq seller (tx_sender t)) && negb (is_eq seller contract_principal).

Definition is_valid_escrow_id (escrow_id : N) (s : store) : bool :=
  escrow_id <=? last_escrow_id s.

(** [stx-transfer?] run with [current_sender] as [tx-sender]. *)
Definition stx_transfer_as {R} (current_sender : principal) (amount : N)
    (sender recipient : principal) : clar store R (response bool N) :=
  λ s, match stx_transfer current_sender amount sender recipient (stx s) with
       | ok l => Next (ok true) (set_stx l s)
       | err c => Next (err c) s
       end.

Definition create_escrow (t : tx) (seller : principal) (amount : N)
    : clar store (response N error) (response N error) :=
  let* last := gets last_escrow_id in
  let* escrow_id := add last 1 in
  let* expires_at := add (block_height t) ESCROW_DURATION in
  asserts (0 <? amount) (err ERR_INVALID_AMOUNT) >>
  asserts (is_valid_seller t seller) (err ERR_INVALID_SELLER) >>
  let* transferred :=
    stx_transfer_as (tx_sender t) amount (tx_sender t) contract_principal in
  match transferred with
  | ok _ =>
      modify (set_Escrows (insert escrow_id
        {| buyer := tx_sender t; seller := seller; amount := amount;
           state := "locked"; created_at := block_height t;
           expires_at := expires_at |})) >>
      modify (set_last_escrow_id escrow_id) >>
      pure (ok escrow_id)
  | err _ => pure (err ERR_TRANSFER_FAILED)
  end.

Definition release_funds (t : tx) (escrow_id : N)
    : clar store (response bool error) (response bool error) :=
  let* valid := gets (is_valid_escrow_id escrow_id) in
  asserts valid (err ERR_INVALID_ESCROW_ID) >>
  let* found := gets (λ s, Escrows s !! escrow_id) in
  let* escrow := unwrap found (err ERR_ESCROW_NOT_FOUND) in
  let seller := seller escrow in
  let amount := amount escrow in
  asserts (is_eq (tx_sender t) CONTRACT_OWNER || is_eq (tx_sender t) (buyer escrow))
          (err ERR_NOT_AUTHORIZED) >>
  asserts (is_eq (state escrow) "locked") (err ERR_ALREADY_RELEASED) >>
  asserts (block_height t <=? expires_at escrow) (err ERR_ESCROW_EXPIRED) >>
  let* transferred :=
    stx_transfer_as contract_principal amount contract_principal seller in
  match transferred with
  | ok _ =>
      modify (set_Escrows (insert escrow_id (with_state escrow "released"))) >>
      pure (ok true)
  | err _ => pure (err ERR_TRANSFER_FAILED)
  end.

Definition refund_buyer (t : tx) (escrow_id : N)
    : clar store (response bool error) (response bool error) :=
  let* valid := gets (is_valid_escrow_id escrow_id) in
  asserts valid (err ERR_INVALID_ESCROW_ID) >>
  let* found := gets (λ s, Escrows s !! escrow_id) in
  let* escrow := unwrap found (err ERR_ESCROW_NOT_FOUND) in
  let buyer := buyer escrow in
  let amount := amount escrow in
  asserts (is_eq (tx_sender t) CONTRACT_OWNER) (err ERR_NOT_AUTHORIZED) >>
  asserts (is_eq (state escrow) "locked") (err ERR_ALREADY_RELEASED) >>
  let* transferred :=
    stx_transfer_as contract_principal amount contract_principal buyer in
  match transferred with
  | ok _ =>
      modify (set_Escrows (insert escrow_id (with_state escrow "refunded"))) >>
      pure (ok true)
  | err _ => pure (err ERR_TRANSFER_FAILED)
  end.

Definition get_escrow (escrow_id : N)
    : clar store (response escrow error) (response escrow error) :=
  let* valid := gets (is_valid_escrow_id escrow_id) in
  asserts valid (err ERR_INVALID_ESCROW_ID) >>
  let* found := gets (λ s, Escrows s !! escrow_id) in
  match found with
  | Some escrow => pure (ok escrow)
  | None => pure (err ERR_ESCROW_NOT_FOUND)
  end.

Definition get_last_escrow_id : clar store (response N error) (response N error) :=
  let* last := gets last_escrow_id in
  pure (ok last).

(** The public interface as transactions.  A transaction's result is the
    Clarity value the caller receives. *)
Inductive call : Type :=
| CreateEscrow (seller : principal) (amount : N)
| ReleaseFunds (escrow_id : N)
| RefundBuyer (escrow_id : N).

Definition exec (t : tx) (c : call) (s : store) : outcome value * store :=
  match c with
  | CreateEscrow seller amount =>
      answer_value VUInt (call_public (create_escrow t seller amount) s)
  | ReleaseFunds escrow_id =>
      answer_value VBool (call_public (release_funds t escrow_id) s)
  | RefundBuyer escrow_id =>
      answer_value VBool (call_public (refund_buyer t escrow_id) s)
  end.

(** The store right after deployment: no escrow, and the vault holds nothing. *)
Definition initial (l : gmap principal N) : store :=
  {| Escrows := ∅; last_escrow_id := 0; stx := l |}.

(** The stores the contract can be in: the vault's balance changes only
    through the contract's own transactions. *)
Inductive reachable : store → Prop :=
| reachable_initial (l : gmap principal N) :
    stx_balance l contract_principal = 0 → reachable (initial l)
| reachable_exec (s : store) (t : tx) (c : call) :
    reachable s → reachable (snd (exec t c s)).

Definition run (txs : list (tx * call)) (s : store) : store :=
  foldl (λ acc '(t, c), snd (exec t c acc)) s txs.

Definition vault_balance (s : store) : N := stx_balance (stx s) contract_principal.

End Contract.

Definition is_locked (e : escrow) : bool := is_eq (state e) "locked".

(** What an escrow contributes to the custodial balance. *)
Definition locked_amount (e : escrow) : N := if is_locked e then amount e else 0.

(** Sum of [amount] over the escrows whose state is ["locked"]. *)
Definition locked_total (m : gmap N escrow) : N :=
  map_fold (λ _ e acc, locked_amount e + acc) 0 m.

(** Every stored escrow id has been handed out by the counter. *)
Definition ids_assigned (s : store) : Prop :=
  ∀ k e, Escrows s !! k = Some e → k ≤ last_escrow_id s.

(** What [create-escrow] guarantees of every record it stores. *)
Definition well_formed (vault : principal) (e : escrow) : Prop :=
  0 < amount e ∧ buyer e ≠ vault ∧ seller e ≠ vault ∧ buyer e ≠ seller e.

(** The invariant of the vault: ids come from the counter, records are well
    formed, and the vault holds exactly the locked amounts. *)
Definition vault_invariant (vault : principal) (s : store) : Prop :=
  ids_assigned s ∧
  (∀ k e, Escrows s !! k = Some e → well_formed vault e) ∧
  stx_balance (stx s) vault = locked_total (Escrows s).

End EscrowService.

(** ** The vault on the open ledger

    Nothing in the contract keeps STX from reaching its address by other
    ways than [create-escrow]: the address can hold STX before the
    deployment, and any principal can send STX to it with a plain transfer.
    Only the contract's own code spends from it.  [funded paid s]: the store
    [s] is reached from a deployment on any ledger by calls of the contract
    and by STX transfers of other principals, and [paid] is what the
    contract's address held at deployment plus what such transfers have
    sent to it since. *)

Module EscrowLedger.

Import EscrowService.

Section Ledger.

Variable CONTRACT_OWNER : principal.
Variable contract_principal : principal.

Inductive funded : N → store → Prop :=
| funded_initial (l : gmap principal N) :
    funded (stx_balance l contract_principal) (initial l)
| funded_exec (paid : N) (s : store) (t : tx) (c : call) :
    funded paid s →
    funded paid (snd (exec CONTRACT_OWNER contract_principal t c s))
| funded_payment (paid : N) (s : store) (sender : principal) (amount : N)
    (recipient : principal) (l : gmap principal N) :
    funded paid s →
    sender ≠ contract_principal →
    stx_transfer sender amount sender recipient (stx s) = ok l →
    funded (if is_eq recipient contract_principal then paid + amount else paid)
      (set_stx l s).

(** Ids come from the counter, records are well formed, and the vault holds
    the locked amounts and what was paid to it besides. *)
Definition ledger_invariant (paid : N) (s : store) : Prop :=
  ids_assigned s ∧
  (∀ k e, Escrows s !! k = Some e → well_formed contract_principal e) ∧
  stx_balance (stx s) contract_principal = locked_total (Escrows s) + paid.

End Ledger.

End EscrowLedger.

(** ** DisputeResolution *)

Module DisputeResolution.

Record dispute : Type := {
  escrow_id : N;
  initiator : principal;
  counterparty : principal;
  reason : string_utf8 256;
  status : string;
  created_at : N;
  votes_for : N;
  votes_against : N;
  resolution : option string
}.

(** [(merge dispute { votes-for: vf, votes-against: va })] *)
Definition with_votes (d : dispute) (vf va : N) : dispute :=
  {| escrow_id := escrow_id d; initiator := initiator d;
     counterparty := counterparty d; reason := reason d; status := status d;
     created_at := created_at d; votes_for := vf; votes_against := va;
     resolution := resolution d |}.

(** [(merge dispute { status: st, resolution: r })] *)
Definition with_resolution (d : dispute) (st : string) (r : option string) : dispute :=
  {| escrow_id := escrow_id d; initiator := initiator d;
     counterparty := counterparty d; reason := reason d; status := st;
     created_at := created_at d; votes_for := votes_for d;
     votes_against := votes_against d; resolution := r |}.

Record store : Type := {
  Disputes : gmap N dispute;
  Arbitrators : gmap principal bool;
  ArbitratorVotes : gmap (N * principal) bool;
  last_dispute_id : N;
  arbitrator_reward : N
}.

Definition set_Disputes (f : gmap N dispute → gmap N dispute) (s : store) : store :=
  {| Disputes := f (Disputes s); Arbitrators := Arbitrators s;
     ArbitratorVotes := ArbitratorVotes s; last_dispute_id := last_dispute_id s;
     arbitrator_reward := arbitrator_reward s |}.
Definition set_Arbitrators (f : gmap principal bool → gmap principal bool)
    (s : store) : store :=
  {| Disputes := Disputes s; Arbitrators := f (Arbitrators s);
     ArbitratorVotes := ArbitratorVotes s; last_dispute_id := last_dispute_id s;
     arbitrator_reward := arbitrator_reward s |}.
Definition set_ArbitratorVotes
    (f : gmap (N * principal) bool → gmap (N * principal) bool) (s : store) : store :=
  {| Disputes := Disputes s; Arbitrators := Arbitrators s;
     ArbitratorVotes := f (ArbitratorVotes s); last_dispute_id := last_dispute_id s;
     arbitrator_reward := arbitrator_reward s |}.
Definition set_last_dispute_id (n : N) (s : store) : store :=
  {| Disputes := Disputes s; Arbitrators := Arbitrators s;
     ArbitratorVotes := ArbitratorVotes s; last_dispute_id := n;
     arbitrator_reward := arbitrator_reward s |}.
Definition set_arbitrator_reward_var (n : N) (s : store) : store :=
  {| Disputes := Disputes s; Arbitrators := Arbitrators s;
     ArbitratorVotes := ArbitratorVotes s; last_dispute_id := last_dispute_id s;
     arbitrator_reward := n |}.

Definition ERR_NOT_AUTHORIZED : error := err 100.
Definition ERR_DISPUTE_NOT_FOUND : error := err 101.
Definition ERR_INVALID_STATE : error := err 102.
Definition ERR_NOT_ARBITRATOR : error := err 103.
Definition ERR_ALREADY_VOTED : error := err 104.
Definition ERR_VOTING_CLOSED : error := err 105.
Definition ERR_INSUFFICIENT_VOTES : error := err 106.
Definition ERR_INVALID_VOTE : error := err 107.
Definition ERR_NOT_INVOLVED_PARTY : error := err 108.
Definition ERR_INVALID_ESCROW_ID : error := err 109.
Definition ERR_INVALID_REASON : error := err 110.
Definition ERR_INVALID_DISPUTE_ID : error := err 111.
Definition ERR_INVALID_REWARD : error := err 112.
Definition ERR_INVALID_PRINCIPAL : error := err 113.
Definition VOTING_PERIOD : N := 144.
Definition MIN_VOTES_REQUIRED : N := 3.

Definition is_arbitrator (user : principal) (s : store) : bool :=
  default false (Arbitrators s !! user).

Definition has_voted (dispute_id : N) (arbitrator : principal) (s : store) : bool :=
  match ArbitratorVotes s !! (dispute_id, arbitrator) with
  | Some _ => true
  | None => false
  end.

Definition update_vote_count (dispute_id : N) (vote : bool)
    : clar store (response bool error) (response bool error) :=
  let* found := gets (λ s, Disputes s !! dispute_id) in
  match found with
  | Some dispute =>
      let* new_votes_for :=
        if vote then add (votes_for dispute) 1 else pure (votes_for dispute) in
      let* new_votes_against :=
        if vote then pure (votes_against dispute) else add (votes_against dispute) 1 in
      modify (set_Disputes (insert dispute_id
        (with_votes dispute new_votes_for new_votes_against))) >>
      pure (ok true)
  | None => pure (err ERR_DISPUTE_NOT_FOUND)
  end.

Definition is_valid_escrow_id (escrow_id : N) : bool := 0 <? escrow_id.

Definition is_valid_reason (reason : string_utf8 256) : bool :=
  (0 <? len reason) && (len reason <=? 256).

Definition is_valid_dispute_id (dispute_id : N) (s : store) : bool :=
  dispute_id <=? last_dispute_id s.

Section Contract.

Variable CONTRACT_OWNER : principal.
Variable contract_principal : principal.

Definition is_valid_principal (p : principal) : bool :=
  negb (is_eq p CONTRACT_OWNER) && negb (is_eq p contract_principal).

Definition raise_dispute (t : tx) (escrow_id : N) (counterparty : principal)
    (reason : string_utf8 256) : clar store (response N error) (response N error) :=
  let* last := gets last_dispute_id in
  let* dispute_id := add last 1 in
  asserts (is_valid_escrow_id escrow_id) (err ERR_INVALID_ESCROW_ID) >>
  asserts (is_valid_reason reason) (err ERR_INVALID_REASON) >>
  asserts (negb (is_eq (tx_sender t) counterparty)) (err ERR_NOT_INVOLVED_PARTY) >>
  modify (set_Disputes (insert dispute_id
    {| escrow_id := escrow_id; initiator := tx_sender t;
       counterparty := counterparty; reason := reason; status := "open";
       created_at := block_height t; votes_for := 0; votes_against := 0;
       resolution := None |})) >>
  modify (set_last_dispute_id dispute_id) >>
  pure (ok dispute_id).

Definition vote_on_dispute (t : tx) (dispute_id : N) (vote : bool)
    : clar store (response bool error) (response bool error) :=
  let* found := gets (λ s, Disputes s !! dispute_id) in
  let* dispute := unwrap found (err ERR_DISPUTE_NOT_FOUND) in
  let* valid := gets (is_valid_dispute_id dispute_id) in
  asserts valid (err ERR_INVALID_DISPUTE_ID) >>
  let* arbitrator := gets (is_arbitrator (tx_sender t)) in
  asserts arbitrator (err ERR_NOT_ARBITRATOR) >>
  asserts (is_eq (status dispute) "open") (err ERR_VOTING_CLOSED) >>
  let* elapsed := sub (block_height t) (created_at dispute) in
  asserts (elapsed <=? VOTING_PERIOD) (err ERR_VOTING_CLOSED) >>
  let* voted := gets (has_voted dispute_id (tx_sender t)) in
  asserts (negb voted) (err ERR_ALREADY_VOTED) >>
  let* counted := call (update_vote_count dispute_id vote) in
  let* _ := try counted in
  modify (set_ArbitratorVotes (insert (dispute_id, tx_sender t) vote)) >>
  pure (ok true).

Definition resolve_dispute (t : tx) (dispute_id : N)
    : clar store (response string error) (response string error) :=
  let* found := gets (λ s, Disputes s !! dispute_id) in
  let* dispute := unwrap found (err ERR_DISPUTE_NOT_FOUND) in
  let* valid := gets (is_valid_dispute_id dispute_id) in
  asserts valid (err ERR_INVALID_DISPUTE_ID) >>
  asserts (is_eq (status dispute) "open") (err ERR_INVALID_STATE) >>
  let* total := add (votes_for dispute) (votes_against dispute) in
  asserts (MIN_VOTES_REQUIRED <=? total) (err ERR_INSUFFICIENT_VOTES) >>
  let* elapsed := sub (block_height t) (created_at dispute) in
  asserts (elapsed <=? VOTING_PERIOD) (err ERR_VOTING_CLOSED) >>
  let resolution :=
    if votes_against dispute <? votes_for dispute
    then "for_initiator" else "for_counterparty" in
  modify (set_Disputes (insert dispute_id
    (with_resolution dispute "resolved" (Some resolution)))) >>
  pure (ok resolution).

Definition add_arbitrator (t : tx) (arbitrator : principal)
    : clar store (response bool error) (response bool error) :=
  asserts (is_eq (tx_sender t) CONTRACT_OWNER) (err ERR_NOT_AUTHORIZED) >>
  asserts (is_valid_principal arbitrator) (err ERR_INVALID_PRINCIPAL) >>
  modify (set_Arbitrators (insert arbitrator true)) >>
  pure (ok true).

Definition remove_arbitrator (t : tx) (arbitrator : principal)
    : clar store (response bool error) (response bool error) :=
  asserts (is_eq (tx_sender t) CONTRACT_OWNER) (err ERR_NOT_AUTHORIZED) >>
  asserts (is_valid_principal arbitrator) (err ERR_INVALID_PRINCIPAL) >>
  modify (set_Arbitrators (delete arbitrator)) >>
  pure (ok true).

Definition set_arbitrator_reward (t : tx) (new_reward : N)
    : clar store (response bool error) (response bool error) :=
  asserts (is_eq (tx_sender t) CONTRACT_OWNER) (err ERR_NOT_AUTHORIZED) >>
  asserts (0 <? new_reward) (err ERR_INVALID_REWARD) >>
  modify (set_arbitrator_reward_var new_reward) >>
  pure (ok true).

Inductive call : Type :=
| RaiseDispute (escrow_id : N) (counterparty : principal) (reason : string_utf8 256)
| VoteOnDispute (dispute_id : N) (vote : bool)
| ResolveDispute (dispute_id : N)
| AddArbitrator (arbitrator : principal)
| RemoveArbitrator (arbitrator : principal)
| SetArbitratorReward (new_reward : N).

Definition exec (t : tx) (c : call) (s : store) : outcome value * store :=
  match c with
  | RaiseDispute escrow_id counterparty reason =>
      answer_value VUInt (call_public (raise_dispute t escrow_id counterparty reason) s)
  | VoteOnDispute dispute_id vote =>
      answer_value VBool (call_public (vote_on_dispute t dispute_id vote) s)
  | ResolveDispute dispute_id =>
      answer_value VAscii (call_public (resolve_dispute t dispute_id) s)
  | AddArbitrator arbitrator =>
      answer_value VBool (call_public (add_arbitrator t arbitrator) s)
  | RemoveArbitrator arbitrator =>
      answer_value VBool (call_public (remove_arbitrator t arbitrator) s)
  | SetArbitratorReward new_reward =>
      answer_value VBool (call_public (set_arbitrator_reward t new_reward) s)
  end.

Definition initial : store :=
  {| Disputes := ∅; Arbitrators := ∅; ArbitratorVotes := ∅;
     last_dispute_id := 0; arbitrator_reward := 100 |}.

Definition run (txs : list (tx * call)) (s : store) : store :=
  foldl (λ acc '(t, c), snd (exec t c acc)) s txs.

Inductive reachable : store → Prop :=
| reachable_initial : reachable initial
| reachable_exec (s : store) (t : tx) (c : call) :
    reachable s → reachable (snd (exec t c s)).

End Contract.

(** Every stored dispute id has been handed out by the counter. *)
Definition ids_assigned (s : store) : Prop :=
  ∀ k d, Disputes s !! k = Some d → k ≤ last_dispute_id s.

End DisputeResolution.

(** ** CoreMarketPlace *)

Module CoreMarketPlace.

Record listing : Type := {
  seller : principal;
  name : string_utf8 64;
  description : string_utf8 256;
  price : N;
  status : string;
  created_at : N;
  expires_at : N
}.

(** [(merge listing { price: p, description: d })] *)
Definition with_price_description (l : listing) (p : N) (d : string_utf8 256)
    : listing :=
  {| seller := seller l; name := name l; description := d; price := p;
     status := status l; created_at := created_at l; expires_at := expires_at l |}.

(** [(merge listing { status: st })] *)
Definition with_status (l : listing) (st : string) : listing :=
  {| seller := seller l; name := name l; description := description l;
     price := price l; status := st; created_at := created_at l;
     expires_at := expires_at l |}.

Record store : Type := {
  Listings : gmap N listing;
  last_listing_id : N;
  stx : gmap principal N
}.

Definition set_Listings (f : gmap N listing → gmap N listing) (s : store) : store :=
  {| Listings := f (Listings s); last_listing_id := last_listing_id s; stx := stx s |}.
Definition set_last_listing_id (n : N) (s : store) : store :=
  {| Listings := Listings s; last_listing_id := n; stx := stx s |}.
Definition set_stx (l : gmap principal N) (s : store) : store :=
  {| Listings := Listings s; last_listing_id := last_listing_id s; stx := l |}.

Definition ERR_NOT_AUTHORIZED : error := err 100.
Definition ERR_LISTING_NOT_FOUND : error := err 101.
Definition ERR_INVALID_PRICE : error := err 102.
Definition ERR_INVALID_SELLER : error := err 103.
Definition ERR_INSUFFICIENT_BALANCE : error := err 104.
Definition ERR_LISTING_EXPIRED : error := err 105.
Definition ERR_INVALID_STATUS : error := err 106.
Definition ERR_NOT_SELLER : error := err 107.
Definition ERR_ALREADY_PURCHASED : error := err 108.
Definition ERR_INVALID_INPUT : error := err 109.
Definition ERR_INVALID_DURATION : error := err 110.
Definition ERR_INVALID_LISTING_ID : error := err 111.
Definition MAX_LISTING_DURATION : N := 52560.

Definition is_valid_price (price : N) : bool := 0 <? price.

Definition is_valid_string {max} (str : string_utf8 max) (max_len : N) : bool :=
  (1 <=? len str) && (len str <=? max_len).

Definition is_valid_duration (duration : N) : bool :=
  (0 <? duration) && (duration <=? MAX_LISTING_DURATION).

Definition is_valid_listing_id (id : N) (s : store) : bool :=
  id <=? last_listing_id s.

Definition increment_listing_id : clar store N N :=
  let* current_id := gets last_listing_id in
  let* next := add current_id 1 in
  modify (set_last_listing_id next) >>
  gets last_listing_id.

Section Contract.

Variable CONTRACT_OWNER : principal.
Variable contract_principal : principal.

Definition is_valid_seller (t : tx) (seller : principal) : bool :=
  negb (is_eq seller (tx_sender t)) && negb (is_eq seller contract_principal).

Definition stx_transfer_as {R} (current_sender : principal) (amount : N)
    (sender recipient : principal) : clar store R (response bool N) :=
  λ s, match stx_transfer current_sender amount sender recipient (stx s) with
       | ok l => Next (ok true) (set_stx l s)
       | err c => Next (err c) s
       end.

Definition create_listing (t : tx) (name : string_utf8 64)
    (description : string_utf8 256) (price duration : N)
    : clar store (response N error) (response N error) :=
  let* listing_id := call increment_listing_id in
  let* expires_at := add (block_height t) duration in
  asserts (is_valid_price price) (err ERR_INVALID_PRICE) >>
  asserts (is_valid_string name 64) (err ERR_INVALID_INPUT) >>
  asserts (is_valid_string description 256) (err ERR_INVALID_INPUT) >>
  asserts (is_valid_duration duration) (err ERR_INVALID_DURATION) >>
  modify (set_Listings (insert listing_id
    {| seller := tx_sender t; name := name; description := description;
       price := price; status := "active"; created_at := block_height t;
       expires_at := expires_at |})) >>
  pure (ok listing_id).

Definition update_listing (t : tx) (listing_id new_price : N)
    (new_description : string_utf8 256)
    : clar store (response bool error) (response bool error) :=
  let* valid := gets (is_valid_listing_id listing_id) in
  asserts valid (err ERR_INVALID_LISTING_ID) >>
  let* found := gets (λ s, Listings s !! listing_id) in
  let* listing := unwrap found (err ERR_LISTING_NOT_FOUND) in
  asserts (is_eq (seller listing) (tx_sender t)) (err ERR_NOT_SELLER) >>
  asserts (is_eq (status listing) "active") (err ERR_INVALID_STATUS) >>
  asserts (is_valid_price new_price) (err ERR_INVALID_PRICE) >>
  asserts (is_valid_string new_description 256) (err ERR_INVALID_INPUT) >>
  modify (set_Listings (insert listing_id
    (with_price_description listing new_price new_description))) >>
  pure (ok true).

Definition cancel_listing (t : tx) (listing_id : N)
    : clar store (response bool error) (response bool error) :=
  let* valid := gets (is_valid_listing_id listing_id) in
  asserts valid (err ERR_INVALID_LISTING_ID) >>
  let* found := gets (λ s, Listings s !! listing_id) in
  let* listing := unwrap found (err ERR_LISTING_NOT_FOUND) in
  asserts (is_eq (seller listing) (tx_sender t)) (err ERR_NOT_SELLER) >>
  asserts (is_eq (status listing) "active") (err ERR_INVALID_STATUS) >>
  modify (set_Listings (insert listing_id (with_status listing "cancelled"))) >>
  pure (ok true).

Definition purchase_listing (t : tx) (listing_id : N)
    : clar store (response bool error) (response bool error) :=
  let* valid := gets (is_valid_listing_id listing_id) in
  asserts valid (err ERR_INVALID_LISTING_ID) >>
  let* found := gets (λ s, Listings s !! listing_id) in
  let* listing := unwrap found (err ERR_LISTING_NOT_FOUND) in
  let price := price listing in
  let seller := seller listing in
  asserts (is_eq (status listing) "active") (err ERR_INVALID_STATUS) >>
  asserts (block_height t <=? expires_at listing) (err ERR_LISTING_EXPIRED) >>
  asserts (is_valid_seller t seller) (err ERR_INVALID_SELLER) >>
  let* transferred := stx_transfer_as (tx_sender t) price (tx_sender t) seller in
  match transferred with
  | ok _ =>
      modify (set_Listings (insert listing_id (with_status listing "sold"))) >>
      pure (ok true)
  | err _ => pure (err ERR_INSUFFICIENT_BALANCE)
  end.

Definition get_listing (listing_id : N) (s : store) : option listing :=
  if is_valid_listing_id listing_id s then Listings s !! listing_id else None.

Inductive call : Type :=
| CreateListing (name : string_utf8 64) (description : string_utf8 256)
    (price duration : N)
| UpdateListing (listing_id new_price : N) (new_description : string_utf8 256)
| CancelListing (listing_id : N)
| PurchaseListing (listing_id : N).

Definition exec (t : tx) (c : call) (s : store) : outcome value * store :=
  match c with
  | CreateListing name description price duration =>
      answer_value VUInt
        (call_public (create_listing t name description price duration) s)
  | UpdateListing listing_id new_price new_description =>
      answer_value VBool
        (call_public (update_listing t listing_id new_price new_description) s)
  | CancelListing listing_id =>
      answer_value VBool (call_public (cancel_listing t listing_id) s)
  | PurchaseListing listing_id =>
      answer_value VBool (call_public (purchase_listing t listing_id) s)
  end.

Definition initial (l : gmap principal N) : store :=
  {| Listings := ∅; last_listing_id := 0; stx := l |}.

Definition run (txs : list (tx * call)) (s : store) : store :=
  foldl (λ acc '(t, c), snd (exec t c acc)) s txs.

Inductive reachable : store → Prop :=
| reachable_initial (l : gmap principal N) : reachable (initial l)
| reachable_exec (s : store) (t : tx) (c : call) :
    reachable s → reachable (snd (exec t c s)).

End Contract.

Definition ids_assigned (s : store) : Prop :=
  ∀ k l, Listings s !! k = Some l → k ≤ last_listing_id s.

End CoreMarketPlace.

(** ** Notions for further properties of the escrow vault *)

Module EscrowShape.

Import EscrowService.

(** The stored ids are exactly [1 .. last-escrow-id]. *)
Definition ids_dense (s : store) : Prop :=
  ∀ k, is_Some (Escrows s !! k) ↔ 1 ≤ k ≤ last_escrow_id s.

(** What every stored record looks like. *)
Definition record_ok (e : escrow) : Prop :=
  (state e = "locked" ∨ state e = "released" ∨ state e = "refunded") ∧
  expires_at e = created_at e + ESCROW_DURATION ∧
  expires_at e ≤ UINT_MAX.

(** [e'] is [e] later in its life: only the state may differ, and it can only
    have left ["locked"]. *)
Definition evolves (e e' : escrow) : Prop :=
  buyer e' = buyer e ∧ seller e' = seller e ∧ amount e' = amount e ∧
  created_at e' = created_at e ∧ expires_at e' = expires_at e ∧
  (state e' = state e ∨
   state e = "locked" ∧ (state e' = "released" ∨ state e' = "refunded")).

End EscrowShape.

(** ** The board's read-only functions and notions for further properties *)

Module BoardShape.

Import DisputeResolution.

(** [get-dispute]: the map entry, with no test on the id. *)
Definition get_dispute (dispute_id : N) (s : store) : option dispute :=
  Disputes s !! dispute_id.

(** [get-last-dispute-id], [get-arbitrator-reward], [is-user-arbitrator] *)
Definition get_last_dispute_id (s : store) : response N error :=
  ok (last_dispute_id s).
Definition get_arbitrator_reward (s : store) : response N error :=
  ok (arbitrator_reward s).
Definition is_user_arbitrator (user : principal) (s : store) : response bool error :=
  ok (is_arbitrator user s).

(** The number of recorded votes on a dispute with a given value. *)
Definition votes_cast (dispute_id : N) (vote : bool)
    (votes : gmap (N * principal) bool) : N :=
  N.of_nat (size (filter (λ kv, kv.1.1 = dispute_id ∧ kv.2 = vote) votes)).

Definition ids_dense (s : store) : Prop :=
  ∀ k, is_Some (Disputes s !! k) ↔ 1 ≤ k ≤ last_dispute_id s.

(** The outcome the tallies of a dispute call for. *)
Definition majority (d : dispute) : string :=
  if votes_against d <? votes_for d then "for_initiator" else "for_counterparty".

(** What every stored dispute looks like. *)
Definition dispute_ok (d : dispute) : Prop :=
  0 < escrow_id d ∧ initiator d ≠ counterparty d ∧
  1 ≤ len (reason d) ≤ 256 ∧
  (status d = "open" ∧ resolution d = None ∨
   status d = "resolved" ∧
   MIN_VOTES_REQUIRED ≤ votes_for d + votes_against d ∧
   resolution d = Some (majority d)).

(** The tallies of every dispute are the numbers of recorded votes on it, and
    votes are recorded on stored disputes only. *)
Definition tallies_match (s : store) : Prop :=
  (∀ id d, Disputes s !! id = Some d →
     votes_for d = votes_cast id true (ArbitratorVotes s) ∧
     votes_against d = votes_cast id false (ArbitratorVotes s)) ∧
  (∀ id who, is_Some (ArbitratorVotes s !! (id, who)) →
     is_Some (Disputes s !! id)).

(** The arbitrator map holds [true] only, and neither the owner nor the
    contract itself is in it. *)
Definition arbitrators_ok (owner contract : principal) (s : store) : Prop :=
  Arbitrators s !! owner = None ∧ Arbitrators s !! contract = None ∧
  ∀ p b, Arbitrators s !! p = Some b → b = true.

Definition board_invariant (owner contract : principal) (s : store) : Prop :=
  ids_dense s ∧ last_dispute_id s = N.of_nat (size (Disputes s)) ∧
  (∀ id d, Disputes s !! id = Some d → dispute_ok d) ∧
  tallies_match s ∧ arbitrators_ok owner contract s ∧ 0 < arbitrator_reward s.

End BoardShape.

(** ** Notions for further properties of the listing registry *)

Module MarketShape.

Import CoreMarketPlace.

Definition ids_dense (s : store) : Prop :=
  ∀ k, is_Some (Listings s !! k) ↔ 1 ≤ k ≤ last_listing_id s.

(** What every stored listing looks like. *)
Definition listing_ok (l : listing) : Prop :=
  0 < price l ∧
  1 ≤ len (name l) ≤ 64 ∧
  1 ≤ len (description l) ≤ 256 ∧
  created_at l < expires_at l ∧
  expires_at l ≤ created_at l + MAX_LISTING_DURATION ∧
  (status l = "active" ∨ status l = "sold" ∨ status l = "cancelled").

(** [l'] is [l] later in its life: seller, name and both block heights are
    kept; a listing that is not ["active"] is kept whole; an ["active"] one
    may get a new price and description and may become ["sold"] or
    ["cancelled"]. *)
Definition evolves (l l' : listing) : Prop :=
  seller l' = seller l ∧ name l' = name l ∧
  created_at l' = created_at l ∧ expires_at l' = expires_at l ∧
  (status l' = status l ∨
   status l = "active" ∧ (status l' = "sold" ∨ status l' = "cancelled")) ∧
  (status l ≠ "active" → l' = l).

Definition market_invariant (s : store) : Prop :=
  ids_dense s ∧
  last_listing_id s = N.of_nat (size (Listings s)) ∧
  ∀ k l, Listings s !! k = Some l → listing_ok l.

(** [(ok (var-get last-listing-id))] *)
Definition get_last_listing_id (s : store) : response N error :=
  ok (last_listing_id s).

End MarketShape.

(** ** UserProfile *)

Module UserProfile.

Record user : Type := {
  username : string_utf8 64;
  bio : string_utf8 256;
  email : string_utf8 64;
  registration_date : N;
  total_ratings : N;
  rating_sum : N;
  reputation_score : N
}.

(** [(merge user-data { bio: b, email: e })] *)
Definition with_bio_email (u : user) (b : string_utf8 256) (e : string_utf8 64)
    : user :=
  {| username := username u; bio := b; email := e;
     registration_date := registration_date u;
     total_ratings := total_ratings u; rating_sum := rating_sum u;
     reputation_score := reputation_score u |}.

(** [(merge user-data { total-ratings: n, rating-sum: sum })] *)
Definition with_ratings (u : user) (n sum : N) : user :=
  {| username := username u; bio := bio u; email := email u;
     registration_date := registration_date u;
     total_ratings := n; rating_sum := sum;
     reputation_score := reputation_score u |}.

(** [(merge user-data { reputation-score: r })] *)
Definition with_reputation (u : user) (r : N) : user :=
  {| username := username u; bio := bio u; email := email u;
     registration_date := registration_date u;
     total_ratings := total_ratings u; rating_sum := rating_sum u;
     reputation_score := r |}.

Record store : Type := {
  Users : gmap principal user;
  UserAuthorization : gmap principal bool
}.

Definition set_Users (f : gmap principal user → gmap principal user) (s : store)
    : store :=
  {| Users := f (Users s); UserAuthorization := UserAuthorization s |}.
Definition set_UserAuthorization (f : gmap principal bool → gmap principal bool)
    (s : store) : store :=
  {| Users := Users s; UserAuthorization := f (UserAuthorization s) |}.

Definition ERR_NOT_AUTHORIZED : error := err 100.
Definition ERR_USER_NOT_FOUND : error := err 101.
Definition ERR_INVALID_RATING : error := err 102.
Definition ERR_SELF_RATING : error := err 103.
Definition ERR_ALREADY_REGISTERED : error := err 104.
Definition ERR_INVALID_INPUT : error := err 105.
Definition ERR_DATA_STORE_FAILURE : error := err 106.
Definition ERR_INVALID_PRINCIPAL : error := err 107.
Definition ERR_INVALID_USERNAME : error := err 108.
Definition ERR_INVALID_BIO : error := err 109.
Definition ERR_INVALID_EMAIL : error := err 110.

(** [( * a b)] on [uint]: an overflow aborts the transaction. *)
Definition uint_mul (a b : N) : option N :=
  if a * b <=? UINT_MAX then Some (a * b) else None.

Definition mul {S R} (a b : N) : clar S R N :=
  λ s, match uint_mul a b with Some n => Next n s | None => Fault ArithmeticOverflow end.

(** [(is-none o)] *)
Definition is_none {A} (o : option A) : bool :=
  match o with None => true | Some _ => false end.

(** [(map-set Users user data)] and [(map-set UserAuthorization user flag)]:
    [map-set] writes the entry and evaluates to [true]. *)
Definition map_set_Users {R} (who : principal) (data : user) : clar store R bool :=
  λ s, Next true (set_Users (insert who data) s).
Definition map_set_UserAuthorization {R} (who : principal) (flag : bool)
    : clar store R bool :=
  λ s, Next true (set_UserAuthorization (insert who flag) s).

Definition is_valid_string {max} (str : string_utf8 max) (max_len : N) : bool :=
  (1 <=? len str) && (len str <=? max_len).

Definition validate_username (username : string_utf8 64)
    : response (string_utf8 64) error :=
  if is_valid_string username 64 then ok username else err ERR_INVALID_USERNAME.

Definition validate_bio (bio : string_utf8 256)
    : response (string_utf8 256) error :=
  if is_valid_string bio 256 then ok bio else err ERR_INVALID_BIO.

Definition validate_email (email : string_utf8 64)
    : response (string_utf8 64) error :=
  if is_valid_string email 64 then ok email else err ERR_INVALID_EMAIL.

Definition set_user_data (who : principal) (data : user)
    : clar store (response bool error) (response bool error) :=
  let* stored := map_set_Users who data in
  pure (if stored then ok true else err ERR_DATA_STORE_FAILURE).

Definition get_user_profile (who : principal) (s : store) : response user error :=
  match Users s !! who with
  | Some user_data => ok user_data
  | None => err ERR_USER_NOT_FOUND
  end.

Definition get_user_rating (who : principal) (s : store) : response N error :=
  match Users s !! who with
  | Some user_data =>
      let total_ratings := total_ratings user_data in
      let rating_sum := rating_sum user_data in
      if 0 <? total_ratings then ok (rating_sum / total_ratings) else ok 0
  | None => err ERR_USER_NOT_FOUND
  end.

Definition is_user_authorized (who : principal) (s : store) : response bool error :=
  ok (default false (UserAuthorization s !! who)).

Section Contract.

Variable CONTRACT_OWNER : principal.
Variable contract_principal : principal.

Definition is_valid_principal (who : principal) : bool :=
  negb (is_eq who contract_principal).

Definition register_user (t : tx) (username : string_utf8 64)
    (bio : string_utf8 256) (email : string_utf8 64)
    : clar store (response bool error) (response bool error) :=
  let* existing_user := gets (λ s, Users s !! tx_sender t) in
  asserts (is_none existing_user) (err ERR_ALREADY_REGISTERED) >>
  asserts ((0 <? len username) && (1 <=? len username) && (len username <=? 64) &&
           (0 <? len bio) && (1 <=? len bio) && (len bio <=? 256) &&
           (0 <? len email) && (1 <=? len email) && (len email <=? 64))
          (err ERR_INVALID_INPUT) >>
  let* validated_username := try (validate_username username) in
  let* validated_bio := try (validate_bio bio) in
  let* validated_email := try (validate_email email) in
  let* stored := Clarity.call (set_user_data (tx_sender t)
    {| username := validated_username; bio := validated_bio;
       email := validated_email; registration_date := block_height t;
       total_ratings := 0; rating_sum := 0; reputation_score := 0 |}) in
  pure (match stored with
        | ok _ => ok true
        | err _ => err ERR_DATA_STORE_FAILURE
        end).

Definition update_profile (t : tx) (bio : string_utf8 256) (email : string_utf8 64)
    : clar store (response bool error) (response bool error) :=
  asserts ((0 <? len bio) && (1 <=? len bio) && (len bio <=? 256) &&
           (0 <? len email) && (1 <=? len email) && (len email <=? 64))
          (err ERR_INVALID_INPUT) >>
  let* validated_bio := try (validate_bio bio) in
  let* validated_email := try (validate_email email) in
  let* found := gets (λ s, Users s !! tx_sender t) in
  match found with
  | Some user_data =>
      let* stored := Clarity.call (set_user_data (tx_sender t)
        (with_bio_email user_data validated_bio validated_email)) in
      pure (match stored with
            | ok _ => ok true
            | err _ => err ERR_DATA_STORE_FAILURE
            end)
  | None => pure (err ERR_USER_NOT_FOUND)
  end.

Definition rate_user (t : tx) (who : principal) (rating : N)
    : clar store (response bool error) (response bool error) :=
  asserts (is_valid_principal who) (err ERR_INVALID_PRINCIPAL) >>
  asserts (negb (is_eq (tx_sender t) who)) (err ERR_SELF_RATING) >>
  asserts ((1 <=? rating) && (rating <=? 5)) (err ERR_INVALID_RATING) >>
  let* found := gets (λ s, Users s !! who) in
  match found with
  | Some user_data =>
      let* total := add (total_ratings user_data) 1 in
      let* sum := add (rating_sum user_data) rating in
      let* stored := Clarity.call (set_user_data who
        (with_ratings user_data total sum)) in
      pure (match stored with
            | ok _ => ok true
            | err _ => err ERR_DATA_STORE_FAILURE
            end)
  | None => pure (err ERR_USER_NOT_FOUND)
  end.

Definition calculate_reputation (t : tx) (who : principal)
    : clar store (response bool error) (response bool error) :=
  asserts (is_valid_principal who) (err ERR_INVALID_PRINCIPAL) >>
  let* found := gets (λ s, Users s !! who) in
  match found with
  | Some user_data =>
      let total_ratings := total_ratings user_data in
      let rating_sum := rating_sum user_data in
      let avg_rating :=
        if 0 <? total_ratings then rating_sum / total_ratings else 0 in
      let* from_average := mul avg_rating 20 in
      let* from_count := mul total_ratings 2 in
      let* new_reputation := add from_average from_count in
      let* stored := Clarity.call (set_user_data who
        (with_reputation user_data new_reputation)) in
      pure (match stored with
            | ok _ => ok true
            | err _ => err ERR_DATA_STORE_FAILURE
            end)
  | None => pure (err ERR_USER_NOT_FOUND)
  end.

Definition authorize_user (t : tx) (who : principal)
    : clar store (response bool error) (response bool error) :=
  asserts (is_eq (tx_sender t) CONTRACT_OWNER) (err ERR_NOT_AUTHORIZED) >>
  asserts (is_valid_principal who) (err ERR_INVALID_PRINCIPAL) >>
  let* stored := map_set_UserAuthorization who true in
  pure (ok stored).

Definition revoke_authorization (t : tx) (who : principal)
    : clar store (response bool error) (response bool error) :=
  asserts (is_eq (tx_sender t) CONTRACT_OWNER) (err ERR_NOT_AUTHORIZED) >>
  asserts (is_valid_principal who) (err ERR_INVALID_PRINCIPAL) >>
  let* stored := map_set_UserAuthorization who false in
  pure (ok stored).

Inductive call : Type :=
| RegisterUser (username : string_utf8 64) (bio : string_utf8 256)
    (email : string_utf8 64)
| UpdateProfile (bio : string_utf8 256) (email : string_utf8 64)
| RateUser (who : principal) (rating : N)
| CalculateReputation (who : principal)
| AuthorizeUser (who : principal)
| RevokeAuthorization (who : principal).

Definition exec (t : tx) (c : call) (s : store) : outcome value * store :=
  match c with
  | RegisterUser username bio email =>
      answer_value VBool (call_public (register_user t username bio email) s)
  | UpdateProfile bio email =>
      answer_value VBool (call_public (update_profile t bio email) s)
  | RateUser who rating =>
      answer_value VBool (call_public (rate_user t who rating) s)
  | CalculateReputation who =>
      answer_value VBool (call_public (calculate_reputation t who) s)
  | AuthorizeUser who =>
      answer_value VBool (call_public (authorize_user t who) s)
  | RevokeAuthorization who =>
      answer_value VBool (call_public (revoke_authorization t who) s)
  end.

(** The deployment marks the owner as authorized. *)
Definition initial : store :=
  {| Users := ∅; UserAuthorization := {[ CONTRACT_OWNER := true ]} |}.

Definition run (txs : list (tx * call)) (s : store) : store :=
  foldl (λ acc '(t, c), snd (exec t c acc)) s txs.

Inductive reachable : store → Prop :=
| reachable_initial : reachable initial
| reachable_exec (s : store) (t : tx) (c : call) :
    reachable s → reachable (snd (exec t c s)).

End Contract.

(** What every stored profile looks like. *)
Definition user_ok (u : user) : Prop :=
  1 ≤ len (username u) ≤ 64 ∧
  1 ≤ len (bio u) ≤ 256 ∧
  1 ≤ len (email u) ≤ 64 ∧
  total_ratings u ≤ rating_sum u ≤ 5 * total_ratings u ∧
  reputation_score u ≤ 100 + 2 * total_ratings u.

(** [u'] is [u] later in its life: username and registration date are kept,
    ratings are only ever added. *)
Definition evolves (u u' : user) : Prop :=
  username u' = username u ∧
  registration_date u' = registration_date u ∧
  total_ratings u ≤ total_ratings u' ∧
  rating_sum u ≤ rating_sum u'.

(** The score [calculate-reputation] computes from a profile: twenty times
    the average rating, rounded down, plus twice the number of ratings. *)
Definition reputation_of (u : user) : N :=
  (if 0 <? total_ratings u then rating_sum u / total_ratings u else 0) * 20
  + total_ratings u * 2.

(** The error codes of a transaction result. *)
Definition answers_code (o : outcome value) (code : N) : Prop :=
  o = Answer (VErr (VErr (VUInt code))).

End UserProfile.

(** ** Strade Token (BST) *)

Module StradeToken.

(** The fungible token [bst] (balances and supply), the metadata URI and the
    pause flag.  The name, symbol and decimals are never written and are
    left out. *)
Record store : Type := {
  bst : gmap principal N;
  bst_supply : N;
  token_uri : option (string_utf8 256);
  contract_paused : bool
}.

Definition set_token_uri_var (uri : option (string_utf8 256)) (s : store) : store :=
  {| bst := bst s; bst_supply := bst_supply s; token_uri := uri;
     contract_paused := contract_paused s |}.
Definition set_contract_paused (flag : bool) (s : store) : store :=
  {| bst := bst s; bst_supply := bst_supply s; token_uri := token_uri s;
     contract_paused := flag |}.

(** [(define-fungible-token bst u1000000000000)]: the supply is capped. *)
Definition BST_TOTAL_SUPPLY : N := 1000000000000.

(** Here the error constants are thrown as they are, not wrapped again. *)
Definition ERR_OWNER_ONLY : response bool N := err 100.
Definition ERR_NOT_AUTHORIZED : response bool N := err 101.
Definition ERR_INVALID_AMOUNT : response bool N := err 102.
Definition ERR_INSUFFICIENT_BALANCE : response bool N := err 103.
Definition ERR_INVALID_RECIPIENT : response bool N := err 104.
Definition ERR_INVALID_URI : response bool N := err 105.
Definition ERR_MAX_SUPPLY_REACHED : response bool N := err 106.
Definition ERR_CONTRACT_PAUSED : response bool N := err 107.
Definition MAX_SUPPLY : N := 10000000000000.

(** How a function body is left early: with a response, or by the runtime
    error of a mint beyond the cap of the token. *)
Inductive exit : Type :=
| Responded (r : response bool N)
| SupplyOverflowExit.

Inductive abort : Type :=
| Runtime (e : runtime_error)
| SupplyOverflow.

Inductive token_outcome : Type :=
| Answered (r : response bool N)
| Reverted (e : abort).

Definition body : Type := clar store exit (response bool N).

(** A public function commits its writes only when it answers [ok]. *)
Definition call_token (b : body) (s : store) : token_outcome * store :=
  match b s with
  | Next (ok a) s' | Return (Responded (ok a)) s' => (Answered (ok a), s')
  | Next (err e) _ | Return (Responded (err e)) _ => (Answered (err e), s)
  | Return SupplyOverflowExit _ => (Reverted SupplyOverflow, s)
  | Fault e => (Reverted (Runtime e), s)
  end.

(** [(try! r)] *)
Definition try_response {A} (r : response A N) : clar store exit A :=
  λ s, match r with ok a => Next a s | err e => Return (Responded (err e)) s end.

(** [(ft-get-balance bst who)] and [(ft-get-supply bst)] *)
Definition ft_get_balance (who : principal) (s : store) : N :=
  default 0 (bst s !! who).
Definition ft_get_supply (s : store) : N := bst_supply s.

(** [(ft-transfer? bst amount sender recipient)]: [u3] for a zero amount,
    [u2] when sender and recipient coincide, [u1] when the sender's balance
    is too small. *)
Definition ft_transfer (amount : N) (sender recipient : principal)
    : clar store exit (response bool N) :=
  λ s, if amount =? 0 then Next (err 3) s
       else if is_eq sender recipient then Next (err 2) s
       else if ft_get_balance sender s <? amount then Next (err 1) s
       else Next (ok true)
              {| bst := <[recipient := ft_get_balance recipient s + amount]>
                          (<[sender := ft_get_balance sender s - amount]> (bst s));
                 bst_supply := bst_supply s; token_uri := token_uri s;
                 contract_paused := contract_paused s |}.

(** [(ft-mint? bst amount recipient)]: [u1] for a zero amount; a mint that
    would take the supply above the cap is a runtime error. *)
Definition ft_mint (amount : N) (recipient : principal)
    : clar store exit (response bool N) :=
  λ s, if amount =? 0 then Next (err 1) s
       else match uint_add (bst_supply s) amount with
            | None => Fault ArithmeticOverflow
            | Some supply =>
                if BST_TOTAL_SUPPLY <? supply then Return SupplyOverflowExit s
                else Next (ok true)
                       {| bst := <[recipient := ft_get_balance recipient s + amount]>
                                   (bst s);
                          bst_supply := supply; token_uri := token_uri s;
                          contract_paused := contract_paused s |}
            end.

(** [(ft-burn? bst amount sender)]: [u1] for a zero amount and when the
    sender's balance is too small. *)
Definition ft_burn (amount : N) (sender : principal)
    : clar store exit (response bool N) :=
  λ s, if amount =? 0 then Next (err 1) s
       else if ft_get_balance sender s <? amount then Next (err 1) s
       else Next (ok true)
              {| bst := <[sender := ft_get_balance sender s - amount]> (bst s);
                 bst_supply := bst_supply s - amount; token_uri := token_uri s;
                 contract_paused := contract_paused s |}.

Definition is_contract_not_paused (s : store) : bool := negb (contract_paused s).

Definition get_balance (who : principal) (s : store) : response N N :=
  ok (ft_get_balance who s).
Definition get_total_supply (s : store) : response N N := ok (ft_get_supply s).
Definition get_token_uri (s : store) : response (option (string_utf8 256)) N :=
  ok (token_uri s).

Section Contract.

Variable CONTRACT_OWNER : principal.
Variable contract_principal : principal.

Definition is_valid_recipient (recipient : principal) : bool :=
  negb (is_eq recipient contract_principal).

(** The memo is only printed. *)
Definition transfer (t : tx) (amount : N) (sender recipient : principal) : body :=
  let* not_paused := gets is_contract_not_paused in
  asserts not_paused (Responded ERR_CONTRACT_PAUSED) >>
  asserts (is_eq (tx_sender t) sender) (Responded ERR_NOT_AUTHORIZED) >>
  asserts (0 <? amount) (Responded ERR_INVALID_AMOUNT) >>
  let* balance := gets (ft_get_balance sender) in
  asserts (amount <=? balance) (Responded ERR_INSUFFICIENT_BALANCE) >>
  asserts (is_valid_recipient recipient) (Responded ERR_INVALID_RECIPIENT) >>
  let* transferred := ft_transfer amount sender recipient in
  try_response transferred >>
  pure (ok true).

Definition mint (t : tx) (amount : N) (recipient : principal) : body :=
  let* not_paused := gets is_contract_not_paused in
  asserts not_paused (Responded ERR_CONTRACT_PAUSED) >>
  asserts (is_eq (tx_sender t) CONTRACT_OWNER) (Responded ERR_OWNER_ONLY) >>
  asserts (0 <? amount) (Responded ERR_INVALID_AMOUNT) >>
  asserts (is_valid_recipient recipient) (Responded ERR_INVALID_RECIPIENT) >>
  let* supply := gets ft_get_supply in
  let* requested := add amount supply in
  asserts (requested <=? MAX_SUPPLY) (Responded ERR_MAX_SUPPLY_REACHED) >>
  let* minted := ft_mint amount recipient in
  pure (match minted with
        | ok success => ok success
        | err error => err error
        end).

Definition burn (t : tx) (amount : N) (sender : principal) : body :=
  let* not_paused := gets is_contract_not_paused in
  asserts not_paused (Responded ERR_CONTRACT_PAUSED) >>
  asserts (is_eq (tx_sender t) sender) (Responded ERR_NOT_AUTHORIZED) >>
  asserts (0 <? amount) (Responded ERR_INVALID_AMOUNT) >>
  let* balance := gets (ft_get_balance sender) in
  asserts (amount <=? balance) (Responded ERR_INSUFFICIENT_BALANCE) >>
  let* burnt := ft_burn amount sender in
  pure (match burnt with
        | ok success => ok success
        | err error => err error
        end).

Definition set_token_uri (t : tx) (new_uri : option (string_utf8 256)) : body :=
  asserts (is_eq (tx_sender t) CONTRACT_OWNER) (Responded ERR_OWNER_ONLY) >>
  match new_uri with
  | Some some_uri =>
      asserts (len some_uri <=? 256) (Responded ERR_INVALID_URI) >>
      modify (set_token_uri_var (Some some_uri)) >>
      pure (ok true)
  | None =>
      modify (set_token_uri_var None) >>
      pure (ok true)
  end.

Definition pause_contract (t : tx) : body :=
  asserts (is_eq (tx_sender t) CONTRACT_OWNER) (Responded ERR_OWNER_ONLY) >>
  modify (set_contract_paused true) >>
  pure (ok true).

Definition unpause_contract (t : tx) : body :=
  asserts (is_eq (tx_sender t) CONTRACT_OWNER) (Responded ERR_OWNER_ONLY) >>
  modify (set_contract_paused false) >>
  pure (ok true).

Inductive call : Type :=
| Transfer (amount : N) (sender recipient : principal)
| Mint (amount : N) (recipient : principal)
| Burn (amount : N) (sender : principal)
| SetTokenUri (new_uri : option (string_utf8 256))
| PauseContract
| UnpauseContract.

Definition exec (t : tx) (c : call) (s : store) : token_outcome * store :=
  match c with
  | Transfer amount sender recipient =>
      call_token (transfer t amount sender recipient) s
  | Mint amount recipient => call_token (mint t amount recipient) s
  | Burn amount sender => call_token (burn t amount sender) s
  | SetTokenUri new_uri => call_token (set_token_uri t new_uri) s
  | PauseContract => call_token (pause_contract t) s
  | UnpauseContract => call_token (unpause_contract t) s
  end.

(** The deployment mints the whole capped supply to the owner. *)
Definition initial : store :=
  {| bst := {[ CONTRACT_OWNER := 1000000000000 ]};
     bst_supply := 1000000000000; token_uri := None;
     contract_paused := false |}.

Definition run (txs : list (tx * call)) (s : store) : store :=
  foldl (λ acc '(t, c), snd (exec t c acc)) s txs.

Inductive reachable : store → Prop :=
| reachable_initial : reachable initial
| reachable_exec (s : store) (t : tx) (c : call) :
    reachable s → reachable (snd (exec t c s)).

End Contract.

(** Sum of all balances. *)
Definition held_total (l : gmap principal N) : N :=
  map_fold (λ _ amount acc, amount + acc) 0 l.

End StradeToken.

(** ** A deployment and a few transactions, used as worked examples *)

Module Scenario.

Definition deployer : principal := "ST2WFP8G2CTAZWQBRQT2BWBPTH3NB341NMQJGD0KM".
Definition vault : principal :=
  "ST2WFP8G2CTAZWQBRQT2BWBPTH3NB341NMQJGD0KM.EscrowService".
Definition board : principal :=
  "ST2WFP8G2CTAZWQBRQT2BWBPTH3NB341NMQJGD0KM.DisputeResolution_clar".
Definition market : principal :=
  "ST2WFP8G2CTAZWQBRQT2BWBPTH3NB341NMQJGD0KM.CoreMarketPlace".
Definition wallet_1 : principal := "wallet_1".
Definition wallet_2 : principal := "wallet_2".
Definition wallet_3 : principal := "wallet_3".
Definition wallet_4 : principal := "wallet_4".

Definition at_height (who : principal) (h : N) : tx :=
  {| tx_sender := who; block_height := h |}.

Definition funds : gmap principal N :=
  {[ wallet_1 := 100000000; wallet_2 := 100000000; wallet_3 := 100000000 ]}.

(** [wallet_2] opens an escrow of 500 with [wallet_1] as seller at height 10. *)
Definition escrow_opened : EscrowService.store :=
  snd (EscrowService.exec deployer vault (at_height wallet_2 10)
         (EscrowService.CreateEscrow wallet_1 500) (EscrowService.initial funds)).

Definition escrow_1 : EscrowService.escrow :=
  {| EscrowService.buyer := wallet_2; EscrowService.seller := wallet_1;
     EscrowService.amount := 500; EscrowService.state := "locked";
     EscrowService.created_at := 10; EscrowService.expires_at := 1018 |}.

(** The same escrow opened on a ledger where the vault's address already
    holds 5. *)
Definition prefunded : gmap principal N :=
  {[ vault := 5; wallet_1 := 100000000; wallet_2 := 100000000 ]}.

Definition escrow_prefunded : EscrowService.store :=
  snd (EscrowService.exec deployer vault (at_height wallet_2 10)
         (EscrowService.CreateEscrow wallet_1 500) (EscrowService.initial prefunded)).

(** [wallet_2] releases the funds at height 20. *)
Definition escrow_released : EscrowService.store :=
  snd (EscrowService.exec deployer vault (at_height wallet_2 20)
         (EscrowService.ReleaseFunds 1) escrow_opened).

(** The owner registers three arbitrators and [wallet_1] raises a dispute
    over escrow 1 at height 5. *)
Definition dispute_raised : DisputeResolution.store :=
  DisputeResolution.run deployer board
    [ (at_height deployer 1, DisputeResolution.AddArbitrator wallet_2);
      (at_height deployer 2, DisputeResolution.AddArbitrator wallet_3);
      (at_height deployer 3, DisputeResolution.AddArbitrator wallet_4);
      (at_height wallet_1 5,
       DisputeResolution.RaiseDispute 1 wallet_2 (utf8 "item not delivered" I)) ]
    DisputeResolution.initial.

(** [wallet_2] votes for the initiator at height 6. *)
Definition one_vote : DisputeResolution.store :=
  snd (DisputeResolution.exec deployer board (at_height wallet_2 6)
         (DisputeResolution.VoteOnDispute 1 true) dispute_raised).

(** [wallet_3] votes against at height 7 and [wallet_4] votes for at height 8. *)
Definition three_votes : DisputeResolution.store :=
  DisputeResolution.run deployer board
    [ (at_height wallet_3 7, DisputeResolution.VoteOnDispute 1 false);
      (at_height wallet_4 8, DisputeResolution.VoteOnDispute 1 true) ]
    one_vote.

Definition dispute_1 : DisputeResolution.dispute :=
  {| DisputeResolution.escrow_id := 1; DisputeResolution.initiator := wallet_1;
     DisputeResolution.counterparty := wallet_2;
     DisputeResolution.reason := utf8 "item not delivered" I;
     DisputeResolution.status := "open"; DisputeResolution.created_at := 5;
     DisputeResolution.votes_for := 2; DisputeResolution.votes_against := 1;
     DisputeResolution.resolution := None |}.

(** [wallet_1] lists an item for 1 STX for 5 blocks at height 10. *)
Definition listed : CoreMarketPlace.store :=
  snd (CoreMarketPlace.exec market (at_height wallet_1 10)
         (CoreMarketPlace.CreateListing (utf8 "Test Item" I)
            (utf8 "A test item for sale" I) 1000000 5)
         (CoreMarketPlace.initial funds)).

Definition listing_1 : CoreMarketPlace.listing :=
  {| CoreMarketPlace.seller := wallet_1; CoreMarketPlace.name := utf8 "Test Item" I;
     CoreMarketPlace.description := utf8 "A test item for sale" I;
     CoreMarketPlace.price := 1000000; CoreMarketPlace.status := "active";
     CoreMarketPlace.created_at := 10; CoreMarketPlace.expires_at := 15 |}.

(** One vote for and one against. *)
Definition two_votes : DisputeResolution.store :=
  snd (DisputeResolution.exec deployer board (at_height wallet_3 7)
         (DisputeResolution.VoteOnDispute 1 false) one_vote).

(** [wallet_2] buys the listing at height 12. *)
Definition purchased : CoreMarketPlace.store :=
  snd (CoreMarketPlace.exec market (at_height wallet_2 12)
         (CoreMarketPlace.PurchaseListing 1) listed).

Definition registry : principal :=
  "ST2WFP8G2CTAZWQBRQT2BWBPTH3NB341NMQJGD0KM.UserProfile".
Definition token : principal := "ST2WFP8G2CTAZWQBRQT2BWBPTH3NB341NMQJGD0KM.token".

(** [wallet_1] registers as "alice" at height 3, [wallet_2] rates it 5 at
    height 4 and [wallet_3] rates it 4 at height 5. *)
Definition profiles : UserProfile.store :=
  UserProfile.run deployer registry
    [ (at_height wallet_1 3,
       UserProfile.RegisterUser (utf8 "alice" I) (utf8 "hi" I) (utf8 "a@b.c" I));
      (at_height wallet_2 4, UserProfile.RateUser wallet_1 5);
      (at_height wallet_3 5, UserProfile.RateUser wallet_1 4) ]
    (UserProfile.initial deployer).

Definition profile_1 : UserProfile.user :=
  {| UserProfile.username := utf8 "alice" I;
     UserProfile.bio := utf8 "hi" I;
     UserProfile.email := utf8 "a@b.c" I;
     UserProfile.registration_date := 3; UserProfile.total_ratings := 2;
     UserProfile.rating_sum := 9; UserProfile.reputation_score := 0 |}.

End Scenario.

(** * Properties *)

(** ** Facts about the runtime *)

Lemma len_fits {max} (str : string_utf8 max) : len str ≤ max.
Proof.
  destruct str as [l Hfit]. unfold len. cbn [chars].
  apply N.leb_le. by apply Is_true_true.
Qed.

Section RuntimeFacts.

Context {S A E : Type}.
Implicit Types body : clar S (response A E) (response A E).

Lemma call_public_ok body s a s' :
  call_public body s = (Answer (ok a), s') ↔ run_body body s = (Answer (ok a), s').
Proof.
  unfold call_public. destruct (run_body body s) as [[[x|e]|e] s0]; split; congruence.
Qed.

Lemma call_public_err body s e s' :
  call_public body s = (Answer (err e), s') ↔
  s' = s ∧ ∃ s0, run_body body s = (Answer (err e), s0).
Proof.
  unfold call_public. destruct (run_body body s) as [[[x|e0]|e0] s0]; split;
    try (intros [? [? ?]]); try intros ?; simplify_eq; eauto.
Qed.

Lemma call_public_aborted body s e s' :
  call_public body s = (Aborted e, s') → s' = s.
Proof.
  unfold call_public. destruct (run_body body s) as [[[x|e0]|e0] s0]; congruence.
Qed.

(** A transaction either answers [ok] and commits the body's store, or leaves
    the store as it was. *)
Lemma call_public_cases body s :
  (∃ a s', run_body body s = (Answer (ok a), s') ∧
           call_public body s = (Answer (ok a), s')) ∨
  ((∀ a, fst (call_public body s) ≠ Answer (ok a)) ∧ snd (call_public body s) = s).
Proof.
  unfold call_public. destruct (run_body body s) as [[[x|e0]|e0] s0]; simpl; eauto.
  all: right; split; [intros ?; congruence | reflexivity].
Qed.

End RuntimeFacts.

Section LedgerFacts.

Implicit Types l : gmap principal N.

Lemma stx_transfer_ok current amount sender recipient l l' :
  stx_transfer current amount sender recipient l = ok l' →
  0 < amount ∧ sender ≠ recipient ∧ sender = current ∧
  amount ≤ stx_balance l sender ∧
  l' = <[recipient := stx_balance l recipient + amount]>
         (<[sender := stx_balance l sender - amount]> l).
Proof.
  unfold stx_transfer, is_eq. intros H.
  destruct (N.eqb_spec amount 0); [discriminate|].
  repeat case_bool_decide; simpl in H; try discriminate.
  destruct (N.ltb_spec (stx_balance l sender) amount); [discriminate|].
  simplify_eq. repeat split; auto; lia.
Qed.

Lemma stx_transfer_succeeds current amount sender recipient l :
  0 < amount → sender ≠ recipient → sender = current →
  amount ≤ stx_balance l sender →
  ∃ l', stx_transfer current amount sender recipient l = ok l'.
Proof.
  intros Hpos Hne Hcur Hbal. unfold stx_transfer, is_eq.
  destruct (N.eqb_spec amount 0); [lia|].
  rewrite bool_decide_eq_false_2 by done.
  rewrite bool_decide_eq_true_2 by done. simpl.
  destruct (N.ltb_spec (stx_balance l sender) amount); [lia|]. eauto.
Qed.

Lemma stx_balance_debited current amount sender recipient l l' :
  stx_transfer current amount sender recipient l = ok l' →
  stx_balance l' sender + amount = stx_balance l sender.
Proof.
  intros (? & ? & ? & ? & ->)%stx_transfer_ok. unfold stx_balance at 1.
  rewrite lookup_insert_ne by done. rewrite lookup_insert_eq. simpl. lia.
Qed.

Lemma stx_balance_credited current amount sender recipient l l' :
  stx_transfer current amount sender recipient l = ok l' →
  stx_balance l' recipient = stx_balance l recipient + amount.
Proof.
  intros (? & ? & ? & ? & ->)%stx_transfer_ok. unfold stx_balance at 1.
  by rewrite lookup_insert_eq.
Qed.

Lemma stx_balance_untouched current amount sender recipient l l' p :
  stx_transfer current amount sender recipient l = ok l' →
  p ≠ sender → p ≠ recipient → stx_balance l' p = stx_balance l p.
Proof.
  intros (? & ? & ? & ? & ->)%stx_transfer_ok ? ?. unfold stx_balance.
  by rewrite !lookup_insert_ne by done.
Qed.

End LedgerFacts.

(** Turning the boolean tests of the contracts into propositions. *)
Lemma is_eq_true {A} `{EqDecision A} (a b : A) : is_eq a b = true ↔ a = b.
Proof. apply bool_decide_eq_true. Qed.

Lemma is_eq_false {A} `{EqDecision A} (a b : A) : is_eq a b = false ↔ a ≠ b.
Proof. apply bool_decide_eq_false. Qed.

Ltac reflect_bools :=
  repeat match goal with
  | H : is_eq _ _ = true |- _ => apply (proj1 (is_eq_true _ _)) in H
  | H : is_eq _ _ = false |- _ => apply (proj1 (is_eq_false _ _)) in H
  | H : negb _ = true |- _ => apply (proj1 (negb_true_iff _)) in H
  | H : negb _ = false |- _ => apply (proj1 (negb_false_iff _)) in H
  | H : (_ || _) = true |- _ => apply (proj1 (orb_true_iff _ _)) in H; destruct H
  | H : (_ || _) = false |- _ => apply (proj1 (orb_false_iff _ _)) in H; destruct H
  | H : (_ && _) = true |- _ => apply (proj1 (andb_true_iff _ _)) in H; destruct H
  | H : (_ && _) = false |- _ => apply (proj1 (andb_false_iff _ _)) in H; destruct H
  | H : (_ <=? _) = true |- _ => apply (proj1 (N.leb_le _ _)) in H
  | H : (_ <=? _) = false |- _ => apply (proj1 (N.leb_gt _ _)) in H
  | H : (_ <? _) = true |- _ => apply (proj1 (N.ltb_lt _ _)) in H
  | H : (_ <? _) = false |- _ => apply (proj1 (N.ltb_ge _ _)) in H
  | H : (_ =? _) = true |- _ => apply (proj1 (N.eqb_eq _ _)) in H
  | H : (_ =? _) = false |- _ => apply (proj1 (N.eqb_neq _ _)) in H
  end.

(** Proving that a body equals its decision tree: follow the tree's tests from
    the outermost one inwards. *)
Ltac follow_tests :=
  cbv beta iota zeta;
  repeat (match goal with
          | |- _ = (if ?c then _ else _) => destruct c eqn:?
          | |- _ = match ?c with _ => _ end => destruct c eqn:?
          end; cbv beta iota zeta);
  try reflexivity.

Ltac solve_flow :=
  repeat case_match; simplify_eq; reflect_bools;
  first [reflexivity | tauto | lia | congruence].

(** ** EscrowService *)

Section EscrowTheorems.

Import EscrowService EscrowLedger.

Variable CONTRACT_OWNER : principal.
Variable contract_principal : principal.

Local Abbreviation funded := (funded CONTRACT_OWNER contract_principal).

Local Abbreviation release_funds := (release_funds CONTRACT_OWNER contract_principal).
Local Abbreviation refund_buyer := (refund_buyer CONTRACT_OWNER contract_principal).
Local Abbreviation create_escrow := (create_escrow contract_principal).
Local Abbreviation exec := (exec CONTRACT_OWNER contract_principal).
Local Abbreviation reachable := (reachable CONTRACT_OWNER contract_principal).
Local Abbreviation run := (run CONTRACT_OWNER contract_principal).
Local Abbreviation vault_balance := (vault_balance contract_principal).

Lemma release_funds_unfold t id s :
  release_funds t id s =
  if is_valid_escrow_id id s then
    match Escrows s !! id with
    | None => Return (err ERR_ESCROW_NOT_FOUND) s
    | Some e =>
      if is_eq (tx_sender t) CONTRACT_OWNER || is_eq (tx_sender t) (buyer e) then
        if is_eq (state e) "locked" then
          if block_height t <=? expires_at e then
            match stx_transfer contract_principal (amount e) contract_principal
                    (seller e) (stx s) with
            | ok l => Next (ok true)
                (set_Escrows (insert id (with_state e "released")) (set_stx l s))
            | err _ => Next (err ERR_TRANSFER_FAILED) s
            end
          else Return (err ERR_ESCROW_EXPIRED) s
        else Return (err ERR_ALREADY_RELEASED) s
      else Return (err ERR_NOT_AUTHORIZED) s
    end
  else Return (err ERR_INVALID_ESCROW_ID) s.
Proof.
  unfold EscrowService.release_funds, bind, gets, asserts, unwrap, stx_transfer_as,
    modify, pure.
  follow_tests.
Qed.

Lemma refund_buyer_unfold t id s :
  refund_buyer t id s =
  if is_valid_escrow_id id s then
    match Escrows s !! id with
    | None => Return (err ERR_ESCROW_NOT_FOUND) s
    | Some e =>
      if is_eq (tx_sender t) CONTRACT_OWNER then
        if is_eq (state e) "locked" then
          match stx_transfer contract_principal (amount e) contract_principal
                  (buyer e) (stx s) with
          | ok l => Next (ok true)
              (set_Escrows (insert id (with_state e "refunded")) (set_stx l s))
          | err _ => Next (err ERR_TRANSFER_FAILED) s
          end
        else Return (err ERR_ALREADY_RELEASED) s
      else Return (err ERR_NOT_AUTHORIZED) s
    end
  else Return (err ERR_INVALID_ESCROW_ID) s.
Proof.
  unfold EscrowService.refund_buyer, bind, gets, asserts, unwrap, stx_transfer_as,
    modify, pure.
  follow_tests.
Qed.

Lemma create_escrow_unfold t seller amount s :
  create_escrow t seller amount s =
  match uint_add (last_escrow_id s) 1 with
  | None => Fault ArithmeticOverflow
  | Some escrow_id =>
    match uint_add (block_height t) ESCROW_DURATION with
    | None => Fault ArithmeticOverflow
    | Some expires =>
      if 0 <? amount then
        if is_valid_seller contract_principal t seller then
          match stx_transfer (tx_sender t) amount (tx_sender t) contract_principal
                  (stx s) with
          | ok l => Next (ok escrow_id)
              (set_last_escrow_id escrow_id
                 (set_Escrows (insert escrow_id
                    {| buyer := tx_sender t; seller := seller; amount := amount;
                       state := "locked"; created_at := block_height t;
                       expires_at := expires |}) (set_stx l s)))
          | err _ => Next (err ERR_TRANSFER_FAILED) s
          end
        else Return (err ERR_INVALID_SELLER) s
      else Return (err ERR_INVALID_AMOUNT) s
    end
  end.
Proof.
  unfold EscrowService.create_escrow, bind, gets, asserts, unwrap, stx_transfer_as,
    modify, pure, add.
  follow_tests.
Qed.

Lemma uint_add_Some a b c : uint_add a b = Some c → c = a + b ∧ c ≤ UINT_MAX.
Proof. unfold uint_add. intros H. case_match; simplify_eq. reflect_bools. done. Qed.

Lemma release_funds_ok t id s a s' :
  run_body (release_funds t id) s = (Answer (ok a), s') →
  a = true ∧ ∃ e l,
    Escrows s !! id = Some e ∧
    (tx_sender t = buyer e ∨ tx_sender t = CONTRACT_OWNER) ∧
    state e = "locked" ∧
    block_height t ≤ expires_at e ∧
    stx_transfer contract_principal (amount e) contract_principal (seller e)
      (stx s) = ok l ∧
    s' = {| Escrows := <[id := with_state e "released"]> (Escrows s);
            last_escrow_id := last_escrow_id s; stx := l |}.
Proof.
  unfold run_body. rewrite release_funds_unfold. intros H.
  repeat case_match; simplify_eq; reflect_bools.
  all: split; [done|]; eexists _, _; repeat split; eauto.
Qed.

Lemma refund_buyer_ok t id s a s' :
  run_body (refund_buyer t id) s = (Answer (ok a), s') →
  a = true ∧ ∃ e l,
    Escrows s !! id = Some e ∧
    tx_sender t = CONTRACT_OWNER ∧
    state e = "locked" ∧
    stx_transfer contract_principal (amount e) contract_principal (buyer e)
      (stx s) = ok l ∧
    s' = {| Escrows := <[id := with_state e "refunded"]> (Escrows s);
            last_escrow_id := last_escrow_id s; stx := l |}.
Proof.
  unfold run_body. rewrite refund_buyer_unfold. intros H.
  repeat case_match; simplify_eq; reflect_bools.
  split; [done|]; eexists _, _; repeat split; eauto.
Qed.

Lemma create_escrow_ok t seller amount s id s' :
  run_body (create_escrow t seller amount) s = (Answer (ok id), s') →
  id = last_escrow_id s + 1 ∧ ∃ expires l,
    uint_add (block_height t) ESCROW_DURATION = Some expires ∧
    0 < amount ∧ seller ≠ tx_sender t ∧ seller ≠ contract_principal ∧
    stx_transfer (tx_sender t) amount (tx_sender t) contract_principal (stx s)
      = ok l ∧
    s' = {| Escrows := <[id := {| buyer := tx_sender t; seller := seller;
                                  amount := amount; state := "locked";
                                  created_at := block_height t;
                                  expires_at := expires |}]> (Escrows s);
            last_escrow_id := id; stx := l |}.
Proof.
  unfold run_body. rewrite create_escrow_unfold. unfold is_valid_seller. intros H.
  repeat case_match; simplify_eq; reflect_bools.
  match goal with H : uint_add _ 1 = Some _ |- _ =>
    apply uint_add_Some in H; destruct H as [-> _] end.
  split; [done|]; eexists _, _; repeat split; eauto.
Qed.

(** *** The sum of the locked amounts *)

Lemma locked_total_empty : locked_total ∅ = 0.
Proof. unfold locked_total. by rewrite map_fold_empty. Qed.

Lemma locked_total_insert_fresh (m : gmap N escrow) k e :
  m !! k = None → locked_total (<[k := e]> m) = locked_amount e + locked_total m.
Proof.
  intros Hk. unfold locked_total. rewrite map_fold_insert_L; [done| |done].
  intros. lia.
Qed.

Lemma locked_total_delete (m : gmap N escrow) k e :
  m !! k = Some e → locked_total m = locked_amount e + locked_total (delete k m).
Proof.
  intros Hk. unfold locked_total. rewrite (map_fold_delete_L _ _ k e m); [done| |done].
  intros. lia.
Qed.

Lemma locked_total_insert_over (m : gmap N escrow) k e e' :
  m !! k = Some e →
  locked_total (<[k := e']> m) + locked_amount e = locked_total m + locked_amount e'.
Proof.
  intros Hk. rewrite (locked_total_delete m k e Hk).
  rewrite <- (insert_delete_eq m k e').
  rewrite locked_total_insert_fresh by apply lookup_delete_eq. lia.
Qed.

Lemma locked_total_ge (m : gmap N escrow) k e :
  m !! k = Some e → locked_amount e ≤ locked_total m.
Proof. intros Hk. rewrite (locked_total_delete m k e Hk). lia. Qed.

Lemma locked_amount_locked e : state e = "locked" → locked_amount e = amount e.
Proof.
  intros H. unfold locked_amount, is_locked, is_eq. by rewrite bool_decide_eq_true_2.
Qed.

Lemma locked_amount_with_state e st :
  st ≠ "locked" → locked_amount (with_state e st) = 0.
Proof.
  intros H. unfold locked_amount, is_locked, is_eq. simpl.
  by rewrite bool_decide_eq_false_2.
Qed.

(** *** The vault invariant holds in every reachable store *)

Lemma vault_invariant_initial l :
  stx_balance l contract_principal = 0 →
  vault_invariant contract_principal (initial l).
Proof.
  intros Hl. split; [|split].
  - intros k e Hk. unfold initial in Hk. cbn [Escrows] in Hk.
    by rewrite lookup_empty in Hk.
  - intros k e Hk. unfold initial in Hk. cbn [Escrows] in Hk.
    by rewrite lookup_empty in Hk.
  - unfold initial. cbn [Escrows stx]. by rewrite locked_total_empty.
Qed.

Lemma vault_invariant_create t seller amount s id s' :
  vault_invariant contract_principal s →
  run_body (create_escrow t seller amount) s = (Answer (ok id), s') →
  vault_invariant contract_principal s'.
Proof.
  intros (Hids & Hwf & Hbal)
    (-> & expires & l & _ & Hpos & Hst & Hsc & Htr & ->)%create_escrow_ok.
  pose proof (stx_transfer_ok _ _ _ _ _ _ Htr) as (_ & Hne & _ & _ & _).
  assert (Escrows s !! (last_escrow_id s + 1) = None) as Hfresh.
  { destruct (Escrows s !! (last_escrow_id s + 1)) as [e|] eqn:He; [|done].
    apply Hids in He. lia. }
  split; [|split]; [intros k e|intros k e|]; cbn [Escrows stx last_escrow_id].
  - destruct (decide (k = last_escrow_id s + 1)) as [->|Hk].
    + intros _. lia.
    + rewrite lookup_insert_ne by done. intros He%Hids. lia.
  - destruct (decide (k = last_escrow_id s + 1)) as [->|Hk].
    + rewrite lookup_insert_eq. intros [= <-]. repeat split; simpl; congruence.
    + rewrite lookup_insert_ne by done. apply Hwf.
  - rewrite (stx_balance_credited _ _ _ _ _ _ Htr), Hbal.
    rewrite locked_total_insert_fresh by done.
    rewrite locked_amount_locked by done. simpl. lia.
Qed.

Lemma vault_invariant_settle s id e st l :
  vault_invariant contract_principal s →
  Escrows s !! id = Some e →
  state e = "locked" →
  st ≠ "locked" →
  stx_balance l contract_principal + amount e =
    stx_balance (stx s) contract_principal →
  vault_invariant contract_principal
    {| Escrows := <[id := with_state e st]> (Escrows s);
       last_escrow_id := last_escrow_id s; stx := l |}.
Proof.
  intros (Hids & Hwf & Hbal) He Hlocked Hst Hl.
  split; [|split]; [intros k e'|intros k e'|]; cbn [Escrows stx last_escrow_id].
  - destruct (decide (k = id)) as [->|Hk].
    + intros _. by apply (Hids id e).
    + rewrite lookup_insert_ne by done. apply Hids.
  - destruct (decide (k = id)) as [->|Hk].
    + rewrite lookup_insert_eq. intros [= <-]. apply (Hwf id e He).
    + rewrite lookup_insert_ne by done. apply Hwf.
  - pose proof (locked_total_insert_over (Escrows s) id e (with_state e st) He) as Hsum.
    rewrite locked_amount_locked in Hsum by done.
    rewrite locked_amount_with_state in Hsum by done. lia.
Qed.

Lemma vault_invariant_exec t c s :
  vault_invariant contract_principal s →
  vault_invariant contract_principal (snd (exec t c s)).
Proof.
  intros Hinv. destruct c as [seller amount|id|id]; unfold EscrowService.exec.
  - destruct (call_public_cases (create_escrow t seller amount) s)
      as [(a & s' & Hbody & ->)|[_ Hsame]]; simpl.
    + eauto using vault_invariant_create.
    + destruct (call_public _ s) as [[r|r] s0]; simpl in *; by subst.
  - destruct (call_public_cases (release_funds t id) s)
      as [(a & s' & Hbody & ->)|[_ Hsame]]; simpl.
    + apply release_funds_ok in Hbody
        as (_ & e & l & He & _ & Hst & _ & Htr & ->).
      apply vault_invariant_settle; try done.
      apply (stx_balance_debited _ _ _ _ _ _ Htr).
    + destruct (call_public _ s) as [[r|r] s0]; simpl in *; by subst.
  - destruct (call_public_cases (refund_buyer t id) s)
      as [(a & s' & Hbody & ->)|[_ Hsame]]; simpl.
    + apply refund_buyer_ok in Hbody as (_ & e & l & He & _ & Hst & Htr & ->).
      apply vault_invariant_settle; try done.
      apply (stx_balance_debited _ _ _ _ _ _ Htr).
    + destruct (call_public _ s) as [[r|r] s0]; simpl in *; by subst.
Qed.

Lemma reachable_vault_invariant s :
  reachable s → vault_invariant contract_principal s.
Proof.
  induction 1 as [l Hl|s t c _ IH].
  - by apply vault_invariant_initial.
  - by apply vault_invariant_exec.
Qed.

Lemma escrow_ids_assigned_valid s id e :
  ids_assigned s → Escrows s !! id = Some e → is_valid_escrow_id id s = true.
Proof. intros Hids He. apply N.leb_le. eauto. Qed.

(** C3. [release-funds] succeeds exactly when the id names a stored escrow,
    the caller is its buyer or the owner, its state is ["locked"], the block
    height is at most [expires-at] and the transfer from the vault to the
    seller succeeds; the stored escrow then has state ["released"] and every
    other field as before, the seller has received the amount from the
    vault, and no other escrow is touched.  Otherwise the checks fail in
    that order with NotAuthorized, AlreadyReleased, Expired and
    TransferFailed, and the body has written nothing. *)
Theorem release_funds_succeeds_iff t id s :
  ids_assigned s →
  let result := call_public (release_funds t id) s in
  (∀ a s', result = (Answer (ok a), s') ↔
     a = true ∧ ∃ e l,
       Escrows s !! id = Some e ∧
       (tx_sender t = buyer e ∨ tx_sender t = CONTRACT_OWNER) ∧
       state e = "locked" ∧
       block_height t ≤ expires_at e ∧
       stx_transfer contract_principal (amount e) contract_principal (seller e)
         (stx s) = ok l ∧
       s' = {| Escrows :=
                 <[id := {| buyer := buyer e; seller := seller e;
                            amount := amount e; state := "released";
                            created_at := created_at e;
                            expires_at := expires_at e |}]> (Escrows s);
               last_escrow_id := last_escrow_id s; stx := l |}) ∧
  (∀ a s', result = (Answer (ok a), s') →
     ∃ e e',
       Escrows s !! id = Some e ∧ state e = "locked" ∧
       Escrows s' !! id = Some e' ∧ state e' = "released" ∧
       buyer e' = buyer e ∧ seller e' = seller e ∧ amount e' = amount e ∧
       created_at e' = created_at e ∧ expires_at e' = expires_at e ∧
       (∀ k, k ≠ id → Escrows s' !! k = Escrows s !! k) ∧
       last_escrow_id s' = last_escrow_id s ∧
       stx_balance (stx s') (seller e)
         = stx_balance (stx s) (seller e) + amount e ∧
       stx_balance (stx s') contract_principal + amount e
         = stx_balance (stx s) contract_principal) ∧
  (∀ e, Escrows s !! id = Some e →
     let authorized := tx_sender t = buyer e ∨ tx_sender t = CONTRACT_OWNER in
     (¬ authorized → result = (Answer (err ERR_NOT_AUTHORIZED), s)) ∧
     (authorized → state e ≠ "locked" →
        result = (Answer (err ERR_ALREADY_RELEASED), s)) ∧
     (authorized → state e = "locked" → expires_at e < block_height t →
        result = (Answer (err ERR_ESCROW_EXPIRED), s)) ∧
     (authorized → state e = "locked" → block_height t ≤ expires_at e →
        ∀ code, stx_transfer contract_principal (amount e) contract_principal
                  (seller e) (stx s) = err code →
        result = (Answer (err ERR_TRANSFER_FAILED), s) ∧
        run_body (release_funds t id) s = (Answer (err ERR_TRANSFER_FAILED), s))).
Proof.
  intros Hids result. subst result.
  unfold call_public, run_body. rewrite release_funds_unfold.
  destruct (Escrows s !! id) as [e|] eqn:He.
  2:{ split; [|split; [|done]].
      - intros a s'. split.
        + intros ?; repeat case_match; simplify_eq.
        + intros (_ & ? & ? & ? & _). done.
      - intros a s' ?; repeat case_match; simplify_eq. }
  rewrite (escrow_ids_assigned_valid _ _ _ Hids He).
  split; [intros a s'; split|split; [intros a s' H|intros ? [= <-]; cbv zeta]].
  - intros H. repeat case_match; simplify_eq. reflect_bools.
    all: split; [done|]; eexists _, _; repeat split; eauto.
  - intros (-> & e' & l' & [= <-] & Hauth & Hst & Hexp & Htr & ->).
    rewrite Htr.
    solve_flow.
  - revert H.
    destruct (is_eq (tx_sender t) CONTRACT_OWNER || is_eq (tx_sender t) (buyer e));
      [|done].
    destruct (is_eq (state e) "locked") eqn:Hst; [|done].
    destruct (block_height t <=? expires_at e); [|done].
    destruct (stx_transfer contract_principal (amount e) contract_principal
                (seller e) (stx s)) as [l|code] eqn:Htr; [|done].
    intros [= <- <-]. reflect_bools.
    exists e, (with_state e "released").
    cbn [Escrows last_escrow_id stx set_Escrows set_stx].
    rewrite lookup_insert_eq.
    split; [done|]. split; [done|]. split; [done|].
    split; [reflexivity|]. split; [reflexivity|]. split; [reflexivity|].
    split; [reflexivity|]. split; [reflexivity|]. split; [reflexivity|].
    split; [by intros k Hk; rewrite lookup_insert_ne|].
    split; [done|].
    split; [apply (stx_balance_credited _ _ _ _ _ _ Htr)|].
    apply (stx_balance_debited _ _ _ _ _ _ Htr).
  - repeat split; intros; solve_flow.
Qed.

(** *** The vault on the open ledger *)

Lemma ledger_invariant_create paid t seller amount s id s' :
  ledger_invariant contract_principal paid s →
  run_body (create_escrow t seller amount) s = (Answer (ok id), s') →
  ledger_invariant contract_principal paid s'.
Proof.
  intros (Hids & Hwf & Hbal)
    (-> & expires & l & _ & Hpos & Hst & Hsc & Htr & ->)%create_escrow_ok.
  pose proof (stx_transfer_ok _ _ _ _ _ _ Htr) as (_ & Hne & _ & _ & _).
  assert (Escrows s !! (last_escrow_id s + 1) = None) as Hfresh.
  { destruct (Escrows s !! (last_escrow_id s + 1)) as [e|] eqn:He; [|done].
    apply Hids in He. lia. }
  split; [|split]; [intros k e|intros k e|]; cbn [Escrows stx last_escrow_id].
  - destruct (decide (k = last_escrow_id s + 1)) as [->|Hk].
    + intros _. lia.
    + rewrite lookup_insert_ne by done. intros He%Hids. lia.
  - destruct (decide (k = last_escrow_id s + 1)) as [->|Hk].
    + rewrite lookup_insert_eq. intros [= <-]. repeat split; simpl; congruence.
    + rewrite lookup_insert_ne by done. apply Hwf.
  - rewrite (stx_balance_credited _ _ _ _ _ _ Htr), Hbal.
    rewrite locked_total_insert_fresh by done.
    rewrite locked_amount_locked by done. simpl. lia.
Qed.

Lemma ledger_invariant_settle paid s id e st l :
  ledger_invariant contract_principal paid s →
  Escrows s !! id = Some e →
  state e = "locked" →
  st ≠ "locked" →
  stx_balance l contract_principal + amount e =
    stx_balance (stx s) contract_principal →
  ledger_invariant contract_principal paid
    {| Escrows := <[id := with_state e st]> (Escrows s);
       last_escrow_id := last_escrow_id s; stx := l |}.
Proof.
  intros (Hids & Hwf & Hbal) He Hlocked Hst Hl.
  split; [|split]; [intros k e'|intros k e'|]; cbn [Escrows stx last_escrow_id].
  - destruct (decide (k = id)) as [->|Hk].
    + intros _. by apply (Hids id e).
    + rewrite lookup_insert_ne by done. apply Hids.
  - destruct (decide (k = id)) as [->|Hk].
    + rewrite lookup_insert_eq. intros [= <-]. apply (Hwf id e He).
    + rewrite lookup_insert_ne by done. apply Hwf.
  - pose proof (locked_total_insert_over (Escrows s) id e (with_state e st) He) as Hsum.
    rewrite locked_amount_locked in Hsum by done.
    rewrite locked_amount_with_state in Hsum by done. lia.
Qed.

Lemma ledger_invariant_exec paid t c s :
  ledger_invariant contract_principal paid s →
  ledger_invariant contract_principal paid (snd (exec t c s)).
Proof.
  intros Hinv. destruct c as [seller amount|id|id]; unfold EscrowService.exec.
  - destruct (call_public_cases (create_escrow t seller amount) s)
      as [(a & s' & Hbody & ->)|[_ Hsame]]; simpl.
    + eauto using ledger_invariant_create.
    + destruct (call_public _ s) as [[r|r] s0]; simpl in *; by subst.
  - destruct (call_public_cases (release_funds t id) s)
      as [(a & s' & Hbody & ->)|[_ Hsame]]; simpl.
    + apply release_funds_ok in Hbody
        as (_ & e & l & He & _ & Hst & _ & Htr & ->).
      apply ledger_invariant_settle; try done.
      apply (stx_balance_debited _ _ _ _ _ _ Htr).
    + destruct (call_public _ s) as [[r|r] s0]; simpl in *; by subst.
  - destruct (call_public_cases (refund_buyer t id) s)
      as [(a & s' & Hbody & ->)|[_ Hsame]]; simpl.
    + apply refund_buyer_ok in Hbody as (_ & e & l & He & _ & Hst & Htr & ->).
      apply ledger_invariant_settle; try done.
      apply (stx_balance_debited _ _ _ _ _ _ Htr).
    + destruct (call_public _ s) as [[r|r] s0]; simpl in *; by subst.
Qed.

Lemma ledger_invariant_payment paid s sender amount recipient l :
  ledger_invariant contract_principal paid s →
  sender ≠ contract_principal →
  stx_transfer sender amount sender recipient (stx s) = ok l →
  ledger_invariant contract_principal
    (if is_eq recipient contract_principal then paid + amount else paid)
    (set_stx l s).
Proof.
  intros (Hids & Hwf & Hbal) Hsender Htr.
  split; [done|]. split; [done|]. cbn [Escrows stx set_stx].
  destruct (decide (recipient = contract_principal)) as [->|Hne].
  - rewrite (proj2 (is_eq_true _ _)) by done.
    rewrite (stx_balance_credited _ _ _ _ _ _ Htr), Hbal. lia.
  - rewrite (proj2 (is_eq_false _ _) Hne).
    rewrite (stx_balance_untouched _ _ _ _ _ _ _ Htr) by done. exact Hbal.
Qed.

Lemma funded_ledger_invariant paid s :
  funded paid s → ledger_invariant contract_principal paid s.
Proof.
  induction 1 as [l|paid s t c _ IH|paid s sender amount recipient l _ IH Hs Htr].
  - split; [|split].
    + intros k e Hk. unfold initial in Hk. cbn [Escrows] in Hk.
      by rewrite lookup_empty in Hk.
    + intros k e Hk. unfold initial in Hk. cbn [Escrows] in Hk.
      by rewrite lookup_empty in Hk.
    + unfold initial. cbn [Escrows stx]. rewrite locked_total_empty. lia.
  - by apply ledger_invariant_exec.
  - by apply (ledger_invariant_payment paid s sender).
Qed.

(** The stores reached by contract calls alone from a deployment whose vault
    holds nothing are the funded stores with nothing paid. *)
Lemma reachable_funded s : reachable s → funded 0 s.
Proof.
  induction 1 as [l Hl|s t c _ IH].
  - rewrite <- Hl. constructor.
  - by constructor.
Qed.

(** C1 (as the code has it).  The vault's balance is the sum of [amount] over
    the escrows whose state is ["locked"] plus what the contract's address
    was paid besides: what it held at deployment and what plain transfers
    have sent to it.  So the vault always covers the locked escrows, and it
    holds exactly their sum precisely when nothing was paid to it besides.
    Calls of the contract never change that surplus, and a plain transfer to
    the contract's address raises it, after which the two differ.
    [create-escrow] with
    valid arguments succeeds, stores a ["locked"] escrow under a fresh id
    and raises the vault's balance and the locked sum by its amount in one
    step; a [release-funds] by the buyer or the owner before expiry and a
    [refund-buyer] by the owner succeed on every locked escrow, pay the
    amount out of the vault and leave the escrow ["released"] or
    ["refunded"], so that its amount no longer counts in the sum. *)
Theorem vault_balance_is_locked_total_plus_paid paid s :
  funded paid s →
  vault_balance s = locked_total (Escrows s) + paid ∧
  locked_total (Escrows s) ≤ vault_balance s ∧
  (vault_balance s = locked_total (Escrows s) ↔ paid = 0) ∧
  (∀ t c,
     vault_balance (snd (exec t c s))
       = locked_total (Escrows (snd (exec t c s))) + paid) ∧
  (∀ sender amount l,
     sender ≠ contract_principal →
     stx_transfer sender amount sender contract_principal (stx s) = ok l →
     0 < amount ∧
     vault_balance (set_stx l s) = locked_total (Escrows s) + paid + amount ∧
     vault_balance (set_stx l s) ≠ locked_total (Escrows (set_stx l s))) ∧
  (∀ t seller amount,
     last_escrow_id s < UINT_MAX →
     block_height t + ESCROW_DURATION ≤ UINT_MAX →
     0 < amount → seller ≠ tx_sender t → seller ≠ contract_principal →
     tx_sender t ≠ contract_principal →
     amount ≤ stx_balance (stx s) (tx_sender t) →
     ∃ s' e,
       call_public (create_escrow t seller amount) s
         = (Answer (ok (last_escrow_id s + 1)), s') ∧
       Escrows s !! (last_escrow_id s + 1) = None ∧
       Escrows s' !! (last_escrow_id s + 1) = Some e ∧
       state e = "locked" ∧ EscrowService.amount e = amount ∧
       buyer e = tx_sender t ∧ EscrowService.seller e = seller ∧
       locked_total (Escrows s') = locked_total (Escrows s) + amount ∧
       vault_balance s' = vault_balance s + amount) ∧
  (∀ t id e,
     Escrows s !! id = Some e → state e = "locked" →
     tx_sender t = buyer e ∨ tx_sender t = CONTRACT_OWNER →
     block_height t ≤ expires_at e →
     ∃ s' e',
       call_public (release_funds t id) s = (Answer (ok true), s') ∧
       Escrows s' !! id = Some e' ∧ state e' = "released" ∧
       amount e' = amount e ∧ locked_amount e' = 0 ∧
       locked_total (Escrows s') + amount e = locked_total (Escrows s) ∧
       vault_balance s' + amount e = vault_balance s) ∧
  (∀ t id e,
     Escrows s !! id = Some e → state e = "locked" →
     tx_sender t = CONTRACT_OWNER →
     ∃ s' e',
       call_public (refund_buyer t id) s = (Answer (ok true), s') ∧
       Escrows s' !! id = Some e' ∧ state e' = "refunded" ∧
       amount e' = amount e ∧ locked_amount e' = 0 ∧
       locked_total (Escrows s') + amount e = locked_total (Escrows s) ∧
       vault_balance s' + amount e = vault_balance s).
Proof.
  intros Hfunded.
  pose proof (funded_ledger_invariant _ _ Hfunded) as (Hids & Hwf & Hbal).
  unfold EscrowService.vault_balance.
  split; [exact Hbal|]. split; [lia|]. split; [lia|].
  split.
  { intros t c.
    by destruct (funded_ledger_invariant _ _ (funded_exec _ _ paid s t c Hfunded))
      as (_ & _ & ?). }
  split.
  { intros sender amount l Hsender Htr.
    pose proof (stx_transfer_ok _ _ _ _ _ _ Htr) as (Hpos & _).
    split; [done|]. cbn [stx Escrows set_stx].
    rewrite (stx_balance_credited _ _ _ _ _ _ Htr), Hbal. split; lia. }
  split; [|split].
  - intros t seller amount Hlast Hheight Hpos Hseller Hvault Hsender Hcovers.
    destruct (stx_transfer_succeeds (tx_sender t) amount (tx_sender t)
                contract_principal (stx s)) as [l Htr]; [done..|].
    assert (Escrows s !! (last_escrow_id s + 1) = None) as Hfresh.
    { destruct (Escrows s !! (last_escrow_id s + 1)) as [e|] eqn:He; [|done].
      apply Hids in He. lia. }
    eexists _, _. split.
    { unfold call_public, run_body. rewrite create_escrow_unfold.
      unfold uint_add, is_valid_seller.
      rewrite (proj2 (N.leb_le (last_escrow_id s + 1) UINT_MAX)) by lia.
      rewrite (proj2 (N.leb_le _ _) Hheight).
      rewrite (proj2 (N.ltb_lt _ _) Hpos).
      rewrite (proj2 (is_eq_false _ _) Hseller).
      rewrite (proj2 (is_eq_false _ _) Hvault). cbn [negb andb].
      rewrite Htr. reflexivity. }
    cbn [Escrows stx set_Escrows set_stx set_last_escrow_id].
    rewrite lookup_insert_eq.
    split; [done|]. split; [reflexivity|].
    split; [reflexivity|]. split; [reflexivity|].
    split; [reflexivity|]. split; [reflexivity|].
    rewrite locked_total_insert_fresh by done.
    rewrite locked_amount_locked by done. cbn [EscrowService.amount].
    split; [lia|]. apply (stx_balance_credited _ _ _ _ _ _ Htr).
  - intros t id e He Hlocked Hauth Hexp.
    destruct (Hwf id e He) as (Hpos & _ & Hseller & _).
    pose proof (locked_total_ge (Escrows s) id e He) as Hge.
    rewrite locked_amount_locked in Hge by done.
    destruct (stx_transfer_succeeds contract_principal (amount e)
                contract_principal (seller e) (stx s)) as [l Htr];
      [done|congruence|done|lia|].
    exists {| Escrows := <[id := with_state e "released"]> (Escrows s);
              last_escrow_id := last_escrow_id s; stx := l |},
           (with_state e "released").
    split.
    { unfold call_public, run_body. rewrite release_funds_unfold, He.
      rewrite (escrow_ids_assigned_valid _ _ _ Hids He).
      assert (is_eq (tx_sender t) CONTRACT_OWNER || is_eq (tx_sender t) (buyer e)
              = true) as ->.
      { apply orb_true_iff. destruct Hauth as [Hb|Ho]; [right|left];
          by apply is_eq_true. }
      rewrite (proj2 (is_eq_true _ _) Hlocked).
      rewrite (proj2 (N.leb_le _ _) Hexp), Htr. reflexivity. }
    cbn [Escrows stx]. rewrite lookup_insert_eq.
    pose proof (locked_total_insert_over (Escrows s) id e
                  (with_state e "released") He) as Hsum.
    rewrite locked_amount_locked in Hsum by done.
    rewrite locked_amount_with_state in Hsum by done.
    split; [done|]. split; [reflexivity|]. split; [reflexivity|].
    split; [by apply locked_amount_with_state|].
    split; [lia|]. apply (stx_balance_debited _ _ _ _ _ _ Htr).
  - intros t id e He Hlocked Howner.
    destruct (Hwf id e He) as (Hpos & Hbuyer & _ & _).
    pose proof (locked_total_ge (Escrows s) id e He) as Hge.
    rewrite locked_amount_locked in Hge by done.
    destruct (stx_transfer_succeeds contract_principal (amount e)
                contract_principal (buyer e) (stx s)) as [l Htr];
      [done|congruence|done|lia|].
    exists {| Escrows := <[id := with_state e "refunded"]> (Escrows s);
              last_escrow_id := last_escrow_id s; stx := l |},
           (with_state e "refunded").
    split.
    { unfold call_public, run_body. rewrite refund_buyer_unfold, He.
      rewrite (escrow_ids_assigned_valid _ _ _ Hids He).
      rewrite (proj2 (is_eq_true _ _) Howner).
      rewrite (proj2 (is_eq_true _ _) Hlocked), Htr. reflexivity. }
    cbn [Escrows stx]. rewrite lookup_insert_eq.
    pose proof (locked_total_insert_over (Escrows s) id e
                  (with_state e "refunded") He) as Hsum.
    rewrite locked_amount_locked in Hsum by done.
    rewrite locked_amount_with_state in Hsum by done.
    split; [done|]. split; [reflexivity|]. split; [reflexivity|].
    split; [by apply locked_amount_with_state|].
    split; [lia|]. apply (stx_balance_debited _ _ _ _ _ _ Htr).
Qed.


Lemma get_escrow_unfold id s :
  get_escrow id s =
  if is_valid_escrow_id id s then
    match Escrows s !! id with
    | Some e => Next (ok e) s
    | None => Next (err ERR_ESCROW_NOT_FOUND) s
    end
  else Return (err ERR_INVALID_ESCROW_ID) s.
Proof.
  unfold get_escrow, bind, gets, asserts, pure. follow_tests.
Qed.

Ltac unfold_errors :=
  cbv [answer_value response_value error_value ERR_NOT_AUTHORIZED
       ERR_ESCROW_NOT_FOUND ERR_ALREADY_RELEASED ERR_TRANSFER_FAILED
       ERR_INVALID_ESCROW_ID ERR_INVALID_AMOUNT ERR_INVALID_SELLER
       ERR_ESCROW_EXPIRED] in *.

(** C8 (as the code has it).  The error value of every failing escrow
    operation is one of the error constants, each of which is itself the
    response [(err uN)] with [N] between 100 and 107: the caller receives
    [(err (err uN))], the numeric code wrapped once more.  [create-escrow]
    with a zero amount answers [(err (err u105))] and [release-funds] by a
    caller who is neither the buyer nor the owner answers [(err (err u100))]. *)
Theorem escrow_error_is_wrapped_code :
  (∀ t c s v s',
     exec t c s = (Answer (VErr v), s') →
     ∃ code, v = VErr (VUInt code) ∧ 100 ≤ code ≤ 107) ∧
  (∀ id s e,
     call_read_only (get_escrow id) s = Answer (err e) →
     ∃ code, e = err code ∧ 100 ≤ code ≤ 107) ∧
  (∀ t seller s,
     last_escrow_id s < UINT_MAX →
     block_height t + ESCROW_DURATION ≤ UINT_MAX →
     exec t (CreateEscrow seller 0) s = (Answer (VErr (VErr (VUInt 105))), s)) ∧
  (∀ t id s e,
     is_valid_escrow_id id s = true →
     Escrows s !! id = Some e →
     tx_sender t ≠ buyer e → tx_sender t ≠ CONTRACT_OWNER →
     exec t (ReleaseFunds id) s = (Answer (VErr (VErr (VUInt 100))), s)).
Proof.
  split; [|split; [|split]].
  - intros t c s v s' H. destruct c; unfold EscrowService.exec in H;
      unfold call_public, run_body in H.
    + rewrite create_escrow_unfold in H. unfold_errors.
      repeat case_match; simplify_eq; eexists; (split; [reflexivity|lia]).
    + rewrite release_funds_unfold in H. unfold_errors.
      repeat case_match; simplify_eq; eexists; (split; [reflexivity|lia]).
    + rewrite refund_buyer_unfold in H. unfold_errors.
      repeat case_match; simplify_eq; eexists; (split; [reflexivity|lia]).
  - intros id s e H. unfold call_read_only in H. rewrite get_escrow_unfold in H.
    unfold_errors.
    repeat case_match; simplify_eq; eexists; (split; [reflexivity|lia]).
  - intros t seller s Hlast Hheight. unfold EscrowService.exec, call_public, run_body.
    rewrite create_escrow_unfold. unfold uint_add.
    rewrite (proj2 (N.leb_le _ _)) by lia.
    rewrite (proj2 (N.leb_le _ _)) by lia. reflexivity.
  - intros t id s e Hvalid He Hbuyer Howner.
    unfold EscrowService.exec, call_public, run_body.
    rewrite release_funds_unfold, Hvalid, He. unfold is_eq.
    rewrite !bool_decide_eq_false_2 by done. reflexivity.
Qed.

(** *** The bodies check before they write *)

Lemma escrow_bodies_fail_clean t :
  (∀ seller amount, fails_clean (create_escrow t seller amount)) ∧
  (∀ id, fails_clean (release_funds t id)) ∧
  (∀ id, fails_clean (refund_buyer t id)).
Proof.
  repeat split; intros; intros s e s'; unfold run_body.
  - rewrite create_escrow_unfold. intros H. by repeat case_match; simplify_eq.
  - rewrite release_funds_unfold. intros H. by repeat case_match; simplify_eq.
  - rewrite refund_buyer_unfold. intros H. by repeat case_match; simplify_eq.
Qed.

Lemma create_escrow_transfer_failed t seller amount s code :
  last_escrow_id s < UINT_MAX →
  block_height t + ESCROW_DURATION ≤ UINT_MAX →
  0 < amount →
  seller ≠ tx_sender t → seller ≠ contract_principal →
  stx_transfer (tx_sender t) amount (tx_sender t) contract_principal (stx s)
    = err code →
  run_body (create_escrow t seller amount) s = (Answer (err ERR_TRANSFER_FAILED), s).
Proof.
  intros Hlast Hheight Hpos Hseller Hvault Htr. unfold run_body.
  rewrite create_escrow_unfold. unfold uint_add, is_valid_seller, is_eq.
  rewrite (proj2 (N.leb_le _ _)) by lia.
  rewrite (proj2 (N.leb_le _ _)) by lia.
  rewrite (proj2 (N.ltb_lt _ _) Hpos).
  rewrite !bool_decide_eq_false_2 by done. cbn [negb andb]. by rewrite Htr.
Qed.

(** *** Settled escrows are never written again *)

Lemma escrow_exec_effect t c s :
  let s' := snd (exec t c s) in
  s' = s ∨
  (∃ e, Escrows s' = <[last_escrow_id s + 1 := e]> (Escrows s)) ∨
  (∃ id e e', Escrows s !! id = Some e ∧ state e = "locked" ∧
              Escrows s' = <[id := e']> (Escrows s)).
Proof.
  destruct c as [seller amount|id|id]; unfold EscrowService.exec; cbv zeta.
  - destruct (call_public_cases (create_escrow t seller amount) s)
      as [(a & s' & Hbody & ->)|[_ Hsame]]; cbn [answer_value snd].
    + apply create_escrow_ok in Hbody as (-> & ? & ? & _ & _ & _ & _ & _ & ->).
      right; left. eauto.
    + left. destruct (call_public _ s) as [[r|r] s0]; simpl in *; by subst.
  - destruct (call_public_cases (release_funds t id) s)
      as [(a & s' & Hbody & ->)|[_ Hsame]]; cbn [answer_value snd].
    + apply release_funds_ok in Hbody as (_ & e & l & He & _ & Hst & _ & _ & ->).
      right; right. eauto 10.
    + left. destruct (call_public _ s) as [[r|r] s0]; simpl in *; by subst.
  - destruct (call_public_cases (refund_buyer t id) s)
      as [(a & s' & Hbody & ->)|[_ Hsame]]; cbn [answer_value snd].
    + apply refund_buyer_ok in Hbody as (_ & e & l & He & _ & Hst & _ & ->).
      right; right. eauto 10.
    + left. destruct (call_public _ s) as [[r|r] s0]; simpl in *; by subst.
Qed.

Lemma settled_escrow_kept_exec t c s id e :
  ids_assigned s → Escrows s !! id = Some e → state e ≠ "locked" →
  Escrows (snd (exec t c s)) !! id = Some e.
Proof.
  intros Hids He Hsettled.
  destruct (escrow_exec_effect t c s)
    as [->|[(e0 & ->)|(id' & e1 & e' & He1 & Hlocked & ->)]]; [done|..].
  - rewrite lookup_insert_ne; [done|]. apply Hids in He. lia.
  - rewrite lookup_insert_ne; [done|]. intros ->. congruence.
Qed.

Lemma escrow_reachable_run txs s : reachable s → reachable (run txs s).
Proof.
  revert s. induction txs as [|[t c] txs IH]; intros s Hs; [done|].
  apply IH. by constructor.
Qed.

Lemma settled_escrow_kept_run txs s id e :
  reachable s → Escrows s !! id = Some e → state e ≠ "locked" →
  Escrows (run txs s) !! id = Some e.
Proof.
  revert s. induction txs as [|[t c] txs IH]; intros s Hs He Hsettled; [done|].
  apply IH; [by constructor| |done].
  apply settled_escrow_kept_exec; [|done..].
  by apply reachable_vault_invariant.
Qed.

End EscrowTheorems.

(** ** DisputeResolution *)

Section DisputeTheorems.

Import DisputeResolution.

Variable CONTRACT_OWNER : principal.
Variable contract_principal : principal.

Local Abbreviation exec := (exec CONTRACT_OWNER contract_principal).
Local Abbreviation reachable := (reachable CONTRACT_OWNER contract_principal).
Local Abbreviation run := (run CONTRACT_OWNER contract_principal).
Local Abbreviation add_arbitrator := (add_arbitrator CONTRACT_OWNER contract_principal).
Local Abbreviation remove_arbitrator :=
  (remove_arbitrator CONTRACT_OWNER contract_principal).
Local Abbreviation set_arbitrator_reward := (set_arbitrator_reward CONTRACT_OWNER).

(** The tallies after counting one more vote. *)
Lemma vote_on_dispute_unfold t id vote s :
  vote_on_dispute t id vote s =
  match Disputes s !! id with
  | None => Return (err ERR_DISPUTE_NOT_FOUND) s
  | Some d =>
    if is_valid_dispute_id id s then
      if is_arbitrator (tx_sender t) s then
        if is_eq (status d) "open" then
          match uint_sub (block_height t) (created_at d) with
          | None => Fault ArithmeticUnderflow
          | Some elapsed =>
            if elapsed <=? VOTING_PERIOD then
              if has_voted id (tx_sender t) s then Return (err ERR_ALREADY_VOTED) s
              else
                match uint_add (if vote then votes_for d else votes_against d) 1 with
                | None => Fault ArithmeticOverflow
                | Some n =>
                    Next (ok true)
                      (set_ArbitratorVotes (insert (id, tx_sender t) vote)
                         (set_Disputes (insert id
                            (if vote then with_votes d n (votes_against d)
                             else with_votes d (votes_for d) n)) s))
                end
            else Return (err ERR_VOTING_CLOSED) s
          end
        else Return (err ERR_VOTING_CLOSED) s
      else Return (err ERR_NOT_ARBITRATOR) s
    else Return (err ERR_INVALID_DISPUTE_ID) s
  end.
Proof.
  unfold vote_on_dispute, update_vote_count, Clarity.call, Clarity.try, bind, gets, asserts, unwrap,
    modify, pure, add, sub.
  destruct (Disputes s !! id) as [d|] eqn:Hd; [|done].
  destruct (is_valid_dispute_id id s); [|done].
  destruct (is_arbitrator (tx_sender t) s); [|done].
  destruct (is_eq (status d) "open"); [|done].
  destruct (uint_sub (block_height t) (created_at d)); [|done].
  destruct (_ <=? VOTING_PERIOD); [|done].
  destruct (has_voted id (tx_sender t) s); [done|]. cbn [negb].
  rewrite Hd. destruct vote; destruct (uint_add _ 1); done.
Qed.

Lemma resolve_dispute_unfold t id s :
  resolve_dispute t id s =
  match Disputes s !! id with
  | None => Return (err ERR_DISPUTE_NOT_FOUND) s
  | Some d =>
    if is_valid_dispute_id id s then
      if is_eq (status d) "open" then
        match uint_add (votes_for d) (votes_against d) with
        | None => Fault ArithmeticOverflow
        | Some total =>
          if MIN_VOTES_REQUIRED <=? total then
            match uint_sub (block_height t) (created_at d) with
            | None => Fault ArithmeticUnderflow
            | Some elapsed =>
              if elapsed <=? VOTING_PERIOD then
                let resolution := if votes_against d <? votes_for d
                                  then "for_initiator" else "for_counterparty" in
                Next (ok resolution)
                  (set_Disputes (insert id
                     (with_resolution d "resolved" (Some resolution))) s)
              else Return (err ERR_VOTING_CLOSED) s
            end
          else Return (err ERR_INSUFFICIENT_VOTES) s
        end
      else Return (err ERR_INVALID_STATE) s
    else Return (err ERR_INVALID_DISPUTE_ID) s
  end.
Proof.
  unfold resolve_dispute, bind, gets, asserts, unwrap, modify, pure, add, sub.
  follow_tests.
Qed.

Lemma raise_dispute_unfold t escrow counterparty reason s :
  raise_dispute t escrow counterparty reason s =
  match uint_add (last_dispute_id s) 1 with
  | None => Fault ArithmeticOverflow
  | Some dispute_id =>
    if is_valid_escrow_id escrow then
      if is_valid_reason reason then
        if negb (is_eq (tx_sender t) counterparty) then
          Next (ok dispute_id)
            (set_last_dispute_id dispute_id
               (set_Disputes (insert dispute_id
                  {| escrow_id := escrow; initiator := tx_sender t;
                     counterparty := counterparty; reason := reason;
                     status := "open"; created_at := block_height t;
                     votes_for := 0; votes_against := 0; resolution := None |}) s))
        else Return (err ERR_NOT_INVOLVED_PARTY) s
      else Return (err ERR_INVALID_REASON) s
    else Return (err ERR_INVALID_ESCROW_ID) s
  end.
Proof.
  unfold raise_dispute, bind, gets, asserts, unwrap, modify, pure, add.
  follow_tests.
Qed.

Lemma add_arbitrator_unfold t arbitrator s :
  add_arbitrator t arbitrator s =
  if is_eq (tx_sender t) CONTRACT_OWNER then
    if is_valid_principal CONTRACT_OWNER contract_principal arbitrator then
      Next (ok true) (set_Arbitrators (insert arbitrator true) s)
    else Return (err ERR_INVALID_PRINCIPAL) s
  else Return (err ERR_NOT_AUTHORIZED) s.
Proof.
  unfold DisputeResolution.add_arbitrator, bind, asserts, modify, pure.
  follow_tests.
Qed.

Lemma remove_arbitrator_unfold t arbitrator s :
  remove_arbitrator t arbitrator s =
  if is_eq (tx_sender t) CONTRACT_OWNER then
    if is_valid_principal CONTRACT_OWNER contract_principal arbitrator then
      Next (ok true) (set_Arbitrators (delete arbitrator) s)
    else Return (err ERR_INVALID_PRINCIPAL) s
  else Return (err ERR_NOT_AUTHORIZED) s.
Proof.
  unfold DisputeResolution.remove_arbitrator, bind, asserts, modify, pure.
  follow_tests.
Qed.

Lemma set_arbitrator_reward_unfold t new_reward s :
  set_arbitrator_reward t new_reward s =
  if is_eq (tx_sender t) CONTRACT_OWNER then
    if 0 <? new_reward then Next (ok true) (set_arbitrator_reward_var new_reward s)
    else Return (err ERR_INVALID_REWARD) s
  else Return (err ERR_NOT_AUTHORIZED) s.
Proof.
  unfold DisputeResolution.set_arbitrator_reward, bind, asserts, modify, pure.
  follow_tests.
Qed.

(** *** What a transaction can do to the board's store *)

Lemma vote_on_dispute_ok t id vote s a s' :
  run_body (vote_on_dispute t id vote) s = (Answer (ok a), s') →
  a = true ∧ ∃ d n,
    Disputes s !! id = Some d ∧
    is_arbitrator (tx_sender t) s = true ∧
    status d = "open" ∧
    has_voted id (tx_sender t) s = false ∧
    n = (if vote then votes_for d else votes_against d) + 1 ∧
    s' = set_ArbitratorVotes (insert (id, tx_sender t) vote)
           (set_Disputes (insert id
              (if vote then with_votes d n (votes_against d)
               else with_votes d (votes_for d) n)) s).
Proof.
  unfold run_body. rewrite vote_on_dispute_unfold. intros H.
  repeat case_match; simplify_eq; reflect_bools.
  all: match goal with H : uint_add _ 1 = Some _ |- _ =>
         apply uint_add_Some in H; destruct H as [-> _] end.
  all: split; [done|]; eexists _, _; repeat split; eauto.
Qed.

Lemma resolve_dispute_ok t id s r s' :
  run_body (resolve_dispute t id) s = (Answer (ok r), s') →
  ∃ d,
    Disputes s !! id = Some d ∧
    status d = "open" ∧
    MIN_VOTES_REQUIRED ≤ votes_for d + votes_against d ∧
    r = (if votes_against d <? votes_for d
         then "for_initiator" else "for_counterparty") ∧
    s' = set_Disputes (insert id (with_resolution d "resolved" (Some r))) s.
Proof.
  unfold run_body. rewrite resolve_dispute_unfold. cbv zeta. intros H.
  destruct (Disputes s !! id) as [d|]; [|done].
  destruct (is_valid_dispute_id id s); [|done].
  destruct (is_eq (status d) "open") eqn:Hopen; [|done].
  destruct (uint_add _ _) as [total|] eqn:Htotal; [|done].
  destruct (MIN_VOTES_REQUIRED <=? total) eqn:Hmin; [|done].
  destruct (uint_sub _ _); [|done].
  destruct (_ <=? VOTING_PERIOD); [|done].
  apply uint_add_Some in Htotal as [-> _]. reflect_bools. simplify_eq.
  eexists; repeat split; eauto.
Qed.

Lemma raise_dispute_ok t escrow counterparty reason s id s' :
  run_body (raise_dispute t escrow counterparty reason) s = (Answer (ok id), s') →
  id = last_dispute_id s + 1 ∧
  s' = set_last_dispute_id id
         (set_Disputes (insert id
            {| escrow_id := escrow; initiator := tx_sender t;
               counterparty := counterparty; reason := reason;
               status := "open"; created_at := block_height t;
               votes_for := 0; votes_against := 0; resolution := None |}) s).
Proof.
  unfold run_body. rewrite raise_dispute_unfold. intros H.
  repeat case_match; simplify_eq.
  match goal with H : uint_add _ 1 = Some _ |- _ =>
    apply uint_add_Some in H; destruct H as [-> _] end.
  done.
Qed.

(** Every transaction leaves the store as it was, or opens a dispute under the
    next id, or counts one vote on an open dispute, or resolves an open
    dispute, or edits the arbitrator set or the reward. *)
Lemma board_exec_effect t c s :
  let s' := snd (exec t c s) in
  s' = s ∨
  (∃ d, s' = set_last_dispute_id (last_dispute_id s + 1)
               (set_Disputes (insert (last_dispute_id s + 1) d) s)) ∨
  (∃ id d d' vote,
     Disputes s !! id = Some d ∧ status d = "open" ∧
     has_voted id (tx_sender t) s = false ∧
     s' = set_ArbitratorVotes (insert (id, tx_sender t) vote)
            (set_Disputes (insert id d') s)) ∨
  (∃ id d d',
     Disputes s !! id = Some d ∧ status d = "open" ∧
     s' = set_Disputes (insert id d') s) ∨
  (Disputes s' = Disputes s ∧ ArbitratorVotes s' = ArbitratorVotes s ∧
   last_dispute_id s' = last_dispute_id s).
Proof.
  destruct c as [escrow cp reason|id vote|id|arb|arb|reward];
    unfold DisputeResolution.exec; cbv zeta.
  - destruct (call_public_cases (raise_dispute t escrow cp reason) s)
      as [(a & s' & Hbody & ->)|[_ Hsame]]; cbn [answer_value snd].
    + apply raise_dispute_ok in Hbody as [-> ->]. right; left. eauto.
    + left. destruct (call_public _ s) as [[r|r] s0]; simpl in *; by subst.
  - destruct (call_public_cases (vote_on_dispute t id vote) s)
      as [(a & s' & Hbody & ->)|[_ Hsame]]; cbn [answer_value snd].
    + apply vote_on_dispute_ok in Hbody
        as (_ & d & n & Hd & _ & Hopen & Hvoted & _ & ->).
      right; right; left. eauto 10.
    + left. destruct (call_public _ s) as [[r|r] s0]; simpl in *; by subst.
  - destruct (call_public_cases (resolve_dispute t id) s)
      as [(a & s' & Hbody & ->)|[_ Hsame]]; cbn [answer_value snd].
    + apply resolve_dispute_ok in Hbody as (d & Hd & Hopen & _ & _ & ->).
      right; right; right; left. eauto 10.
    + left. destruct (call_public _ s) as [[r|r] s0]; simpl in *; by subst.
  - destruct (call_public_cases (add_arbitrator t arb) s)
      as [(a & s' & Hbody & ->)|[_ Hsame]]; cbn [answer_value snd].
    + right; right; right; right. unfold run_body in Hbody.
      rewrite add_arbitrator_unfold in Hbody. by repeat case_match; simplify_eq.
    + left. destruct (call_public _ s) as [[r|r] s0]; simpl in *; by subst.
  - destruct (call_public_cases (remove_arbitrator t arb) s)
      as [(a & s' & Hbody & ->)|[_ Hsame]]; cbn [answer_value snd].
    + right; right; right; right. unfold run_body in Hbody.
      rewrite remove_arbitrator_unfold in Hbody. by repeat case_match; simplify_eq.
    + left. destruct (call_public _ s) as [[r|r] s0]; simpl in *; by subst.
  - destruct (call_public_cases (set_arbitrator_reward t reward) s)
      as [(a & s' & Hbody & ->)|[_ Hsame]]; cbn [answer_value snd].
    + right; right; right; right. unfold run_body in Hbody.
      rewrite set_arbitrator_reward_unfold in Hbody.
      by repeat case_match; simplify_eq.
    + left. destruct (call_public _ s) as [[r|r] s0]; simpl in *; by subst.
Qed.

Lemma board_ids_assigned_exec t c s :
  ids_assigned s → ids_assigned (snd (exec t c s)).
Proof.
  intros Hids.
  destruct (board_exec_effect t c s)
    as [->|[(d & ->)|[(id & d & d' & vote & Hd & _ & _ & ->)|
        [(id & d & d' & Hd & _ & ->)|(HD & _ & HL)]]]]; [done|..];
    intros k x; cbn [Disputes last_dispute_id set_Disputes set_last_dispute_id
                     set_ArbitratorVotes].
  - destruct (decide (k = last_dispute_id s + 1)) as [->|Hk]; [intros _; lia|].
    rewrite lookup_insert_ne by done. intros Hx%Hids. lia.
  - destruct (decide (k = id)) as [->|Hk]; [intros _; by apply (Hids id d)|].
    rewrite lookup_insert_ne by done. apply Hids.
  - destruct (decide (k = id)) as [->|Hk]; [intros _; by apply (Hids id d)|].
    rewrite lookup_insert_ne by done. apply Hids.
  - rewrite HD, HL. apply Hids.
Qed.

Lemma board_reachable_ids_assigned s : reachable s → ids_assigned s.
Proof.
  induction 1 as [|s t c _ IH].
  - intros k d Hk. unfold initial in Hk. cbn [Disputes] in Hk.
    by rewrite lookup_empty in Hk.
  - by apply board_ids_assigned_exec.
Qed.

Lemma board_reachable_run txs s : reachable s → reachable (run txs s).
Proof.
  revert s. induction txs as [|[t c] txs IH]; intros s Hs; [done|].
  apply IH. by constructor.
Qed.

(** A dispute that is not ["open"] is never written again. *)
Lemma closed_dispute_kept_exec t c s id d :
  ids_assigned s → Disputes s !! id = Some d → status d ≠ "open" →
  Disputes (snd (exec t c s)) !! id = Some d.
Proof.
  intros Hids Hd Hclosed.
  destruct (board_exec_effect t c s)
    as [->|[(d0 & ->)|[(id' & d1 & d' & vote & Hd1 & Hopen & _ & ->)|
        [(id' & d1 & d' & Hd1 & Hopen & ->)|(HD & _ & HL)]]]]; [done|..];
    cbn [Disputes last_dispute_id set_Disputes set_last_dispute_id
         set_ArbitratorVotes].
  - rewrite lookup_insert_ne; [done|]. apply Hids in Hd. lia.
  - rewrite lookup_insert_ne; [done|]. intros ->. congruence.
  - rewrite lookup_insert_ne; [done|]. intros ->. congruence.
  - by rewrite HD.
Qed.

Lemma closed_dispute_kept_run txs s id d :
  ids_assigned s → Disputes s !! id = Some d → status d ≠ "open" →
  Disputes (run txs s) !! id = Some d.
Proof.
  revert s. induction txs as [|[t c] txs IH]; intros s Hids Hd Hclosed; [done|].
  apply IH; [by apply board_ids_assigned_exec|by apply closed_dispute_kept_exec|done].
Qed.



Lemma dispute_bodies_fail_clean t :
  (∀ escrow counterparty reason,
     fails_clean (raise_dispute t escrow counterparty reason)) ∧
  (∀ id vote, fails_clean (vote_on_dispute t id vote)) ∧
  (∀ id, fails_clean (resolve_dispute t id)) ∧
  (∀ arbitrator, fails_clean (add_arbitrator t arbitrator)) ∧
  (∀ arbitrator, fails_clean (remove_arbitrator t arbitrator)) ∧
  (∀ new_reward, fails_clean (set_arbitrator_reward t new_reward)).
Proof.
  repeat split; intros; intros s e s'; unfold run_body.
  - rewrite raise_dispute_unfold. intros H. by repeat case_match; simplify_eq.
  - rewrite vote_on_dispute_unfold. intros H. by repeat case_match; simplify_eq.
  - rewrite resolve_dispute_unfold. cbv zeta. intros H.
    by repeat case_match; simplify_eq.
  - rewrite add_arbitrator_unfold. intros H. by repeat case_match; simplify_eq.
  - rewrite remove_arbitrator_unfold. intros H. by repeat case_match; simplify_eq.
  - rewrite set_arbitrator_reward_unfold. intros H.
    by repeat case_match; simplify_eq.
Qed.

Lemma board_ids_assigned_valid s id d :
  ids_assigned s → Disputes s !! id = Some d → is_valid_dispute_id id s = true.
Proof. intros Hids Hd. apply N.leb_le. eauto. Qed.

(** C2. An open dispute with at least three votes, inside the voting window,
    is resolved: [resolve-dispute] succeeds, the stored dispute has status
    ["resolved"] and the answer as its resolution, with every other field as
    before, no other dispute and nothing else in the store is touched, and
    the answer is ["for_initiator"] exactly when [votes-for] exceeds
    [votes-against], and ["for_counterparty"] otherwise, ties included.  The
    sum of the tallies and the age of the dispute are computed in [uint],
    hence the two range premises. *)
Theorem resolve_dispute_majority t id s d :
  ids_assigned s →
  Disputes s !! id = Some d →
  status d = "open" →
  votes_for d + votes_against d ≤ UINT_MAX →
  3 ≤ votes_for d + votes_against d →
  created_at d ≤ block_height t →
  block_height t - created_at d ≤ 144 →
  ∃ r s' d',
    call_public (resolve_dispute t id) s = (Answer (ok r), s') ∧
    Disputes s' !! id = Some d' ∧
    status d' = "resolved" ∧
    resolution d' = Some r ∧
    d' = {| escrow_id := escrow_id d; initiator := initiator d;
            counterparty := counterparty d; reason := reason d;
            status := "resolved"; created_at := created_at d;
            votes_for := votes_for d; votes_against := votes_against d;
            resolution := Some r |} ∧
    (∀ k, k ≠ id → Disputes s' !! k = Disputes s !! k) ∧
    Arbitrators s' = Arbitrators s ∧
    ArbitratorVotes s' = ArbitratorVotes s ∧
    last_dispute_id s' = last_dispute_id s ∧
    arbitrator_reward s' = arbitrator_reward s ∧
    (r = "for_initiator" ↔ votes_against d < votes_for d) ∧
    (r = "for_counterparty" ↔ votes_for d ≤ votes_against d) ∧
    (votes_for d = votes_against d → r = "for_counterparty").
Proof.
  intros Hids Hd Hopen Hrange Hquorum Hafter Hwindow.
  unfold call_public, run_body. rewrite resolve_dispute_unfold, Hd.
  rewrite (board_ids_assigned_valid _ _ _ Hids Hd).
  unfold is_eq. rewrite (bool_decide_eq_true_2 _ Hopen).
  unfold uint_add, uint_sub, MIN_VOTES_REQUIRED, VOTING_PERIOD.
  rewrite (proj2 (N.leb_le _ _) Hrange), (proj2 (N.leb_le _ _) Hquorum),
    (proj2 (N.leb_le _ _) Hafter), (proj2 (N.leb_le _ _) Hwindow).
  cbv zeta. eexists _, _, _. split; [reflexivity|].
  cbn [Disputes Arbitrators ArbitratorVotes last_dispute_id arbitrator_reward
       set_Disputes].
  rewrite lookup_insert_eq. split; [reflexivity|].
  split; [reflexivity|]. split; [reflexivity|]. split; [reflexivity|].
  split; [by intros k Hk; rewrite lookup_insert_ne|].
  split; [done|]. split; [done|]. split; [done|]. split; [done|].
  destruct (N.ltb_spec (votes_against d) (votes_for d)).
  - repeat split; intros; first [done | lia].
  - repeat split; intros; first [done | lia].
Qed.

(** C10. In a reachable store an id above the last assigned one names no
    dispute, and the map lookup comes first in [vote-on-dispute] and
    [resolve-dispute]: both answer NotFound (101) for it, and no input at all
    makes either answer InvalidDisputeId (111). *)
Theorem invalid_dispute_id_unreachable s :
  reachable s →
  (∀ t id vote,
     last_dispute_id s < id →
     call_public (vote_on_dispute t id vote) s
       = (Answer (err ERR_DISPUTE_NOT_FOUND), s) ∧
     call_public (resolve_dispute t id) s
       = (Answer (err ERR_DISPUTE_NOT_FOUND), s)) ∧
  (∀ t id vote,
     fst (call_public (vote_on_dispute t id vote) s)
       ≠ Answer (err ERR_INVALID_DISPUTE_ID) ∧
     fst (call_public (resolve_dispute t id) s)
       ≠ Answer (err ERR_INVALID_DISPUTE_ID)) ∧
  ERR_DISPUTE_NOT_FOUND = err 101 ∧ ERR_INVALID_DISPUTE_ID = err 111.
Proof.
  intros Hids%board_reachable_ids_assigned. split; [|split; [|done]].
  - intros t id vote Hid.
    assert (Disputes s !! id = None) as Hnone.
    { destruct (Disputes s !! id) as [d|] eqn:Hd; [|done]. apply Hids in Hd. lia. }
    unfold call_public, run_body.
    by rewrite vote_on_dispute_unfold, resolve_dispute_unfold, Hnone.
  - intros t id vote.
    unfold call_public, run_body.
    rewrite vote_on_dispute_unfold, resolve_dispute_unfold.
    destruct (Disputes s !! id) as [d|] eqn:Hd; [|done].
    rewrite (board_ids_assigned_valid _ _ _ Hids Hd). cbv zeta.
    split; repeat case_match; simplify_eq; simpl; discriminate.
Qed.


End DisputeTheorems.

(** ** CoreMarketPlace *)

Section MarketTheorems.

Import CoreMarketPlace.

Variable contract_principal : principal.

Local Abbreviation purchase_listing := (purchase_listing contract_principal).
Local Abbreviation exec := (exec contract_principal).
Local Abbreviation reachable := (reachable contract_principal).
Local Abbreviation run := (run contract_principal).

Lemma create_listing_unfold t name description price duration s :
  create_listing t name description price duration s =
  match uint_add (last_listing_id s) 1 with
  | None => Fault ArithmeticOverflow
  | Some listing_id =>
    match uint_add (block_height t) duration with
    | None => Fault ArithmeticOverflow
    | Some expires =>
      if is_valid_price price then
        if is_valid_string name 64 then
          if is_valid_string description 256 then
            if is_valid_duration duration then
              Next (ok listing_id)
                (set_Listings (insert listing_id
                   {| seller := tx_sender t; name := name;
                      description := description; price := price;
                      status := "active"; created_at := block_height t;
                      expires_at := expires |})
                   (set_last_listing_id listing_id s))
            else Return (err ERR_INVALID_DURATION) (set_last_listing_id listing_id s)
          else Return (err ERR_INVALID_INPUT) (set_last_listing_id listing_id s)
        else Return (err ERR_INVALID_INPUT) (set_last_listing_id listing_id s)
      else Return (err ERR_INVALID_PRICE) (set_last_listing_id listing_id s)
    end
  end.
Proof.
  unfold create_listing, increment_listing_id, Clarity.call, bind, gets, asserts,
    modify, pure, add.
  follow_tests.
Qed.

Lemma update_listing_unfold t id new_price new_description s :
  update_listing t id new_price new_description s =
  if is_valid_listing_id id s then
    match Listings s !! id with
    | None => Return (err ERR_LISTING_NOT_FOUND) s
    | Some l =>
      if is_eq (seller l) (tx_sender t) then
        if is_eq (status l) "active" then
          if is_valid_price new_price then
            if is_valid_string new_description 256 then
              Next (ok true)
                (set_Listings (insert id
                   (with_price_description l new_price new_description)) s)
            else Return (err ERR_INVALID_INPUT) s
          else Return (err ERR_INVALID_PRICE) s
        else Return (err ERR_INVALID_STATUS) s
      else Return (err ERR_NOT_SELLER) s
    end
  else Return (err ERR_INVALID_LISTING_ID) s.
Proof.
  unfold update_listing, bind, gets, asserts, unwrap, modify, pure. follow_tests.
Qed.

Lemma cancel_listing_unfold t id s :
  cancel_listing t id s =
  if is_valid_listing_id id s then
    match Listings s !! id with
    | None => Return (err ERR_LISTING_NOT_FOUND) s
    | Some l =>
      if is_eq (seller l) (tx_sender t) then
        if is_eq (status l) "active" then
          Next (ok true) (set_Listings (insert id (with_status l "cancelled")) s)
        else Return (err ERR_INVALID_STATUS) s
      else Return (err ERR_NOT_SELLER) s
    end
  else Return (err ERR_INVALID_LISTING_ID) s.
Proof.
  unfold cancel_listing, bind, gets, asserts, unwrap, modify, pure. follow_tests.
Qed.

Lemma purchase_listing_unfold t id s :
  purchase_listing t id s =
  if is_valid_listing_id id s then
    match Listings s !! id with
    | None => Return (err ERR_LISTING_NOT_FOUND) s
    | Some l =>
      if is_eq (status l) "active" then
        if block_height t <=? expires_at l then
          if is_valid_seller contract_principal t (seller l) then
            match stx_transfer (tx_sender t) (price l) (tx_sender t) (seller l)
                    (stx s) with
            | ok ledger =>
                Next (ok true)
                  (set_Listings (insert id (with_status l "sold")) (set_stx ledger s))
            | err _ => Next (err ERR_INSUFFICIENT_BALANCE) s
            end
          else Return (err ERR_INVALID_SELLER) s
        else Return (err ERR_LISTING_EXPIRED) s
      else Return (err ERR_INVALID_STATUS) s
    end
  else Return (err ERR_INVALID_LISTING_ID) s.
Proof.
  unfold CoreMarketPlace.purchase_listing, bind, gets, asserts, unwrap,
    stx_transfer_as, modify, pure.
  follow_tests.
Qed.

(** Every transaction keeps the listings and the counter, or stores a listing
    under the next id, or rewrites a listing that was ["active"]. *)
Lemma market_exec_effect t c s :
  let s' := snd (exec t c s) in
  (Listings s' = Listings s ∧ last_listing_id s' = last_listing_id s) ∨
  (∃ l, Listings s' = <[last_listing_id s + 1 := l]> (Listings s) ∧
        last_listing_id s' = last_listing_id s + 1) ∨
  (∃ id l l',
     Listings s !! id = Some l ∧ status l = "active" ∧
     Listings s' = <[id := l']> (Listings s) ∧
     last_listing_id s' = last_listing_id s).
Proof.
  destruct c as [name description price duration|id new_price new_description|id|id];
    unfold CoreMarketPlace.exec; cbv zeta.
  - destruct (call_public_cases (create_listing t name description price duration) s)
      as [(a & s' & Hbody & ->)|[_ Hsame]]; cbn [answer_value snd].
    + right; left. unfold run_body in Hbody.
      rewrite create_listing_unfold in Hbody.
      repeat case_match; simplify_eq.
      match goal with H : uint_add _ 1 = Some _ |- _ =>
        apply uint_add_Some in H; destruct H as [-> _] end.
      eexists. split; reflexivity.
    + left. destruct (call_public _ s) as [[r|r] s0]; simpl in *; by subst.
  - destruct (call_public_cases (update_listing t id new_price new_description) s)
      as [(a & s' & Hbody & ->)|[_ Hsame]]; cbn [answer_value snd].
    + right; right. unfold run_body in Hbody.
      rewrite update_listing_unfold in Hbody.
      repeat case_match; simplify_eq; reflect_bools.
      eexists _, _, _. repeat split; eauto.
    + left. destruct (call_public _ s) as [[r|r] s0]; simpl in *; by subst.
  - destruct (call_public_cases (cancel_listing t id) s)
      as [(a & s' & Hbody & ->)|[_ Hsame]]; cbn [answer_value snd].
    + right; right. unfold run_body in Hbody.
      rewrite cancel_listing_unfold in Hbody.
      repeat case_match; simplify_eq; reflect_bools.
      eexists _, _, _. repeat split; eauto.
    + left. destruct (call_public _ s) as [[r|r] s0]; simpl in *; by subst.
  - destruct (call_public_cases (purchase_listing t id) s)
      as [(a & s' & Hbody & ->)|[_ Hsame]]; cbn [answer_value snd].
    + right; right. unfold run_body in Hbody.
      rewrite purchase_listing_unfold in Hbody.
      repeat case_match; simplify_eq; reflect_bools.
      eexists _, _, _. repeat split; eauto.
    + left. destruct (call_public _ s) as [[r|r] s0]; simpl in *; by subst.
Qed.

Lemma market_ids_assigned_exec t c s :
  ids_assigned s → ids_assigned (snd (exec t c s)).
Proof.
  intros Hids.
  destruct (market_exec_effect t c s)
    as [[HL Hlast]|[(l & HL & Hlast)|(id & l & l' & Hl & _ & HL & Hlast)]];
    intros k x; rewrite HL, Hlast.
  - apply Hids.
  - destruct (decide (k = last_listing_id s + 1)) as [->|Hk]; [intros _; lia|].
    rewrite lookup_insert_ne by done. intros Hx%Hids. lia.
  - destruct (decide (k = id)) as [->|Hk]; [intros _; by apply (Hids id l)|].
    rewrite lookup_insert_ne by done. apply Hids.
Qed.

Lemma market_reachable_ids_assigned s : reachable s → ids_assigned s.
Proof.
  induction 1 as [l|s t c _ IH].
  - intros k x Hk. unfold initial in Hk. cbn [Listings] in Hk.
    by rewrite lookup_empty in Hk.
  - by apply market_ids_assigned_exec.
Qed.

Lemma market_reachable_run txs s : reachable s → reachable (run txs s).
Proof.
  revert s. induction txs as [|[t c] txs IH]; intros s Hs; [done|].
  apply IH. by constructor.
Qed.

(** A listing that is not ["active"] is never written again. *)
Lemma closed_listing_kept_exec t c s id l :
  ids_assigned s → Listings s !! id = Some l → status l ≠ "active" →
  Listings (snd (exec t c s)) !! id = Some l.
Proof.
  intros Hids Hl Hclosed.
  destruct (market_exec_effect t c s)
    as [[HL _]|[(l0 & HL & _)|(id' & l1 & l' & Hl1 & Hactive & HL & _)]];
    rewrite HL.
  - done.
  - rewrite lookup_insert_ne; [done|]. apply Hids in Hl. lia.
  - rewrite lookup_insert_ne; [done|]. intros ->. congruence.
Qed.

Lemma closed_listing_kept_run txs s id l :
  ids_assigned s → Listings s !! id = Some l → status l ≠ "active" →
  Listings (run txs s) !! id = Some l.
Proof.
  revert s. induction txs as [|[t c] txs IH]; intros s Hids Hl Hclosed; [done|].
  apply IH; [by apply market_ids_assigned_exec|by apply closed_listing_kept_exec|done].
Qed.

Lemma purchase_closed_listing t id s l :
  ids_assigned s → Listings s !! id = Some l → status l ≠ "active" →
  call_public (purchase_listing t id) s = (Answer (err ERR_INVALID_STATUS), s).
Proof.
  intros Hids Hl Hclosed. unfold call_public, run_body.
  rewrite purchase_listing_unfold, Hl.
  replace (is_valid_listing_id id s) with true
    by (symmetry; apply N.leb_le; eauto).
  unfold is_eq. by rewrite (bool_decide_eq_false_2 _ Hclosed).
Qed.

Lemma market_bodies_fail_clean t :
  (∀ id new_price new_description,
     fails_clean (update_listing t id new_price new_description)) ∧
  (∀ id, fails_clean (cancel_listing t id)) ∧
  (∀ id, fails_clean (purchase_listing t id)).
Proof.
  repeat split; intros; intros s e s'; unfold run_body.
  - rewrite update_listing_unfold. intros H. by repeat case_match; simplify_eq.
  - rewrite cancel_listing_unfold. intros H. by repeat case_match; simplify_eq.
  - rewrite purchase_listing_unfold. intros H. by repeat case_match; simplify_eq.
Qed.

(** [create-listing] is the one body that writes before it checks: the id
    counter is advanced while the [let] bindings are evaluated, so a rejected
    listing leaves the body with the counter advanced.  The transaction
    answers [err], and the runtime discards that write. *)
Lemma create_listing_rejected_price t name description duration s :
  last_listing_id s < UINT_MAX →
  block_height t + duration ≤ UINT_MAX →
  run_body (create_listing t name description 0 duration) s
    = (Answer (err ERR_INVALID_PRICE),
       set_last_listing_id (last_listing_id s + 1) s) ∧
  call_public (create_listing t name description 0 duration) s
    = (Answer (err ERR_INVALID_PRICE), s).
Proof.
  intros Hlast Hheight. unfold call_public, run_body.
  rewrite create_listing_unfold. unfold uint_add.
  rewrite (proj2 (N.leb_le _ _)) by lia.
  rewrite (proj2 (N.leb_le _ _)) by lia. done.
Qed.

(** C9. [purchase-listing] makes a listing ["sold"] at most once: after a
    successful purchase, whatever transactions follow, the listing stays
    ["sold"] and every further purchase of it answers InvalidStatus (106), as
    does the purchase of a cancelled listing.  The status test comes before
    the expiry test: a listing that is still ["active"] but past [expires-at]
    answers Expired (105). *)
Theorem purchase_listing_sold_once s :
  reachable s →
  (∀ t id l,
     Listings s !! id = Some l →
     status l = "sold" ∨ status l = "cancelled" →
     call_public (purchase_listing t id) s = (Answer (err ERR_INVALID_STATUS), s)) ∧
  (∀ t id l,
     Listings s !! id = Some l →
     status l = "active" →
     expires_at l < block_height t →
     call_public (purchase_listing t id) s = (Answer (err ERR_LISTING_EXPIRED), s)) ∧
  (∀ t id a s1,
     call_public (purchase_listing t id) s = (Answer (ok a), s1) →
     ∃ l,
       Listings s !! id = Some l ∧ status l = "active" ∧
       ∀ txs t',
         let s2 := run txs s1 in
         Listings s2 !! id = Some (with_status l "sold") ∧
         call_public (purchase_listing t' id) s2
           = (Answer (err ERR_INVALID_STATUS), s2)) ∧
  ERR_INVALID_STATUS = err 106 ∧ ERR_LISTING_EXPIRED = err 105.
Proof.
  intros Hreach. pose proof (market_reachable_ids_assigned _ Hreach) as Hids.
  split; [|split; [|split; [|done]]].
  - intros t id l Hl Hst. apply (purchase_closed_listing _ _ _ l); try done.
    destruct Hst as [-> | ->]; discriminate.
  - intros t id l Hl Hactive Hexpired. unfold call_public, run_body.
    rewrite purchase_listing_unfold, Hl.
    replace (is_valid_listing_id id s) with true
      by (symmetry; apply N.leb_le; eauto).
    unfold is_eq. rewrite (bool_decide_eq_true_2 _ Hactive).
    by rewrite (proj2 (N.leb_gt _ _) Hexpired).
  - intros t id a s1 Hcall.
    assert (reachable s1) as Hreach1.
    { replace s1 with (snd (exec t (PurchaseListing id) s)); [by constructor|].
      unfold CoreMarketPlace.exec. by rewrite Hcall. }
    pose proof (market_reachable_ids_assigned _ Hreach1) as Hids1.
    apply call_public_ok in Hcall. unfold run_body in Hcall.
    rewrite purchase_listing_unfold in Hcall.
    repeat case_match; simplify_eq; reflect_bools.
    eexists. split; [done|]. split; [done|].
    intros txs t' s2.
    assert (Listings s2 !! id = Some (with_status l "sold")) as Hsold.
    { apply closed_listing_kept_run; [done| |discriminate].
      cbn [Listings set_Listings]. by rewrite lookup_insert_eq. }
    split; [done|].
    apply (purchase_closed_listing _ _ _ (with_status l "sold")); [|done|discriminate].
    apply market_reachable_ids_assigned. by apply market_reachable_run.
Qed.

End MarketTheorems.

(** ** The three contracts together *)

Section SystemTheorems.

Variable escrow_owner vault : principal.
Variable board_owner board : principal.
Variable market : principal.

(** C5. Terminal states are absorbing.  Along every sequence of transactions
    an escrow that is ["released"] or ["refunded"] keeps its record, and a
    dispute that is ["resolved"] keeps its record: status, tallies and
    resolution. *)
Theorem terminal_states_absorbing :
  (∀ s id e txs,
     EscrowService.reachable escrow_owner vault s →
     EscrowService.Escrows s !! id = Some e →
     EscrowService.state e = "released" ∨ EscrowService.state e = "refunded" →
     EscrowService.Escrows (EscrowService.run escrow_owner vault txs s) !! id
       = Some e) ∧
  (∀ s id d txs,
     DisputeResolution.reachable board_owner board s →
     DisputeResolution.Disputes s !! id = Some d →
     DisputeResolution.status d = "resolved" →
     DisputeResolution.Disputes (DisputeResolution.run board_owner board txs s) !! id
       = Some d).
Proof.
  split.
  - intros s id e txs Hs He Hst. apply settled_escrow_kept_run; [done..|].
    destruct Hst as [-> | ->]; discriminate.
  - intros s id d txs Hs Hd Hst. apply closed_dispute_kept_run; [|done|].
    + by apply (board_reachable_ids_assigned board_owner board).
    + rewrite Hst. discriminate.
Qed.

Lemma answer_value_rolled_back {S A} (f : A → value)
    (body : clar S (response A error) (response A error)) s :
  (∀ v, fst (answer_value f (call_public body s)) ≠ Answer (VOk v)) →
  snd (answer_value f (call_public body s)) = s.
Proof.
  intros Hfail. destruct (call_public_cases body s)
    as [(a & s' & _ & Hcall)|[_ Hsame]].
  - rewrite Hcall in Hfail. by destruct (Hfail (f a)).
  - by destruct (call_public body s) as [[r|r] s0].
Qed.

(** C7. Every operation is atomic with respect to errors.  A transaction that
    does not answer [ok] leaves the whole store as it was, in each of the
    three contracts.  Apart from [create-listing] the bodies themselves have
    written nothing when they answer [err]; in particular [create-escrow]
    whose transfer fails answers TransferFailed with no record stored and
    the id counter not advanced. *)
Theorem errors_leave_store_unchanged :
  (∀ t c s,
     (∀ v, fst (EscrowService.exec escrow_owner vault t c s) ≠ Answer (VOk v)) →
     snd (EscrowService.exec escrow_owner vault t c s) = s) ∧
  (∀ t c s,
     (∀ v, fst (DisputeResolution.exec board_owner board t c s) ≠ Answer (VOk v)) →
     snd (DisputeResolution.exec board_owner board t c s) = s) ∧
  (∀ t c s,
     (∀ v, fst (CoreMarketPlace.exec market t c s) ≠ Answer (VOk v)) →
     snd (CoreMarketPlace.exec market t c s) = s) ∧
  (∀ t,
     (∀ seller amount, fails_clean (EscrowService.create_escrow vault t seller amount)) ∧
     (∀ id, fails_clean (EscrowService.release_funds escrow_owner vault t id)) ∧
     (∀ id, fails_clean (EscrowService.refund_buyer escrow_owner vault t id))) ∧
  (∀ t,
     (∀ escrow counterparty reason,
        fails_clean (DisputeResolution.raise_dispute t escrow counterparty reason)) ∧
     (∀ id vote, fails_clean (DisputeResolution.vote_on_dispute t id vote)) ∧
     (∀ id, fails_clean (DisputeResolution.resolve_dispute t id)) ∧
     (∀ arbitrator,
        fails_clean (DisputeResolution.add_arbitrator board_owner board t arbitrator)) ∧
     (∀ arbitrator,
        fails_clean (DisputeResolution.remove_arbitrator board_owner board t arbitrator)) ∧
     (∀ new_reward,
        fails_clean (DisputeResolution.set_arbitrator_reward board_owner t new_reward))) ∧
  (∀ t,
     (∀ id new_price new_description,
        fails_clean (CoreMarketPlace.update_listing t id new_price new_description)) ∧
     (∀ id, fails_clean (CoreMarketPlace.cancel_listing t id)) ∧
     (∀ id, fails_clean (CoreMarketPlace.purchase_listing market t id))) ∧
  (∀ t seller amount s code,
     EscrowService.last_escrow_id s < UINT_MAX →
     block_height t + EscrowService.ESCROW_DURATION ≤ UINT_MAX →
     0 < amount →
     seller ≠ tx_sender t → seller ≠ vault →
     stx_transfer (tx_sender t) amount (tx_sender t) vault (EscrowService.stx s)
       = err code →
     run_body (EscrowService.create_escrow vault t seller amount) s
       = (Answer (err EscrowService.ERR_TRANSFER_FAILED), s)).
Proof.
  split; [|split; [|split; [|split; [|split; [|split]]]]].
  - intros t [] s; apply answer_value_rolled_back.
  - intros t [] s; apply answer_value_rolled_back.
  - intros t [] s; apply answer_value_rolled_back.
  - apply escrow_bodies_fail_clean.
  - apply dispute_bodies_fail_clean.
  - apply market_bodies_fail_clean.
  - apply create_escrow_transfer_failed.
Qed.

End SystemTheorems.

(** *** Worked examples for the escrow vault *)

Import Scenario.

Lemma escrow_opened_reachable : EscrowService.reachable deployer vault escrow_opened.
Proof.
  apply EscrowService.reachable_exec, EscrowService.reachable_initial.
  reflexivity.
Defined.

Lemma escrow_opened_funded : EscrowLedger.funded deployer vault 0 escrow_opened.
Proof. exact (reachable_funded deployer vault _ escrow_opened_reachable). Defined.

Lemma escrow_opened_lookup :
  EscrowService.Escrows escrow_opened !! 1 = Some escrow_1.
Proof. vm_compute. reflexivity. Defined.

(** Nothing was paid to the vault besides the escrow of 500: the vault holds
    500, the locked sum is 500, and after the buyer's release at height 20
    the escrow is ["released"] and the vault is empty. *)
Lemma vault_balance_is_locked_total_plus_paid_witness :
  EscrowLedger.funded deployer vault 0 escrow_opened ∧
  EscrowService.vault_balance vault escrow_opened = 500 ∧
  EscrowService.locked_total (EscrowService.Escrows escrow_opened) = 500 ∧
  ∃ s' e',
    call_public (EscrowService.release_funds deployer vault
                   (at_height wallet_2 20) 1) escrow_opened
      = (Answer (ok true), s') ∧
    EscrowService.Escrows s' !! 1 = Some e' ∧
    EscrowService.state e' = "released" ∧
    EscrowService.vault_balance vault s' = 0.
Proof.
  pose proof (vault_balance_is_locked_total_plus_paid deployer vault 0
                escrow_opened escrow_opened_funded)
    as (Hbalance & _ & _ & _ & _ & _ & Hrelease & _).
  assert (EscrowService.vault_balance vault escrow_opened = 500) as Hvault.
  { vm_compute. reflexivity. }
  split; [exact escrow_opened_funded|]. split; [exact Hvault|].
  split; [rewrite Hvault in Hbalance; lia|].
  destruct (Hrelease (at_height wallet_2 20) 1 escrow_1 escrow_opened_lookup)
    as (s' & e' & Hcall & He' & Hstate & _ & _ & _ & Hpaid).
  - reflexivity.
  - left. reflexivity.
  - vm_compute. discriminate.
  - exists s', e'. split; [exact Hcall|]. split; [exact He'|].
    split; [exact Hstate|].
    rewrite Hvault in Hpaid. change (EscrowService.amount escrow_1) with 500 in Hpaid.
    lia.
Defined.

(** The same escrow on a ledger where the vault's address held 5 before: the
    vault holds 505 against a locked sum of 500. *)
Lemma vault_balance_exceeds_locked_total_counterexample :
  EscrowLedger.funded deployer vault 5 escrow_prefunded ∧
  EscrowService.vault_balance vault escrow_prefunded = 505 ∧
  EscrowService.locked_total (EscrowService.Escrows escrow_prefunded) = 500 ∧
  EscrowService.vault_balance vault escrow_prefunded
    ≠ EscrowService.locked_total (EscrowService.Escrows escrow_prefunded).
Proof.
  assert (EscrowService.vault_balance vault escrow_prefunded = 505) as Hvault.
  { vm_compute. reflexivity. }
  assert (EscrowService.locked_total (EscrowService.Escrows escrow_prefunded) = 500)
    as Hlocked.
  { vm_compute. reflexivity. }
  split; [|split; [exact Hvault|split; [exact Hlocked|]]].
  - replace 5 with (stx_balance prefunded vault) by (vm_compute; reflexivity).
    apply EscrowLedger.funded_exec, EscrowLedger.funded_initial.
  - rewrite Hvault, Hlocked. discriminate.
Qed.

Lemma escrow_opened_ids_assigned : EscrowService.ids_assigned escrow_opened.
Proof.
  exact (proj1 (reachable_vault_invariant deployer vault escrow_opened
                  escrow_opened_reachable)).
Defined.

Lemma escrow_opened_payable (to : principal) :
  vault ≠ to →
  ∃ l, stx_transfer vault 500 vault to (EscrowService.stx escrow_opened) = ok l.
Proof.
  intros Hne. apply stx_transfer_succeeds; [reflexivity|exact Hne|reflexivity|].
  vm_compute. discriminate.
Defined.

Lemma release_funds_succeeds_iff_witness :
  EscrowService.ids_assigned escrow_opened ∧
  ∃ s' e',
    call_public (EscrowService.release_funds deployer vault
                   (at_height wallet_2 20) 1) escrow_opened
      = (Answer (ok true), s') ∧
    EscrowService.Escrows s' !! 1 = Some e' ∧
    EscrowService.state e' = "released" ∧
    EscrowService.amount e' = 500 ∧
    EscrowService.seller e' = wallet_1.
Proof.
  split; [exact escrow_opened_ids_assigned|].
  destruct (escrow_opened_payable wallet_1) as [l Hl]; [discriminate|].
  pose proof (release_funds_succeeds_iff deployer vault (at_height wallet_2 20) 1
                escrow_opened escrow_opened_ids_assigned) as Hrelease.
  cbv zeta in Hrelease. destruct Hrelease as (Hiff & Heffect & _).
  set (s' := {| EscrowService.Escrows :=
                  <[1 := {| EscrowService.buyer := wallet_2;
                            EscrowService.seller := wallet_1;
                            EscrowService.amount := 500;
                            EscrowService.state := "released";
                            EscrowService.created_at := 10;
                            EscrowService.expires_at := 1018 |}]>
                    (EscrowService.Escrows escrow_opened);
                EscrowService.last_escrow_id :=
                  EscrowService.last_escrow_id escrow_opened;
                EscrowService.stx := l |}).
  assert (call_public (EscrowService.release_funds deployer vault
                         (at_height wallet_2 20) 1) escrow_opened
          = (Answer (ok true), s')) as Hcall.
  { apply Hiff. split; [reflexivity|].
    exists escrow_1, l.
    split; [exact escrow_opened_lookup|].
    split; [left; reflexivity|].
    split; [reflexivity|].
    split; [vm_compute; discriminate|].
    split; [exact Hl|].
    reflexivity. }
  destruct (Heffect true s' Hcall)
    as (e & e' & He & _ & He' & Hstate & _ & Hseller & Hamount & _).
  assert (e = escrow_1) as ->.
  { pose proof escrow_opened_lookup as Hl1. congruence. }
  exists s', e'. split; [exact Hcall|]. split; [exact He'|].
  split; [exact Hstate|]. split; [exact Hamount|exact Hseller].
Defined.


(** [create-escrow] with a zero amount: the caller receives [(err (err u105))],
    whose error value is not a bare [uint]. *)
Lemma escrow_error_bare_code_counterexample :
  fst (EscrowService.exec deployer vault (at_height wallet_2 10)
         (EscrowService.CreateEscrow wallet_1 0) (EscrowService.initial funds))
    = Answer (VErr (VErr (VUInt 105))) ∧
  ¬ ∃ code,
      fst (EscrowService.exec deployer vault (at_height wallet_2 10)
             (EscrowService.CreateEscrow wallet_1 0) (EscrowService.initial funds))
        = Answer (VErr (VUInt code)).
Proof.
  split; [vm_compute; reflexivity|].
  intros [code H]. vm_compute in H. discriminate H.
Qed.

Lemma escrow_error_is_wrapped_code_witness :
  EscrowService.exec deployer vault (at_height wallet_2 10)
    (EscrowService.CreateEscrow wallet_1 0) (EscrowService.initial funds)
    = (Answer (VErr (VErr (VUInt 105))), EscrowService.initial funds) ∧
  ∃ code, VErr (VUInt 105) = VErr (VUInt code) ∧ 100 ≤ code ≤ 107.
Proof.
  assert (EscrowService.exec deployer vault (at_height wallet_2 10)
            (EscrowService.CreateEscrow wallet_1 0) (EscrowService.initial funds)
          = (Answer (VErr (VErr (VUInt 105))), EscrowService.initial funds)) as H.
  { apply (proj1 (proj2 (proj2 (escrow_error_is_wrapped_code deployer vault)))).
    - vm_compute. reflexivity.
    - vm_compute. discriminate. }
  split; [exact H|].
  exact (proj1 (escrow_error_is_wrapped_code deployer vault) _ _ _ _ _ H).
Defined.

Lemma escrow_released_lookup :
  EscrowService.Escrows escrow_released !! 1
    = Some (EscrowService.with_state escrow_1 "released").
Proof. vm_compute. reflexivity. Defined.

(** Escrow 1 has been released; a later refund attempt by the owner changes
    nothing. *)
Lemma terminal_states_absorbing_witness :
  EscrowService.reachable deployer vault escrow_released ∧
  EscrowService.Escrows escrow_released !! 1
    = Some (EscrowService.with_state escrow_1 "released") ∧
  EscrowService.Escrows
    (EscrowService.run deployer vault
       [(at_height deployer 30, EscrowService.RefundBuyer 1)] escrow_released) !! 1
    = Some (EscrowService.with_state escrow_1 "released").
Proof.
  assert (EscrowService.reachable deployer vault escrow_released) as Hreach.
  { apply EscrowService.reachable_exec. exact escrow_opened_reachable. }
  split; [exact Hreach|]. split; [exact escrow_released_lookup|].
  apply (proj1 (terminal_states_absorbing deployer vault deployer board)
           escrow_released 1 _ _ Hreach escrow_released_lookup).
  left. reflexivity.
Defined.

Lemma errors_leave_store_unchanged_witness :
  (∀ v, fst (EscrowService.exec deployer vault (at_height wallet_2 10)
               (EscrowService.CreateEscrow wallet_1 0) (EscrowService.initial funds))
        ≠ Answer (VOk v)) ∧
  snd (EscrowService.exec deployer vault (at_height wallet_2 10)
         (EscrowService.CreateEscrow wallet_1 0) (EscrowService.initial funds))
    = EscrowService.initial funds.
Proof.
  assert (∀ v, fst (EscrowService.exec deployer vault (at_height wallet_2 10)
               (EscrowService.CreateEscrow wallet_1 0) (EscrowService.initial funds))
        ≠ Answer (VOk v)) as Hfail.
  { intros v H. vm_compute in H. discriminate H. }
  split; [exact Hfail|].
  exact (proj1 (errors_leave_store_unchanged deployer vault deployer board market)
           _ _ _ Hfail).
Defined.

(** *** Worked examples for the arbitration board *)

Lemma dispute_raised_reachable :
  DisputeResolution.reachable deployer board dispute_raised.
Proof. apply board_reachable_run. constructor. Defined.

Lemma one_vote_reachable : DisputeResolution.reachable deployer board one_vote.
Proof. constructor. exact dispute_raised_reachable. Defined.

Lemma three_votes_reachable : DisputeResolution.reachable deployer board three_votes.
Proof. apply board_reachable_run. exact one_vote_reachable. Defined.

Lemma three_votes_lookup :
  DisputeResolution.Disputes three_votes !! 1 = Some dispute_1.
Proof. vm_compute. reflexivity. Defined.

(** Two votes for and one against: the dispute resolves for the initiator. *)
Lemma resolve_dispute_majority_witness :
  DisputeResolution.ids_assigned three_votes ∧
  DisputeResolution.Disputes three_votes !! 1 = Some dispute_1 ∧
  ∃ s' d',
    call_public (DisputeResolution.resolve_dispute (at_height wallet_1 9) 1)
      three_votes
      = (Answer (ok "for_initiator"), s') ∧
    DisputeResolution.Disputes s' !! 1 = Some d' ∧
    DisputeResolution.status d' = "resolved" ∧
    DisputeResolution.resolution d' = Some "for_initiator" ∧
    DisputeResolution.votes_for d' = 2 ∧
    DisputeResolution.votes_against d' = 1.
Proof.
  assert (DisputeResolution.ids_assigned three_votes) as Hids.
  { exact (board_reachable_ids_assigned deployer board _ three_votes_reachable). }
  split; [exact Hids|]. split; [exact three_votes_lookup|].
  destruct (resolve_dispute_majority (at_height wallet_1 9) 1 three_votes dispute_1
              Hids three_votes_lookup)
    as (r & s' & d' & Hcall & Hd' & Hstatus & Hres & Hrecord & _ & _ & _ & _ & _ &
        Hinitiator & _).
  - reflexivity.
  - vm_compute. discriminate.
  - vm_compute. discriminate.
  - vm_compute. discriminate.
  - vm_compute. discriminate.
  - assert (r = "for_initiator") as ->.
    { apply (proj2 Hinitiator). vm_compute. reflexivity. }
    exists s', d'. split; [exact Hcall|]. split; [exact Hd'|].
    split; [exact Hstatus|]. split; [exact Hres|].
    rewrite Hrecord. split; reflexivity.
Defined.

Lemma invalid_dispute_id_unreachable_witness :
  DisputeResolution.reachable deployer board three_votes ∧
  call_public (DisputeResolution.vote_on_dispute (at_height wallet_2 9) 2 true)
    three_votes
    = (Answer (err DisputeResolution.ERR_DISPUTE_NOT_FOUND), three_votes).
Proof.
  split; [exact three_votes_reachable|].
  apply (proj1 (invalid_dispute_id_unreachable deployer board three_votes
                  three_votes_reachable) (at_height wallet_2 9) 2 true).
  vm_compute. reflexivity.
Defined.



(** *** Worked examples for the listing registry *)

Lemma listed_reachable : CoreMarketPlace.reachable market listed.
Proof. constructor. constructor. Defined.

Lemma listed_lookup : CoreMarketPlace.Listings listed !! 1 = Some listing_1.
Proof. vm_compute. reflexivity. Defined.

(** The listing expires at height 15; a purchase at height 16 answers Expired. *)
Lemma purchase_listing_sold_once_witness :
  CoreMarketPlace.reachable market listed ∧
  call_public (CoreMarketPlace.purchase_listing market (at_height wallet_2 16) 1)
    listed
    = (Answer (err CoreMarketPlace.ERR_LISTING_EXPIRED), listed).
Proof.
  split; [exact listed_reachable|].
  apply (proj1 (proj2 (purchase_listing_sold_once market listed listed_reachable))
           (at_height wallet_2 16) 1 listing_1 listed_lookup).
  - reflexivity.
  - vm_compute. reflexivity.
Defined.

(** *** The scenarios of the written specification, run on the embedding *)

(** An escrow of 500 is opened and released by the buyer before it expires:
    the vault's balance goes from 500 back to 0 and the seller gains 500. *)
Example scenario_escrow_release :
  fst (EscrowService.exec deployer vault (at_height wallet_2 10)
         (EscrowService.CreateEscrow wallet_1 500) (EscrowService.initial funds))
    = Answer (VOk (VUInt 1)) ∧
  EscrowService.vault_balance vault escrow_opened = 500 ∧
  fst (EscrowService.exec deployer vault (at_height wallet_2 20)
         (EscrowService.ReleaseFunds 1) escrow_opened)
    = Answer (VOk (VBool true)) ∧
  EscrowService.vault_balance vault escrow_released = 0 ∧
  stx_balance (EscrowService.stx escrow_released) wallet_1
    = stx_balance funds wallet_1 + 500.
Proof. repeat split; vm_compute; reflexivity. Qed.

(** With one vote for and one against the dispute cannot be resolved; after
    a third vote, for the initiator, it resolves for the initiator. *)
Example scenario_dispute_quorum :
  fst (DisputeResolution.exec deployer board (at_height wallet_1 8)
         (DisputeResolution.ResolveDispute 1) two_votes)
    = Answer (VErr (VErr (VUInt 106))) ∧
  fst (DisputeResolution.exec deployer board (at_height wallet_1 9)
         (DisputeResolution.ResolveDispute 1) three_votes)
    = Answer (VOk (VAscii "for_initiator")).
Proof. repeat split; vm_compute; reflexivity. Qed.

(** A listing is bought by another principal and is then sold; a purchase
    six blocks after a listing of duration 5 was created answers Expired; a
    second purchase answers InvalidStatus; the seller's own purchase answers
    InvalidSeller. *)
Example scenario_listing_purchase :
  fst (CoreMarketPlace.exec market (at_height wallet_2 12)
         (CoreMarketPlace.PurchaseListing 1) listed)
    = Answer (VOk (VBool true)) ∧
  CoreMarketPlace.status <$> CoreMarketPlace.get_listing 1 purchased = Some "sold" ∧
  fst (CoreMarketPlace.exec market (at_height wallet_2 16)
         (CoreMarketPlace.PurchaseListing 1) listed)
    = Answer (VErr (VErr (VUInt 105))) ∧
  fst (CoreMarketPlace.exec market (at_height wallet_3 13)
         (CoreMarketPlace.PurchaseListing 1) purchased)
    = Answer (VErr (VErr (VUInt 106))) ∧
  fst (CoreMarketPlace.exec market (at_height wallet_1 12)
         (CoreMarketPlace.PurchaseListing 1) listed)
    = Answer (VErr (VErr (VUInt 103))).
Proof. repeat split; vm_compute; reflexivity. Qed.

(** * Further properties *)

(** ** EscrowService: creation, lookup and the life of a record *)

Section EscrowFurther.

Import EscrowService EscrowShape.

Variable CONTRACT_OWNER : principal.
Variable contract_principal : principal.

Local Abbreviation release_funds := (release_funds CONTRACT_OWNER contract_principal).
Local Abbreviation refund_buyer := (refund_buyer CONTRACT_OWNER contract_principal).
Local Abbreviation create_escrow := (create_escrow contract_principal).
Local Abbreviation exec := (exec CONTRACT_OWNER contract_principal).
Local Abbreviation reachable := (reachable CONTRACT_OWNER contract_principal).
Local Abbreviation run := (run CONTRACT_OWNER contract_principal).
Local Abbreviation vault_balance := (vault_balance contract_principal).

(** X1. [create-escrow] checks the amount, then the seller, then moves the
    funds: a zero amount answers InvalidAmount; a seller who is the caller or
    the vault answers InvalidSeller; a caller who cannot cover the amount
    answers TransferFailed; otherwise the escrow is stored under the next id,
    ["locked"], expiring 1008 blocks later, and that id is the answer.  When
    the id counter or the expiry height would leave [uint] the transaction
    aborts before any check. *)
Theorem create_escrow_succeeds_iff t seller amount s :
  let result := call_public (create_escrow t seller amount) s in
  (last_escrow_id s = UINT_MAX ∨ UINT_MAX < block_height t + ESCROW_DURATION →
   result = (Aborted ArithmeticOverflow, s)) ∧
  (last_escrow_id s < UINT_MAX → block_height t + ESCROW_DURATION ≤ UINT_MAX →
   (amount = 0 → result = (Answer (err ERR_INVALID_AMOUNT), s)) ∧
   (0 < amount → seller = tx_sender t ∨ seller = contract_principal →
    result = (Answer (err ERR_INVALID_SELLER), s)) ∧
   (0 < amount → seller ≠ tx_sender t → seller ≠ contract_principal →
    tx_sender t = contract_principal ∨ stx_balance (stx s) (tx_sender t) < amount →
    result = (Answer (err ERR_TRANSFER_FAILED), s)) ∧
   (0 < amount → seller ≠ tx_sender t → seller ≠ contract_principal →
    tx_sender t ≠ contract_principal → amount ≤ stx_balance (stx s) (tx_sender t) →
    ∃ l,
      stx_transfer (tx_sender t) amount (tx_sender t) contract_principal (stx s)
        = ok l ∧
      result =
        (Answer (ok (last_escrow_id s + 1)),
         {| Escrows :=
              <[last_escrow_id s + 1 :=
                  {| buyer := tx_sender t; seller := seller; amount := amount;
                     state := "locked"; created_at := block_height t;
                     expires_at := block_height t + ESCROW_DURATION |}]>
                (Escrows s);
            last_escrow_id := last_escrow_id s + 1;
            stx := l |}))).
Proof.
  cbv zeta. unfold call_public, run_body. rewrite create_escrow_unfold.
  unfold uint_add, is_valid_seller, is_eq. split.
  - intros [Hlast|Hheight].
    + rewrite (proj2 (N.leb_gt _ _)) by lia. done.
    + destruct (_ <=? UINT_MAX); [|done].
      rewrite (proj2 (N.leb_gt _ _)) by lia. done.
  - intros Hlast Hheight.
    rewrite (proj2 (N.leb_le _ _)) by lia.
    rewrite (proj2 (N.leb_le _ _)) by lia.
    split; [|split; [|split]].
    + intros ->. done.
    + intros Hpos Hseller. rewrite (proj2 (N.ltb_lt _ _) Hpos).
      destruct Hseller as [-> | ->].
      * by rewrite bool_decide_eq_true_2.
      * rewrite (bool_decide_eq_true_2 (contract_principal = contract_principal))
          by done.
        by rewrite andb_false_r.
    + intros Hpos Hs Hv Hfail. rewrite (proj2 (N.ltb_lt _ _) Hpos).
      rewrite !bool_decide_eq_false_2 by done. cbn [negb andb].
      destruct (stx_transfer _ _ _ _ _) as [l|code] eqn:Htr; [|done].
      apply stx_transfer_ok in Htr as (_ & Hne & _ & Hbal & _).
      destruct Hfail; [congruence|lia].
    + intros Hpos Hs Hv Hne Hbal. rewrite (proj2 (N.ltb_lt _ _) Hpos).
      rewrite !bool_decide_eq_false_2 by done. cbn [negb andb].
      destruct (stx_transfer_succeeds (tx_sender t) amount (tx_sender t)
                  contract_principal (stx s)) as [l Htr]; [done..|].
      exists l. split; [done|]. by rewrite Htr.
Qed.

(** Every transaction leaves the store as it was, or stores a fresh locked
    record under the next id, or takes one locked record to ["released"] or
    ["refunded"] while paying its amount out of the vault. *)
Lemma escrow_exec_detail t c s :
  let s' := snd (exec t c s) in
  s' = s ∨
  (∃ seller amount l,
     last_escrow_id s < UINT_MAX ∧
     block_height t + ESCROW_DURATION ≤ UINT_MAX ∧
     stx_transfer (tx_sender t) amount (tx_sender t) contract_principal (stx s)
       = ok l ∧
     s' = {| Escrows :=
               <[last_escrow_id s + 1 :=
                   {| buyer := tx_sender t; seller := seller; amount := amount;
                      state := "locked"; created_at := block_height t;
                      expires_at := block_height t + ESCROW_DURATION |}]>
                 (Escrows s);
             last_escrow_id := last_escrow_id s + 1; stx := l |}) ∨
  (∃ id e st to l,
     Escrows s !! id = Some e ∧ state e = "locked" ∧
     (st = "released" ∧ to = seller e ∨ st = "refunded" ∧ to = buyer e) ∧
     stx_transfer contract_principal (amount e) contract_principal to (stx s)
       = ok l ∧
     s' = {| Escrows := <[id := with_state e st]> (Escrows s);
             last_escrow_id := last_escrow_id s; stx := l |}).
Proof.
  destruct c as [seller amount|id|id]; unfold EscrowService.exec; cbv zeta.
  - destruct (call_public_cases (create_escrow t seller amount) s)
      as [(a & s' & Hbody & ->)|[_ Hsame]]; cbn [answer_value snd].
    + right; left. unfold run_body in Hbody.
      rewrite create_escrow_unfold in Hbody.
      repeat case_match; simplify_eq.
      repeat match goal with H : uint_add _ _ = Some _ |- _ =>
        apply uint_add_Some in H; destruct H as [-> ?] end.
      eexists _, _, _. repeat split; try done; lia.
    + left. destruct (call_public _ s) as [[r|r] s0]; simpl in *; by subst.
  - destruct (call_public_cases (release_funds t id) s)
      as [(a & s' & Hbody & ->)|[_ Hsame]]; cbn [answer_value snd].
    + apply release_funds_ok in Hbody as (_ & e & l & He & _ & Hst & _ & Htr & ->).
      right; right. exists id, e, "released", (seller e), l. eauto 10.
    + left. destruct (call_public _ s) as [[r|r] s0]; simpl in *; by subst.
  - destruct (call_public_cases (refund_buyer t id) s)
      as [(a & s' & Hbody & ->)|[_ Hsame]]; cbn [answer_value snd].
    + apply refund_buyer_ok in Hbody as (_ & e & l & He & _ & Hst & Htr & ->).
      right; right. exists id, e, "refunded", (buyer e), l. eauto 10.
    + left. destruct (call_public _ s) as [[r|r] s0]; simpl in *; by subst.
Qed.

Lemma ids_dense_exec t c s :
  ids_dense s → ids_dense (snd (exec t c s)).
Proof.
  intros Hdense.
  destruct (escrow_exec_detail t c s)
    as [->|[(seller & amount & l & _ & _ & _ & ->)|
            (id & e & st & to & l & He & _ & _ & _ & ->)]]; [done|..];
    intros k; cbn [Escrows last_escrow_id].
  - destruct (decide (k = last_escrow_id s + 1)) as [->|Hk].
    + rewrite lookup_insert_eq. split; [lia|eauto].
    + rewrite lookup_insert_ne by done. rewrite (Hdense k). lia.
  - destruct (decide (k = id)) as [->|Hk].
    + rewrite lookup_insert_eq. split; [|eauto].
      intros _. apply Hdense. eauto.
    + rewrite lookup_insert_ne by done. apply Hdense.
Qed.

Lemma size_counts_exec t c s :
  ids_assigned s →
  last_escrow_id s = N.of_nat (size (Escrows s)) →
  last_escrow_id (snd (exec t c s)) = N.of_nat (size (Escrows (snd (exec t c s)))).
Proof.
  intros Hids Hsize.
  destruct (escrow_exec_detail t c s)
    as [->|[(seller & amount & l & _ & _ & _ & ->)|
            (id & e & st & to & l & He & _ & _ & _ & ->)]]; [done|..];
    cbn [Escrows last_escrow_id].
  - rewrite map_size_insert_None; [lia|].
    destruct (Escrows s !! (last_escrow_id s + 1)) as [e|] eqn:He; [|done].
    apply Hids in He. lia.
  - by rewrite map_size_insert_Some by eauto.
Qed.

Lemma reachable_ids_dense s :
  reachable s → ids_dense s ∧ last_escrow_id s = N.of_nat (size (Escrows s)).
Proof.
  induction 1 as [l Hl|s t c Hs [IH1 IH2]].
  - split.
    + intros k. unfold initial. cbn [Escrows last_escrow_id].
      rewrite lookup_empty. split; [by intros []|lia].
    + unfold initial. cbn [Escrows last_escrow_id]. by rewrite map_size_empty.
  - split; [by apply ids_dense_exec|].
    apply size_counts_exec; [|done].
    by apply (reachable_vault_invariant CONTRACT_OWNER contract_principal).
Qed.

Lemma evolves_refl e : evolves e e.
Proof. unfold evolves. tauto. Qed.

Lemma evolves_trans e1 e2 e3 : evolves e1 e2 → evolves e2 e3 → evolves e1 e3.
Proof.
  unfold evolves.
  intros (-> & -> & -> & -> & -> & H12) (-> & -> & -> & -> & -> & H23).
  repeat split; try done.
  destruct H12 as [<-|[Hl H12]]; [done|].
  destruct H23 as [->|[Hl' H23]]; [tauto|].
  destruct H12 as [H12|H12]; rewrite H12 in Hl'; discriminate.
Qed.

Lemma evolves_exec t c s id e :
  ids_assigned s → Escrows s !! id = Some e →
  ∃ e', Escrows (snd (exec t c s)) !! id = Some e' ∧ evolves e e'.
Proof.
  intros Hids He.
  destruct (escrow_exec_detail t c s)
    as [->|[(seller & amount & l & _ & _ & _ & ->)|
            (id' & e0 & st & to & l & He0 & Hlocked & Hst & _ & ->)]];
    cbn [Escrows].
  - eauto using evolves_refl.
  - exists e. split; [|apply evolves_refl].
    rewrite lookup_insert_ne; [done|]. apply Hids in He. lia.
  - destruct (decide (id' = id)) as [->|Hne].
    + rewrite lookup_insert_eq. simplify_eq. eexists. split; [done|].
      unfold evolves. cbn. repeat split; try done. right. split; [done|].
      destruct Hst as [[-> _]|[-> _]]; tauto.
    + rewrite lookup_insert_ne by done. eauto using evolves_refl.
Qed.

(** X2. Once stored, an escrow record only ever changes its state, and the
    state only ever leaves ["locked"], for ["released"] or ["refunded"]:
    along every sequence of transactions the buyer, seller, amount and both
    block heights of every escrow stay what [create-escrow] wrote. *)
Theorem escrow_record_evolves s id e txs :
  reachable s →
  Escrows s !! id = Some e →
  ∃ e', Escrows (run txs s) !! id = Some e' ∧ evolves e e'.
Proof.
  revert s e. induction txs as [|[t c] txs IH]; intros s e Hs He.
  - eauto using evolves_refl.
  - destruct (evolves_exec t c s id e) as (e1 & He1 & Hev1); [|done|].
    { by apply (reachable_vault_invariant CONTRACT_OWNER contract_principal). }
    destruct (IH (snd (exec t c s)) e1) as (e' & He' & Hev'); [by constructor|done|].
    exists e'. split; [done|]. by apply (evolves_trans e e1 e').
Qed.

Lemma record_ok_exec t c s :
  (∀ k e, Escrows s !! k = Some e → record_ok e) →
  ∀ k e, Escrows (snd (exec t c s)) !! k = Some e → record_ok e.
Proof.
  intros Hok k e.
  destruct (escrow_exec_detail t c s)
    as [->|[(seller & amount & l & _ & Hheight & _ & ->)|
            (id' & e0 & st & to & l & He0 & Hlocked & Hst & _ & ->)]];
    cbn [Escrows].
  - apply Hok.
  - destruct (decide (k = last_escrow_id s + 1)) as [->|Hk].
    + rewrite lookup_insert_eq. intros [= <-]. unfold record_ok. cbn. tauto.
    + rewrite lookup_insert_ne by done. apply Hok.
  - destruct (decide (k = id')) as [->|Hk].
    + rewrite lookup_insert_eq. intros [= <-].
      destruct (Hok _ _ He0) as (_ & ? & ?). unfold record_ok. cbn.
      split; [|done]. destruct Hst as [[-> _]|[-> _]]; tauto.
    + rewrite lookup_insert_ne by done. apply Hok.
Qed.

(** X3. In a reachable store the escrow ids are exactly [1 .. last-escrow-id]
    and the counter is the number of escrows ever created.  [get-escrow]
    therefore answers the stored record for every id in that range, NotFound
    for id 0 (which is not above the counter) and InvalidEscrowId for every id
    above the counter.  Every stored escrow is ["locked"], ["released"] or
    ["refunded"], expires exactly 1008 blocks after it was created, holds a
    positive amount, and has a buyer and a seller that differ from each other
    and from the vault. *)
Theorem escrow_store_shape s :
  reachable s →
  last_escrow_id s = N.of_nat (size (Escrows s)) ∧
  (∀ id, 1 ≤ id ≤ last_escrow_id s →
     ∃ e, Escrows s !! id = Some e ∧
          call_read_only (get_escrow id) s = Answer (ok e)) ∧
  call_read_only (get_escrow 0) s = Answer (err ERR_ESCROW_NOT_FOUND) ∧
  (∀ id, last_escrow_id s < id →
     call_read_only (get_escrow id) s = Answer (err ERR_INVALID_ESCROW_ID)) ∧
  call_read_only get_last_escrow_id s = Answer (ok (last_escrow_id s)) ∧
  (∀ k e, Escrows s !! k = Some e →
     record_ok e ∧ well_formed contract_principal e).
Proof.
  intros Hs. destruct (reachable_ids_dense s Hs) as [Hdense Hsize].
  split; [done|].
  unfold call_read_only. split; [|split; [|split; [|split]]].
  - intros id Hid. destruct (proj2 (Hdense id) Hid) as [e He].
    exists e. split; [done|]. rewrite get_escrow_unfold, He.
    unfold is_valid_escrow_id. by rewrite (proj2 (N.leb_le _ _)) by lia.
  - rewrite get_escrow_unfold. unfold is_valid_escrow_id.
    rewrite (proj2 (N.leb_le _ _)) by lia.
    destruct (Escrows s !! 0) as [e|] eqn:He; [|done].
    assert (1 ≤ 0) by (apply Hdense; eauto). lia.
  - intros id Hid. rewrite get_escrow_unfold. unfold is_valid_escrow_id.
    by rewrite (proj2 (N.leb_gt _ _)) by lia.
  - reflexivity.
  - intros k e He. split.
    + revert k e He. induction Hs as [l Hl|s t c Hs IH].
      * intros k e He. unfold initial in He. cbn [Escrows] in He.
        by rewrite lookup_empty in He.
      * apply record_ok_exec. apply IH; by apply reachable_ids_dense.
    + destruct (reachable_vault_invariant CONTRACT_OWNER contract_principal s Hs)
        as (_ & Hwf & _).
      by apply (Hwf k e).
Qed.

(** X4. A successful [release-funds] moves exactly the escrow's amount from
    the vault to the seller, and a successful [refund-buyer] moves it from the
    vault to the buyer; no other balance changes. *)
Theorem settlement_pays_one_party t id s :
  (∀ a s',
     call_public (release_funds t id) s = (Answer (ok a), s') →
     ∃ e,
       Escrows s !! id = Some e ∧ seller e ≠ contract_principal ∧
       stx_balance (stx s') (seller e) = stx_balance (stx s) (seller e) + amount e ∧
       vault_balance s' + amount e = vault_balance s ∧
       ∀ p, p ≠ seller e → p ≠ contract_principal →
            stx_balance (stx s') p = stx_balance (stx s) p) ∧
  (∀ a s',
     call_public (refund_buyer t id) s = (Answer (ok a), s') →
     ∃ e,
       Escrows s !! id = Some e ∧ buyer e ≠ contract_principal ∧
       stx_balance (stx s') (buyer e) = stx_balance (stx s) (buyer e) + amount e ∧
       vault_balance s' + amount e = vault_balance s ∧
       ∀ p, p ≠ buyer e → p ≠ contract_principal →
            stx_balance (stx s') p = stx_balance (stx s) p).
Proof.
  split; intros a s' Hcall%call_public_ok.
  - apply release_funds_ok in Hcall as (_ & e & l & He & _ & _ & _ & Htr & ->).
    pose proof (stx_transfer_ok _ _ _ _ _ _ Htr) as (_ & Hne & _ & _ & _).
    exists e. unfold EscrowService.vault_balance. cbn [stx].
    split; [done|]. split; [congruence|].
    split; [apply (stx_balance_credited _ _ _ _ _ _ Htr)|].
    split; [apply (stx_balance_debited _ _ _ _ _ _ Htr)|].
    intros p Hp Hv. by apply (stx_balance_untouched _ _ _ _ _ _ _ Htr).
  - apply refund_buyer_ok in Hcall as (_ & e & l & He & _ & _ & Htr & ->).
    pose proof (stx_transfer_ok _ _ _ _ _ _ Htr) as (_ & Hne & _ & _ & _).
    exists e. unfold EscrowService.vault_balance. cbn [stx].
    split; [done|]. split; [congruence|].
    split; [apply (stx_balance_credited _ _ _ _ _ _ Htr)|].
    split; [apply (stx_balance_debited _ _ _ _ _ _ Htr)|].
    intros p Hp Hv. by apply (stx_balance_untouched _ _ _ _ _ _ _ Htr).
Qed.

End EscrowFurther.

(** ** DisputeResolution: raising, voting, resolving and the arbitrator set *)

Section BoardFurther.

Import DisputeResolution BoardShape.

Variable CONTRACT_OWNER : principal.
Variable contract_principal : principal.

Local Abbreviation exec := (exec CONTRACT_OWNER contract_principal).
Local Abbreviation reachable := (reachable CONTRACT_OWNER contract_principal).
Local Abbreviation run := (run CONTRACT_OWNER contract_principal).
Local Abbreviation add_arbitrator := (add_arbitrator CONTRACT_OWNER contract_principal).
Local Abbreviation remove_arbitrator :=
  (remove_arbitrator CONTRACT_OWNER contract_principal).
Local Abbreviation set_arbitrator_reward := (set_arbitrator_reward CONTRACT_OWNER).
Local Abbreviation is_valid_principal :=
  (is_valid_principal CONTRACT_OWNER contract_principal).
Local Abbreviation board_invariant :=
  (board_invariant CONTRACT_OWNER contract_principal).

(** X5. [raise-dispute] checks the escrow id, then the reason, then the
    parties: escrow id 0 answers InvalidEscrowId, an empty reason answers
    InvalidReason, a caller naming itself as counterparty answers
    NotInvolvedParty; every other call, by any caller and for any positive
    escrow id, stores an ["open"] dispute with no votes under the next id and
    answers that id.  The upper half of the reason check never fails: a
    reason of more than 256 characters does not fit the declared parameter
    type and never reaches the body.  When the id counter would leave [uint]
    the transaction aborts before any check. *)
Theorem raise_dispute_succeeds_iff t escrow counterparty reason s :
  let result := call_public (raise_dispute t escrow counterparty reason) s in
  (last_dispute_id s = UINT_MAX → result = (Aborted ArithmeticOverflow, s)) ∧
  (last_dispute_id s < UINT_MAX →
   (escrow = 0 → result = (Answer (err ERR_INVALID_ESCROW_ID), s)) ∧
   (0 < escrow → len reason = 0 →
    result = (Answer (err ERR_INVALID_REASON), s)) ∧
   (0 < escrow → 0 < len reason → tx_sender t = counterparty →
    result = (Answer (err ERR_NOT_INVOLVED_PARTY), s)) ∧
   (0 < escrow → 0 < len reason → tx_sender t ≠ counterparty →
    result =
      (Answer (ok (last_dispute_id s + 1)),
       {| Disputes :=
            <[last_dispute_id s + 1 :=
                {| escrow_id := escrow; initiator := tx_sender t;
                   counterparty := counterparty; reason := reason;
                   status := "open"; created_at := block_height t;
                   votes_for := 0; votes_against := 0; resolution := None |}]>
              (Disputes s);
          Arbitrators := Arbitrators s;
          ArbitratorVotes := ArbitratorVotes s;
          last_dispute_id := last_dispute_id s + 1;
          arbitrator_reward := arbitrator_reward s |}))) ∧
  is_valid_reason reason = (0 <? len reason).
Proof.
  cbv zeta. pose proof (len_fits reason) as Hfit.
  unfold call_public, run_body. rewrite raise_dispute_unfold.
  unfold uint_add, is_valid_escrow_id, is_valid_reason, is_eq.
  rewrite (proj2 (N.leb_le (len reason) 256) Hfit), andb_true_r.
  split; [|split; [|done]].
  - intros Hlast. by rewrite (proj2 (N.leb_gt _ _)) by lia.
  - intros Hlast. rewrite (proj2 (N.leb_le _ _)) by lia.
    split; [|split; [|split]].
    + intros ->. done.
    + intros Hpos Hr. rewrite (proj2 (N.ltb_lt _ _) Hpos). by rewrite Hr.
    + intros Hpos Hr Hself. rewrite (proj2 (N.ltb_lt _ _) Hpos).
      rewrite (proj2 (N.ltb_lt _ _) Hr).
      by rewrite bool_decide_eq_true_2.
    + intros Hpos Hr Hother. rewrite (proj2 (N.ltb_lt _ _) Hpos).
      rewrite (proj2 (N.ltb_lt _ _) Hr).
      by rewrite bool_decide_eq_false_2.
Qed.

(** *** What each transaction writes *)

Lemma board_exec_detail t c s :
  let s' := snd (exec t c s) in
  s' = s ∨
  (∃ escrow counterparty reason,
     last_dispute_id s < UINT_MAX ∧
     0 < escrow ∧ 1 ≤ len reason ≤ 256 ∧ tx_sender t ≠ counterparty ∧
     s' = set_last_dispute_id (last_dispute_id s + 1)
            (set_Disputes (insert (last_dispute_id s + 1)
               {| escrow_id := escrow; initiator := tx_sender t;
                  counterparty := counterparty; reason := reason;
                  status := "open"; created_at := block_height t;
                  votes_for := 0; votes_against := 0; resolution := None |}) s)) ∨
  (∃ id d (vote : bool),
     Disputes s !! id = Some d ∧ status d = "open" ∧
     is_arbitrator (tx_sender t) s = true ∧
     has_voted id (tx_sender t) s = false ∧
     created_at d ≤ block_height t ∧
     block_height t - created_at d ≤ VOTING_PERIOD ∧
     s' = set_ArbitratorVotes (insert (id, tx_sender t) vote)
            (set_Disputes (insert id
               (if vote then with_votes d (votes_for d + 1) (votes_against d)
                else with_votes d (votes_for d) (votes_against d + 1))) s)) ∨
  (∃ id d,
     Disputes s !! id = Some d ∧ status d = "open" ∧
     MIN_VOTES_REQUIRED ≤ votes_for d + votes_against d ∧
     created_at d ≤ block_height t ∧
     block_height t - created_at d ≤ VOTING_PERIOD ∧
     s' = set_Disputes (insert id
            (with_resolution d "resolved" (Some (majority d)))) s) ∨
  (∃ p, tx_sender t = CONTRACT_OWNER ∧ p ≠ CONTRACT_OWNER ∧ p ≠ contract_principal ∧
        s' = set_Arbitrators (insert p true) s) ∨
  (∃ p, tx_sender t = CONTRACT_OWNER ∧ p ≠ CONTRACT_OWNER ∧ p ≠ contract_principal ∧
        s' = set_Arbitrators (delete p) s) ∨
  (∃ n, tx_sender t = CONTRACT_OWNER ∧ 0 < n ∧ s' = set_arbitrator_reward_var n s).
Proof.
  destruct c as [escrow cp reason|id vote|id|arb|arb|reward];
    unfold DisputeResolution.exec; cbv zeta.
  - destruct (call_public_cases (raise_dispute t escrow cp reason) s)
      as [(a & s' & Hbody & ->)|[_ Hsame]]; cbn [answer_value snd].
    + right; left. unfold run_body in Hbody. rewrite raise_dispute_unfold in Hbody.
      unfold is_valid_escrow_id, is_valid_reason in Hbody.
      repeat case_match; simplify_eq; reflect_bools.
      match goal with H : uint_add _ 1 = Some _ |- _ =>
        apply uint_add_Some in H; destruct H as [-> ?] end.
      eexists _, _, _. repeat split; try done; lia.
    + left. destruct (call_public _ s) as [[r|r] s0]; simpl in *; by subst.
  - destruct (call_public_cases (vote_on_dispute t id vote) s)
      as [(a & s' & Hbody & ->)|[_ Hsame]]; cbn [answer_value snd].
    + right; right; left. unfold run_body in Hbody.
      rewrite vote_on_dispute_unfold in Hbody. unfold uint_sub in Hbody.
      destruct (Disputes s !! id) as [d|] eqn:Hd; [|done].
      destruct (is_valid_dispute_id id s); [|done].
      destruct (is_arbitrator (tx_sender t) s) eqn:Harb; [|done].
      destruct (is_eq (status d) "open") eqn:Hopen; [|done].
      destruct (created_at d <=? block_height t) eqn:Hafter; [|done].
      destruct (_ <=? VOTING_PERIOD) eqn:Hwindow; [|done].
      destruct (has_voted id (tx_sender t) s) eqn:Hvoted; [done|].
      destruct (uint_add _ 1) as [n|] eqn:Hn; [|done].
      apply uint_add_Some in Hn as [-> _]. reflect_bools. simplify_eq.
      exists id, d, vote. repeat split; try done. by destruct vote.
    + left. destruct (call_public _ s) as [[r|r] s0]; simpl in *; by subst.
  - destruct (call_public_cases (resolve_dispute t id) s)
      as [(a & s' & Hbody & ->)|[_ Hsame]]; cbn [answer_value snd].
    + right; right; right; left. unfold run_body in Hbody.
      rewrite resolve_dispute_unfold in Hbody. unfold uint_sub in Hbody.
      cbv zeta in Hbody.
      destruct (Disputes s !! id) as [d|] eqn:Hd; [|done].
      destruct (is_valid_dispute_id id s); [|done].
      destruct (is_eq (status d) "open") eqn:Hopen; [|done].
      destruct (uint_add _ _) as [total|] eqn:Htotal; [|done].
      destruct (MIN_VOTES_REQUIRED <=? total) eqn:Hmin; [|done].
      destruct (created_at d <=? block_height t) eqn:Hafter; [|done].
      destruct (_ <=? VOTING_PERIOD) eqn:Hwindow; [|done].
      apply uint_add_Some in Htotal as [-> _]. reflect_bools. simplify_eq.
      exists id, d. repeat split; done.
    + left. destruct (call_public _ s) as [[r|r] s0]; simpl in *; by subst.
  - destruct (call_public_cases (add_arbitrator t arb) s)
      as [(a & s' & Hbody & ->)|[_ Hsame]]; cbn [answer_value snd].
    + right; right; right; right; left. unfold run_body in Hbody.
      rewrite add_arbitrator_unfold in Hbody.
      unfold DisputeResolution.is_valid_principal in Hbody.
      repeat case_match; simplify_eq; reflect_bools. eauto 10.
    + left. destruct (call_public _ s) as [[r|r] s0]; simpl in *; by subst.
  - destruct (call_public_cases (remove_arbitrator t arb) s)
      as [(a & s' & Hbody & ->)|[_ Hsame]]; cbn [answer_value snd].
    + right; right; right; right; right; left. unfold run_body in Hbody.
      rewrite remove_arbitrator_unfold in Hbody.
      unfold DisputeResolution.is_valid_principal in Hbody.
      repeat case_match; simplify_eq; reflect_bools. eauto 10.
    + left. destruct (call_public _ s) as [[r|r] s0]; simpl in *; by subst.
  - destruct (call_public_cases (set_arbitrator_reward t reward) s)
      as [(a & s' & Hbody & ->)|[_ Hsame]]; cbn [answer_value snd].
    + right; right; right; right; right; right. unfold run_body in Hbody.
      rewrite set_arbitrator_reward_unfold in Hbody.
      repeat case_match; simplify_eq; reflect_bools. eauto 10.
    + left. destruct (call_public _ s) as [[r|r] s0]; simpl in *; by subst.
Qed.

(** *** Counting recorded votes *)

Lemma votes_cast_insert_fresh (votes : gmap (N * principal) bool) id who v id' b :
  votes !! (id, who) = None →
  votes_cast id' b (<[(id, who) := v]> votes) =
  votes_cast id' b votes + (if decide (id = id' ∧ v = b) then 1 else 0).
Proof.
  intros Hfresh. unfold votes_cast. rewrite map_filter_insert. cbn [fst snd].
  destruct (decide (id = id' ∧ v = b)) as [Hp|Hp].
  - rewrite map_size_insert_None; [lia|].
    apply map_lookup_filter_None_2. by left.
  - rewrite delete_id by done. lia.
Qed.

Lemma votes_cast_none (votes : gmap (N * principal) bool) id b :
  (∀ who, votes !! (id, who) = None) → votes_cast id b votes = 0.
Proof.
  intros Hnone. unfold votes_cast.
  replace (filter _ votes) with (∅ : gmap (N * principal) bool);
    [by rewrite map_size_empty|].
  symmetry. apply map_empty_filter. intros [k who] x Hk [Hid _]. cbn in Hid.
  subst k. by rewrite Hnone in Hk.
Qed.

(** *** The board invariant holds in every reachable store *)

Lemma board_invariant_initial : board_invariant initial.
Proof.
  unfold BoardShape.board_invariant, initial, ids_dense, tallies_match,
    arbitrators_ok.
  cbn [Disputes Arbitrators ArbitratorVotes last_dispute_id arbitrator_reward].
  split; [|split; [|split; [|split; [|split]]]].
  - intros k. rewrite lookup_empty. split; [by intros []|lia].
  - by rewrite map_size_empty.
  - intros id d Hd. by rewrite lookup_empty in Hd.
  - split.
    + intros id d Hd. by rewrite lookup_empty in Hd.
    + intros id who [v Hv]. by rewrite lookup_empty in Hv.
  - rewrite !lookup_empty. repeat split. intros p b Hp. done.
  - lia.
Qed.

Lemma dispute_ok_open d :
  dispute_ok d → status d = "open" → resolution d = None.
Proof.
  intros (_ & _ & _ & [[_ ?]|[Hres _]]) Hopen; [done|].
  rewrite Hopen in Hres. discriminate.
Qed.

Lemma board_invariant_exec t c s :
  board_invariant s → board_invariant (snd (exec t c s)).
Proof.
  intros (Hdense & Hsize & Hok & [Htally Horphan] & (Hown & Hself & Htrue) & Hreward).
  destruct (board_exec_detail t c s)
    as [->|[(escrow & cp & reason & Hlast & Hescrow & Hreason & Hcp & ->)|
       [(id & d & vote & Hd & Hopen & Harb & Hvoted & Hafter & Hwindow & ->)|
       [(id & d & Hd & Hopen & Hquorum & Hafter & Hwindow & ->)|
       [(p & Hsender & Hp1 & Hp2 & ->)|
       [(p & Hsender & Hp1 & Hp2 & ->)|
        (n & Hsender & Hn & ->)]]]]]].
  - done.
  - (* raise-dispute *)
    assert (Disputes s !! (last_dispute_id s + 1) = None) as Hfresh.
    { destruct (Disputes s !! (last_dispute_id s + 1)) as [d|] eqn:Hd; [|done].
      assert (1 ≤ last_dispute_id s + 1 ≤ last_dispute_id s)
        by (apply Hdense; eauto). lia. }
    unfold BoardShape.board_invariant, ids_dense, tallies_match, arbitrators_ok.
    cbn [Disputes Arbitrators ArbitratorVotes last_dispute_id arbitrator_reward
         set_Disputes set_last_dispute_id].
    split; [|split; [|split; [|split; [|split]]]]; try done.
    + intros k. destruct (decide (k = last_dispute_id s + 1)) as [->|Hk].
      * rewrite lookup_insert_eq. split; [lia|eauto].
      * rewrite lookup_insert_ne by done. rewrite (Hdense k). lia.
    + rewrite map_size_insert_None by done. lia.
    + intros k d. destruct (decide (k = last_dispute_id s + 1)) as [->|Hk].
      * rewrite lookup_insert_eq. intros [= <-]. unfold dispute_ok. cbn.
        split; [done|split; [done|split; [done|by left]]].
      * rewrite lookup_insert_ne by done. apply Hok.
    + split.
      * intros k d. destruct (decide (k = last_dispute_id s + 1)) as [->|Hk].
        -- rewrite lookup_insert_eq. intros [= <-]. cbn.
           assert (∀ who, ArbitratorVotes s !! (last_dispute_id s + 1, who) = None)
             as Hnone.
           { intros who.
             destruct (ArbitratorVotes s !! (last_dispute_id s + 1, who))
               as [v|] eqn:Hv; [|done].
             destruct (Horphan (last_dispute_id s + 1) who) as [d Hd]; [eauto|].
             congruence. }
           by rewrite !votes_cast_none.
        -- rewrite lookup_insert_ne by done. apply Htally.
      * intros k who Hv. destruct (decide (k = last_dispute_id s + 1)) as [->|Hk].
        -- rewrite lookup_insert_eq. eauto.
        -- rewrite lookup_insert_ne by done. eauto.
  - (* vote-on-dispute *)
    assert (ArbitratorVotes s !! (id, tx_sender t) = None) as Hfresh.
    { unfold has_voted in Hvoted.
      by destruct (ArbitratorVotes s !! (id, tx_sender t)). }
    unfold BoardShape.board_invariant, ids_dense, tallies_match, arbitrators_ok.
    cbn [Disputes Arbitrators ArbitratorVotes last_dispute_id arbitrator_reward
         set_Disputes set_ArbitratorVotes].
    split; [|split; [|split; [|split; [|split]]]]; try done.
    + intros k. destruct (decide (k = id)) as [->|Hk].
      * rewrite lookup_insert_eq. split; [|eauto]. intros _. apply Hdense. eauto.
      * rewrite lookup_insert_ne by done. apply Hdense.
    + by rewrite map_size_insert_Some by eauto.
    + intros k d'. destruct (decide (k = id)) as [->|Hk].
      * rewrite lookup_insert_eq. intros [= <-].
        pose proof (Hok _ _ Hd) as Hd_ok.
        pose proof (dispute_ok_open _ Hd_ok Hopen) as Hres.
        destruct Hd_ok as (? & ? & ? & _).
        unfold dispute_ok.
        destruct vote; cbn; (split; [done|split; [done|split; [done|by left]]]).
      * rewrite lookup_insert_ne by done. apply Hok.
    + split.
      * intros k d'. rewrite !votes_cast_insert_fresh by done.
        destruct (decide (k = id)) as [->|Hk].
        -- rewrite lookup_insert_eq. intros [= <-].
           destruct (Htally _ _ Hd) as [Hfor Hagainst].
           destruct vote; cbn; rewrite Hfor, Hagainst;
             repeat case_decide; split; first [lia | naive_solver].
        -- rewrite lookup_insert_ne by done. intros Hd'.
           destruct (Htally _ _ Hd') as [Hfor Hagainst].
           rewrite Hfor, Hagainst.
           repeat case_decide; split; first [lia | naive_solver].
      * intros k who.
        destruct (decide ((id, tx_sender t) = (k, who))) as [[= <- <-]|Hne].
        -- intros _. rewrite lookup_insert_eq. eauto.
        -- rewrite lookup_insert_ne by done. intros Hv%Horphan.
           destruct (decide (k = id)) as [->|Hk].
           ++ rewrite lookup_insert_eq. eauto.
           ++ by rewrite lookup_insert_ne.
  - (* resolve-dispute *)
    unfold BoardShape.board_invariant, ids_dense, tallies_match, arbitrators_ok.
    cbn [Disputes Arbitrators ArbitratorVotes last_dispute_id arbitrator_reward
         set_Disputes].
    split; [|split; [|split; [|split; [|split]]]]; try done.
    + intros k. destruct (decide (k = id)) as [->|Hk].
      * rewrite lookup_insert_eq. split; [|eauto]. intros _. apply Hdense. eauto.
      * rewrite lookup_insert_ne by done. apply Hdense.
    + by rewrite map_size_insert_Some by eauto.
    + intros k d'. destruct (decide (k = id)) as [->|Hk].
      * rewrite lookup_insert_eq. intros [= <-].
        destruct (Hok _ _ Hd) as (? & ? & ? & _).
        unfold dispute_ok. cbn.
        split; [done|split; [done|split; [done|by right]]].
      * rewrite lookup_insert_ne by done. apply Hok.
    + split.
      * intros k d'. destruct (decide (k = id)) as [->|Hk].
        -- rewrite lookup_insert_eq. intros [= <-]. cbn. by apply Htally.
        -- rewrite lookup_insert_ne by done. apply Htally.
      * intros k who Hv%Horphan. destruct (decide (k = id)) as [->|Hk].
        -- rewrite lookup_insert_eq. eauto.
        -- by rewrite lookup_insert_ne.
  - (* add-arbitrator *)
    unfold BoardShape.board_invariant, arbitrators_ok.
    cbn [Disputes Arbitrators ArbitratorVotes last_dispute_id arbitrator_reward
         set_Arbitrators].
    split; [done|]. split; [done|]. split; [done|]. split; [done|].
    split; [|done]. rewrite !lookup_insert_ne by done.
    split; [done|]. split; [done|].
    intros q b. destruct (decide (q = p)) as [->|Hq].
    + rewrite lookup_insert_eq. by intros [= <-].
    + rewrite lookup_insert_ne by done. apply Htrue.
  - (* remove-arbitrator *)
    unfold BoardShape.board_invariant, arbitrators_ok.
    cbn [Disputes Arbitrators ArbitratorVotes last_dispute_id arbitrator_reward
         set_Arbitrators].
    split; [done|]. split; [done|]. split; [done|]. split; [done|].
    split; [|done]. rewrite !lookup_delete_ne by done.
    split; [done|]. split; [done|].
    intros q b. destruct (decide (q = p)) as [->|Hq].
    + by rewrite lookup_delete_eq.
    + rewrite lookup_delete_ne by done. apply Htrue.
  - (* set-arbitrator-reward *)
    unfold BoardShape.board_invariant, tallies_match, arbitrators_ok.
    cbn [Disputes Arbitrators ArbitratorVotes last_dispute_id arbitrator_reward
         set_arbitrator_reward_var].
    done.
Qed.

Lemma reachable_board_invariant s : reachable s → board_invariant s.
Proof.
  induction 1 as [|s t c _ IH].
  - apply board_invariant_initial.
  - by apply board_invariant_exec.
Qed.

Lemma is_arbitrator_insert p q s :
  is_arbitrator q (set_Arbitrators (insert p true) s) =
  if decide (q = p) then true else is_arbitrator q s.
Proof.
  unfold is_arbitrator. cbn [Arbitrators set_Arbitrators].
  destruct (decide (q = p)) as [->|Hq].
  - by rewrite lookup_insert_eq.
  - by rewrite lookup_insert_ne.
Qed.

Lemma is_arbitrator_delete p q s :
  is_arbitrator q (set_Arbitrators (delete p) s) =
  if decide (q = p) then false else is_arbitrator q s.
Proof.
  unfold is_arbitrator. cbn [Arbitrators set_Arbitrators].
  destruct (decide (q = p)) as [->|Hq].
  - by rewrite lookup_delete_eq.
  - by rewrite lookup_delete_ne.
Qed.

(** X6. Only the owner edits the arbitrator set, and neither the owner nor
    the contract itself can be put in it: in a reachable store neither is an
    arbitrator, so neither can ever cast a vote.  For any other principal the
    owner's [add-arbitrator] makes it an arbitrator and [remove-arbitrator]
    makes it none, both idempotent, touching no other principal, no dispute
    and no recorded vote. *)
Theorem arbitrator_set_management s :
  reachable s →
  is_arbitrator CONTRACT_OWNER s = false ∧
  is_arbitrator contract_principal s = false ∧
  (∀ t id vote a,
     tx_sender t = CONTRACT_OWNER ∨ tx_sender t = contract_principal →
     fst (call_public (vote_on_dispute t id vote) s) ≠ Answer (ok a)) ∧
  (∀ t p,
     tx_sender t ≠ CONTRACT_OWNER →
     call_public (add_arbitrator t p) s = (Answer (err ERR_NOT_AUTHORIZED), s) ∧
     call_public (remove_arbitrator t p) s = (Answer (err ERR_NOT_AUTHORIZED), s)) ∧
  (∀ t p,
     tx_sender t = CONTRACT_OWNER →
     p = CONTRACT_OWNER ∨ p = contract_principal →
     call_public (add_arbitrator t p) s = (Answer (err ERR_INVALID_PRINCIPAL), s) ∧
     call_public (remove_arbitrator t p) s
       = (Answer (err ERR_INVALID_PRINCIPAL), s)) ∧
  (∀ t p,
     tx_sender t = CONTRACT_OWNER →
     p ≠ CONTRACT_OWNER → p ≠ contract_principal →
     call_public (add_arbitrator t p) s
       = (Answer (ok true), set_Arbitrators (insert p true) s) ∧
     call_public (remove_arbitrator t p) s
       = (Answer (ok true), set_Arbitrators (delete p) s) ∧
     ∀ q,
       is_arbitrator q (set_Arbitrators (insert p true) s)
         = (if decide (q = p) then true else is_arbitrator q s) ∧
       is_arbitrator q (set_Arbitrators (delete p) s)
         = (if decide (q = p) then false else is_arbitrator q s)).
Proof.
  intros (_ & _ & _ & _ & (Hown & Hself & _) & _)%reachable_board_invariant.
  assert (is_arbitrator CONTRACT_OWNER s = false) as Ho
    by (unfold is_arbitrator; by rewrite Hown).
  assert (is_arbitrator contract_principal s = false) as Hc
    by (unfold is_arbitrator; by rewrite Hself).
  split; [done|]. split; [done|]. split; [|split; [|split]].
  - intros t id vote a Hsender. unfold call_public, run_body.
    rewrite vote_on_dispute_unfold.
    assert (is_arbitrator (tx_sender t) s = false) as ->
      by (destruct Hsender as [-> | ->]; done).
    repeat case_match; simplify_eq; simpl; discriminate.
  - intros t p Hne. unfold call_public, run_body.
    rewrite add_arbitrator_unfold, remove_arbitrator_unfold. unfold is_eq.
    by rewrite bool_decide_eq_false_2.
  - intros t p Hsender Hp. unfold call_public, run_body.
    rewrite add_arbitrator_unfold, remove_arbitrator_unfold.
    unfold DisputeResolution.is_valid_principal, is_eq.
    rewrite (bool_decide_eq_true_2 _ Hsender).
    destruct Hp as [-> | ->].
    + by rewrite bool_decide_eq_true_2.
    + rewrite (bool_decide_eq_true_2 (contract_principal = contract_principal))
        by done.
      by rewrite andb_false_r.
  - intros t p Hsender Hp1 Hp2. unfold call_public, run_body.
    rewrite add_arbitrator_unfold, remove_arbitrator_unfold.
    unfold DisputeResolution.is_valid_principal, is_eq.
    rewrite (bool_decide_eq_true_2 _ Hsender).
    rewrite !bool_decide_eq_false_2 by done. cbn [negb andb].
    split; [done|]. split; [done|]. intros q.
    by rewrite is_arbitrator_insert, is_arbitrator_delete.
Qed.

(** X7. The arbitrator reward is never zero: it starts at 100, only the
    owner's [set-arbitrator-reward] with a positive amount changes it, a zero
    amount answers InvalidReward and every other caller NotAuthorized, and no
    other transaction touches it. *)
Theorem arbitrator_reward_positive s :
  reachable s →
  0 < arbitrator_reward s ∧
  arbitrator_reward initial = 100 ∧
  (∀ t n,
     tx_sender t ≠ CONTRACT_OWNER →
     call_public (set_arbitrator_reward t n) s
       = (Answer (err ERR_NOT_AUTHORIZED), s)) ∧
  (∀ t,
     tx_sender t = CONTRACT_OWNER →
     call_public (set_arbitrator_reward t 0) s
       = (Answer (err ERR_INVALID_REWARD), s)) ∧
  (∀ t n,
     tx_sender t = CONTRACT_OWNER → 0 < n →
     call_public (set_arbitrator_reward t n) s
       = (Answer (ok true), set_arbitrator_reward_var n s) ∧
     get_arbitrator_reward (set_arbitrator_reward_var n s) = ok n) ∧
  (∀ t c,
     (∀ n, c ≠ SetArbitratorReward n) →
     arbitrator_reward (snd (exec t c s)) = arbitrator_reward s).
Proof.
  intros (_ & _ & _ & _ & _ & Hreward)%reachable_board_invariant.
  split; [done|]. split; [done|]. split; [|split; [|split]].
  - intros t n Hne. unfold call_public, run_body.
    rewrite set_arbitrator_reward_unfold. unfold is_eq.
    by rewrite bool_decide_eq_false_2.
  - intros t Hsender. unfold call_public, run_body.
    rewrite set_arbitrator_reward_unfold. unfold is_eq.
    by rewrite bool_decide_eq_true_2.
  - intros t n Hsender Hn. unfold call_public, run_body.
    rewrite set_arbitrator_reward_unfold. unfold is_eq.
    rewrite (bool_decide_eq_true_2 _ Hsender).
    by rewrite (proj2 (N.ltb_lt _ _) Hn).
  - intros t c Hc.
    destruct c as [escrow cp reason|id vote|id|arb|arb|n];
      [..|by destruct (Hc n)]; unfold DisputeResolution.exec.
    + destruct (call_public_cases (raise_dispute t escrow cp reason) s)
        as [(a & s1 & Hbody & ->)|[_ Hsame]]; cbn [answer_value snd].
      * apply raise_dispute_ok in Hbody as [_ ->]. done.
      * destruct (call_public _ s) as [[r|r] s0]; simpl in *; by subst.
    + destruct (call_public_cases (vote_on_dispute t id vote) s)
        as [(a & s1 & Hbody & ->)|[_ Hsame]]; cbn [answer_value snd].
      * apply vote_on_dispute_ok in Hbody
          as (_ & ? & ? & _ & _ & _ & _ & _ & ->). done.
      * destruct (call_public _ s) as [[r|r] s0]; simpl in *; by subst.
    + destruct (call_public_cases (resolve_dispute t id) s)
        as [(a & s1 & Hbody & ->)|[_ Hsame]]; cbn [answer_value snd].
      * apply resolve_dispute_ok in Hbody as (? & _ & _ & _ & _ & ->). done.
      * destruct (call_public _ s) as [[r|r] s0]; simpl in *; by subst.
    + destruct (call_public_cases (add_arbitrator t arb) s)
        as [(a & s1 & Hbody & ->)|[_ Hsame]]; cbn [answer_value snd].
      * unfold run_body in Hbody. rewrite add_arbitrator_unfold in Hbody.
        by repeat case_match; simplify_eq.
      * destruct (call_public _ s) as [[r|r] s0]; simpl in *; by subst.
    + destruct (call_public_cases (remove_arbitrator t arb) s)
        as [(a & s1 & Hbody & ->)|[_ Hsame]]; cbn [answer_value snd].
      * unfold run_body in Hbody. rewrite remove_arbitrator_unfold in Hbody.
        by repeat case_match; simplify_eq.
      * destruct (call_public _ s) as [[r|r] s0]; simpl in *; by subst.
Qed.

(** X8. On a stored dispute [vote-on-dispute] answers, in this order:
    NotArbitrator to a caller outside the arbitrator set; VotingClosed when
    the dispute is not ["open"]; VotingClosed when more than 144 blocks have
    passed since it was raised; AlreadyVoted when the caller has a recorded
    vote on it; and otherwise it counts the vote.  A block height below
    [created-at] aborts the transaction. *)
Theorem vote_on_dispute_answers t id vote s d :
  ids_assigned s →
  Disputes s !! id = Some d →
  let result := call_public (vote_on_dispute t id vote) s in
  let arbitrator := is_arbitrator (tx_sender t) s = true in
  let in_window :=
    created_at d ≤ block_height t ∧ block_height t - created_at d ≤ 144 in
  (¬ arbitrator → result = (Answer (err ERR_NOT_ARBITRATOR), s)) ∧
  (arbitrator → status d ≠ "open" →
   result = (Answer (err ERR_VOTING_CLOSED), s)) ∧
  (arbitrator → status d = "open" → block_height t < created_at d →
   result = (Aborted ArithmeticUnderflow, s)) ∧
  (arbitrator → status d = "open" → created_at d + 144 < block_height t →
   result = (Answer (err ERR_VOTING_CLOSED), s)) ∧
  (arbitrator → status d = "open" → in_window →
   has_voted id (tx_sender t) s = true →
   result = (Answer (err ERR_ALREADY_VOTED), s)) ∧
  (arbitrator → status d = "open" → in_window →
   has_voted id (tx_sender t) s = false →
   (if vote then votes_for d else votes_against d) < UINT_MAX →
   result =
     (Answer (ok true),
      set_ArbitratorVotes (insert (id, tx_sender t) vote)
        (set_Disputes (insert id
           (if vote then with_votes d (votes_for d + 1) (votes_against d)
            else with_votes d (votes_for d) (votes_against d + 1))) s))).
Proof.
  intros Hids Hd. cbv zeta. unfold call_public, run_body.
  rewrite vote_on_dispute_unfold, Hd.
  rewrite (board_ids_assigned_valid _ _ _ Hids Hd).
  unfold uint_sub, uint_add, is_eq, VOTING_PERIOD.
  split; [|split; [|split; [|split; [|split]]]].
  - intros Harb. apply not_true_is_false in Harb. by rewrite Harb.
  - intros -> Hclosed. by rewrite (bool_decide_eq_false_2 _ Hclosed).
  - intros -> Hopen Hbefore. rewrite (bool_decide_eq_true_2 _ Hopen).
    by rewrite (proj2 (N.leb_gt _ _) Hbefore).
  - intros -> Hopen Hlate. rewrite (bool_decide_eq_true_2 _ Hopen).
    rewrite (proj2 (N.leb_le _ _)) by lia.
    by rewrite (proj2 (N.leb_gt _ _)) by lia.
  - intros -> Hopen [Hafter Hwindow] Hvoted.
    rewrite (bool_decide_eq_true_2 _ Hopen).
    rewrite (proj2 (N.leb_le _ _) Hafter), (proj2 (N.leb_le _ _) Hwindow).
    by rewrite Hvoted.
  - intros -> Hopen [Hafter Hwindow] Hvoted Hroom.
    rewrite (bool_decide_eq_true_2 _ Hopen).
    rewrite (proj2 (N.leb_le _ _) Hafter), (proj2 (N.leb_le _ _) Hwindow).
    rewrite Hvoted.
    rewrite (proj2 (N.leb_le _ _)) by lia. by destruct vote.
Qed.

(** X9. In a reachable store the tallies of every dispute are the numbers of
    recorded votes on it: [votes-for] is the number of [true] entries of
    ArbitratorVotes under that dispute id, [votes-against] the number of
    [false] entries; and votes are recorded on stored disputes only. *)
Theorem tallies_count_recorded_votes s :
  reachable s →
  (∀ id d,
     Disputes s !! id = Some d →
     votes_for d = votes_cast id true (ArbitratorVotes s) ∧
     votes_against d = votes_cast id false (ArbitratorVotes s)) ∧
  (∀ id who, has_voted id who s = true → is_Some (get_dispute id s)).
Proof.
  intros (_ & _ & _ & [Htally Horphan] & _)%reachable_board_invariant.
  split; [done|]. intros id who Hv. apply (Horphan id who).
  unfold has_voted in Hv. destruct (ArbitratorVotes s !! (id, who)); [eauto|done].
Qed.

(** X10. In a reachable store the dispute ids are exactly
    [1 .. last-dispute-id] and the counter is the number of disputes ever
    raised: [get-dispute] answers a record for exactly those ids, and nothing
    for 0 or for an id above the counter.  Every stored dispute names a
    positive escrow id, has an initiator different from its counterparty and
    a reason of 1 to 256 characters, and is either ["open"] with no
    resolution, or ["resolved"] with at least three votes and the resolution
    its tallies call for. *)
Theorem board_store_shape s :
  reachable s →
  (∀ id, is_Some (get_dispute id s) ↔ 1 ≤ id ≤ last_dispute_id s) ∧
  get_last_dispute_id s = ok (N.of_nat (size (Disputes s))) ∧
  (∀ id d, Disputes s !! id = Some d → dispute_ok d).
Proof.
  intros (Hdense & Hsize & Hok & _)%reachable_board_invariant.
  split; [done|]. split; [|done].
  unfold get_last_dispute_id. by rewrite Hsize.
Qed.

(** X11. Nothing closes a dispute whose voting window has lapsed: along
    every sequence of transactions that all run more than 144 blocks after an
    ["open"] dispute was raised, that dispute's record stays exactly as it is,
    ["open"] and with the same tallies. *)
Theorem lapsed_dispute_stays_open s id d txs :
  reachable s →
  Disputes s !! id = Some d →
  status d = "open" →
  Forall (λ tc, created_at d + 144 < block_height tc.1) txs →
  Disputes (run txs s) !! id = Some d.
Proof.
  intros Hs Hd Hopen Hlate. revert s Hs Hd.
  induction Hlate as [|[t c] txs Ht _ IH]; intros s Hs Hd; [done|].
  apply IH; [by constructor|]. cbn [fst] in Ht.
  pose proof (reachable_board_invariant _ Hs) as (Hdense & _).
  destruct (board_exec_detail t c s)
    as [->|[(escrow & cp & reason & _ & _ & _ & _ & ->)|
       [(id' & d' & vote & Hd' & _ & _ & _ & Hafter & Hwindow & ->)|
       [(id' & d' & Hd' & _ & _ & Hafter & Hwindow & ->)|
       [(p & _ & _ & _ & ->)|
       [(p & _ & _ & _ & ->)|
        (n & _ & _ & ->)]]]]]]; try done;
    cbn [Disputes set_Disputes set_last_dispute_id set_ArbitratorVotes].
  - rewrite lookup_insert_ne; [done|].
    assert (1 ≤ id ≤ last_dispute_id s) by (apply Hdense; eauto). lia.
  - rewrite lookup_insert_ne; [done|]. intros ->. simplify_eq.
    unfold VOTING_PERIOD in Hwindow. lia.
  - rewrite lookup_insert_ne; [done|]. intros ->. simplify_eq.
    unfold VOTING_PERIOD in Hwindow. lia.
Qed.

(** X12. [resolve-dispute] asks nothing of its caller.  On a stored dispute
    it answers, in this order: InvalidState when the dispute is not ["open"];
    InsufficientVotes when fewer than three votes are counted, also after the
    window has lapsed; VotingClosed when the quorum is there but more than
    144 blocks have passed. *)
Theorem resolve_dispute_answers t id s d :
  ids_assigned s →
  Disputes s !! id = Some d →
  votes_for d + votes_against d ≤ UINT_MAX →
  let result := call_public (resolve_dispute t id) s in
  (∀ t', block_height t' = block_height t →
         call_public (resolve_dispute t' id) s = result) ∧
  (status d ≠ "open" → result = (Answer (err ERR_INVALID_STATE), s)) ∧
  (status d = "open" → votes_for d + votes_against d < 3 →
   result = (Answer (err ERR_INSUFFICIENT_VOTES), s)) ∧
  (status d = "open" → 3 ≤ votes_for d + votes_against d →
   block_height t < created_at d →
   result = (Aborted ArithmeticUnderflow, s)) ∧
  (status d = "open" → 3 ≤ votes_for d + votes_against d →
   created_at d + 144 < block_height t →
   result = (Answer (err ERR_VOTING_CLOSED), s)).
Proof.
  intros Hids Hd Hrange. cbv zeta. unfold call_public, run_body.
  rewrite !resolve_dispute_unfold, Hd.
  rewrite (board_ids_assigned_valid _ _ _ Hids Hd).
  unfold uint_sub, uint_add, is_eq, VOTING_PERIOD, MIN_VOTES_REQUIRED.
  rewrite (proj2 (N.leb_le _ _) Hrange).
  split; [|split; [|split; [|split]]].
  - intros t' Hsame. rewrite resolve_dispute_unfold, Hd.
    rewrite (board_ids_assigned_valid _ _ _ Hids Hd).
    unfold uint_sub, uint_add, is_eq, VOTING_PERIOD, MIN_VOTES_REQUIRED.
    by rewrite (proj2 (N.leb_le _ _) Hrange), Hsame.
  - intros Hclosed. by rewrite (bool_decide_eq_false_2 _ Hclosed).
  - intros Hopen Hfew. rewrite (bool_decide_eq_true_2 _ Hopen).
    by rewrite (proj2 (N.leb_gt _ _) Hfew).
  - intros Hopen Hquorum Hbefore. rewrite (bool_decide_eq_true_2 _ Hopen).
    rewrite (proj2 (N.leb_le _ _) Hquorum).
    by rewrite (proj2 (N.leb_gt _ _) Hbefore).
  - intros Hopen Hquorum Hlate. rewrite (bool_decide_eq_true_2 _ Hopen).
    rewrite (proj2 (N.leb_le _ _) Hquorum).
    rewrite (proj2 (N.leb_le _ _)) by lia.
    by rewrite (proj2 (N.leb_gt _ _)) by lia.
Qed.

End BoardFurther.

(** ** CoreMarketPlace: creating, updating, cancelling and buying *)

Section MarketFurther.

Import CoreMarketPlace MarketShape.

Variable contract_principal : principal.

Local Abbreviation purchase_listing := (purchase_listing contract_principal).
Local Abbreviation exec := (exec contract_principal).
Local Abbreviation reachable := (reachable contract_principal).
Local Abbreviation run := (run contract_principal).

(** X13. [create-listing] first computes the next id and the expiry height
    (the transaction aborts when either leaves [uint], whatever the other
    arguments are), and then checks the price, the name, the description and
    the duration, in this order: price 0 answers InvalidPrice; an empty name
    or an empty description answers InvalidInput; a duration of 0 or above
    52560 answers InvalidDuration.  The upper halves of the two length
    checks never fail: a name of more than 64 or a description of more than
    256 characters does not fit the declared parameter types and never
    reaches the body.  A rejected listing leaves the store, the id counter
    included, as it was.  An accepted one is stored ["active"] under the
    next id with the caller as seller, expiring [duration] blocks later, and
    that id is the answer. *)
Theorem create_listing_succeeds_iff t name description price duration s :
  let result := call_public (create_listing t name description price duration) s in
  (last_listing_id s = UINT_MAX ∨ UINT_MAX < block_height t + duration →
   result = (Aborted ArithmeticOverflow, s)) ∧
  (last_listing_id s < UINT_MAX → block_height t + duration ≤ UINT_MAX →
   (price = 0 → result = (Answer (err ERR_INVALID_PRICE), s)) ∧
   (0 < price → len name = 0 →
    result = (Answer (err ERR_INVALID_INPUT), s)) ∧
   (0 < price → 0 < len name → len description = 0 →
    result = (Answer (err ERR_INVALID_INPUT), s)) ∧
   (0 < price → 0 < len name → 0 < len description →
    duration = 0 ∨ 52560 < duration →
    result = (Answer (err ERR_INVALID_DURATION), s)) ∧
   (0 < price → 0 < len name → 0 < len description →
    1 ≤ duration ≤ 52560 →
    result =
      (Answer (ok (last_listing_id s + 1)),
       {| Listings :=
            <[last_listing_id s + 1 :=
                {| seller := tx_sender t; name := name; description := description;
                   price := price; status := "active";
                   created_at := block_height t;
                   expires_at := block_height t + duration |}]> (Listings s);
          last_listing_id := last_listing_id s + 1;
          stx := stx s |}))) ∧
  is_valid_string name 64 = (1 <=? len name) ∧
  is_valid_string description 256 = (1 <=? len description).
Proof.
  cbv zeta.
  pose proof (len_fits name) as Hname. pose proof (len_fits description) as Hdesc.
  assert (is_valid_string name 64 = (1 <=? len name)) as Hvn.
  { unfold is_valid_string.
    by rewrite (proj2 (N.leb_le (len name) 64) Hname), andb_true_r. }
  assert (is_valid_string description 256 = (1 <=? len description)) as Hvd.
  { unfold is_valid_string.
    by rewrite (proj2 (N.leb_le (len description) 256) Hdesc), andb_true_r. }
  split; [|split; [|done]].
  - unfold call_public, run_body. rewrite create_listing_unfold. unfold uint_add.
    intros [Hlast|Hheight].
    + by rewrite (proj2 (N.leb_gt (last_listing_id s + 1) UINT_MAX)) by lia.
    + destruct (last_listing_id s + 1 <=? UINT_MAX); [|done].
      by rewrite (proj2 (N.leb_gt _ _) Hheight).
  - intros Hlast Hheight.
    unfold call_public, run_body. rewrite create_listing_unfold. unfold uint_add.
    rewrite (proj2 (N.leb_le (last_listing_id s + 1) UINT_MAX)) by lia.
    rewrite (proj2 (N.leb_le _ _) Hheight).
    rewrite Hvn, Hvd.
    unfold is_valid_price, is_valid_duration, MAX_LISTING_DURATION.
    split; [|split; [|split; [|split]]].
    + intros ->. done.
    + intros Hp Hn. rewrite (proj2 (N.ltb_lt _ _) Hp).
      by rewrite (proj2 (N.leb_gt 1 (len name))) by lia.
    + intros Hp Hn Hd. rewrite (proj2 (N.ltb_lt _ _) Hp).
      rewrite (proj2 (N.leb_le 1 (len name))) by lia.
      by rewrite (proj2 (N.leb_gt 1 (len description))) by lia.
    + intros Hp Hn Hd Hdur. rewrite (proj2 (N.ltb_lt _ _) Hp).
      rewrite (proj2 (N.leb_le 1 (len name))) by lia.
      rewrite (proj2 (N.leb_le 1 (len description))) by lia.
      destruct Hdur as [->|Hdur]; [done|].
      rewrite (proj2 (N.leb_gt _ 52560) Hdur). by rewrite andb_false_r.
    + intros Hp Hn Hd [Hdur1 Hdur2]. rewrite (proj2 (N.ltb_lt _ _) Hp).
      rewrite (proj2 (N.leb_le 1 (len name))) by lia.
      rewrite (proj2 (N.leb_le 1 (len description))) by lia.
      rewrite (proj2 (N.ltb_lt 0 duration)) by lia.
      rewrite (proj2 (N.leb_le _ _) Hdur2). done.
Qed.

(** *** What each transaction writes *)

Lemma market_exec_detail t c s :
  let s' := snd (exec t c s) in
  s' = s ∨
  (∃ name description price duration,
     0 < price ∧ 1 ≤ len name ≤ 64 ∧ 1 ≤ len description ≤ 256 ∧
     1 ≤ duration ≤ MAX_LISTING_DURATION ∧
     s' = {| Listings :=
               <[last_listing_id s + 1 :=
                   {| seller := tx_sender t; name := name;
                      description := description; price := price;
                      status := "active"; created_at := block_height t;
                      expires_at := block_height t + duration |}]> (Listings s);
             last_listing_id := last_listing_id s + 1;
             stx := stx s |}) ∨
  (∃ id l new_price new_description,
     Listings s !! id = Some l ∧ seller l = tx_sender t ∧ status l = "active" ∧
     0 < new_price ∧ 1 ≤ len new_description ≤ 256 ∧
     s' = set_Listings (insert id
            (with_price_description l new_price new_description)) s) ∨
  (∃ id l,
     Listings s !! id = Some l ∧ seller l = tx_sender t ∧ status l = "active" ∧
     s' = set_Listings (insert id (with_status l "cancelled")) s) ∨
  (∃ id l ledger,
     Listings s !! id = Some l ∧ status l = "active" ∧
     block_height t ≤ expires_at l ∧
     seller l ≠ tx_sender t ∧ seller l ≠ contract_principal ∧
     stx_transfer (tx_sender t) (price l) (tx_sender t) (seller l) (stx s)
       = ok ledger ∧
     s' = set_Listings (insert id (with_status l "sold")) (set_stx ledger s)).
Proof.
  destruct c as [name description price duration|id new_price new_description|id|id];
    unfold CoreMarketPlace.exec; cbv zeta.
  - destruct (call_public_cases (create_listing t name description price duration) s)
      as [(a & s' & Hbody & ->)|[_ Hsame]]; cbn [answer_value snd].
    + right; left. unfold run_body in Hbody.
      rewrite create_listing_unfold in Hbody.
      unfold is_valid_price, is_valid_string, is_valid_duration in Hbody.
      repeat case_match; simplify_eq; reflect_bools.
      repeat match goal with H : uint_add _ _ = Some _ |- _ =>
        apply uint_add_Some in H; destruct H as [-> ?] end.
      eexists _, _, _, _. repeat split; try done; lia.
    + left. destruct (call_public _ s) as [[r|r] s0]; simpl in *; by subst.
  - destruct (call_public_cases (update_listing t id new_price new_description) s)
      as [(a & s' & Hbody & ->)|[_ Hsame]]; cbn [answer_value snd].
    + right; right; left. unfold run_body in Hbody.
      rewrite update_listing_unfold in Hbody.
      unfold is_valid_price, is_valid_string in Hbody.
      repeat case_match; simplify_eq; reflect_bools.
      eexists _, _, _, _. repeat split; try done; lia.
    + left. destruct (call_public _ s) as [[r|r] s0]; simpl in *; by subst.
  - destruct (call_public_cases (cancel_listing t id) s)
      as [(a & s' & Hbody & ->)|[_ Hsame]]; cbn [answer_value snd].
    + right; right; right; left. unfold run_body in Hbody.
      rewrite cancel_listing_unfold in Hbody.
      repeat case_match; simplify_eq; reflect_bools.
      eexists _, _. repeat split; done.
    + left. destruct (call_public _ s) as [[r|r] s0]; simpl in *; by subst.
  - destruct (call_public_cases (purchase_listing t id) s)
      as [(a & s' & Hbody & ->)|[_ Hsame]]; cbn [answer_value snd].
    + right; right; right; right. unfold run_body in Hbody.
      rewrite purchase_listing_unfold in Hbody.
      unfold is_valid_seller in Hbody.
      repeat case_match; simplify_eq; reflect_bools.
      eexists _, _, _. repeat split; done.
    + left. destruct (call_public _ s) as [[r|r] s0]; simpl in *; by subst.
Qed.

(** *** Ids, the counter and the shape of the records *)

Lemma market_invariant_initial l : market_invariant (initial l).
Proof.
  unfold market_invariant, ids_dense, initial. cbn [Listings last_listing_id].
  split; [|split].
  - intros k. rewrite lookup_empty. split; [by intros []|lia].
  - by rewrite map_size_empty.
  - intros k x. by rewrite lookup_empty.
Qed.

Lemma market_invariant_exec t c s :
  market_invariant s → market_invariant (snd (exec t c s)).
Proof.
  intros (Hdense & Hsize & Hok).
  destruct (market_exec_detail t c s)
    as [->|[(name & description & price & duration & Hp & Hn & Hd & Hdur & ->)|
       [(id & l & p & d & Hl & _ & Hactive & Hp & Hd & ->)|
       [(id & l & Hl & _ & Hactive & ->)|
        (id & l & ledger & Hl & Hactive & _ & _ & _ & _ & ->)]]]]; [done|..];
    unfold market_invariant, ids_dense;
    cbn [Listings last_listing_id set_Listings set_stx].
  - split; [|split].
    + intros k. destruct (decide (k = last_listing_id s + 1)) as [->|Hk].
      * rewrite lookup_insert_eq. split; [lia|eauto].
      * rewrite lookup_insert_ne by done. rewrite (Hdense k). lia.
    + rewrite map_size_insert_None; [lia|].
      destruct (Listings s !! (last_listing_id s + 1)) as [x|] eqn:Hx; [|done].
      assert (1 ≤ last_listing_id s + 1 ≤ last_listing_id s) by (apply Hdense; eauto).
      lia.
    + intros k x. destruct (decide (k = last_listing_id s + 1)) as [->|Hk].
      * rewrite lookup_insert_eq. intros [= <-]. unfold listing_ok. cbn.
        unfold MAX_LISTING_DURATION in *. repeat split; try lia. by left.
      * rewrite lookup_insert_ne by done. apply Hok.
  - split; [|split].
    + intros k. destruct (decide (k = id)) as [->|Hk].
      * rewrite lookup_insert_eq. split; [|eauto]. intros _. apply Hdense. eauto.
      * rewrite lookup_insert_ne by done. apply Hdense.
    + by rewrite map_size_insert_Some by eauto.
    + intros k x. destruct (decide (k = id)) as [->|Hk].
      * rewrite lookup_insert_eq. intros [= <-].
        destruct (Hok _ _ Hl) as (_ & ? & _ & ? & ? & ?).
        unfold listing_ok. cbn. repeat split; try done; lia.
      * rewrite lookup_insert_ne by done. apply Hok.
  - split; [|split].
    + intros k. destruct (decide (k = id)) as [->|Hk].
      * rewrite lookup_insert_eq. split; [|eauto]. intros _. apply Hdense. eauto.
      * rewrite lookup_insert_ne by done. apply Hdense.
    + by rewrite map_size_insert_Some by eauto.
    + intros k x. destruct (decide (k = id)) as [->|Hk].
      * rewrite lookup_insert_eq. intros [= <-].
        destruct (Hok _ _ Hl) as (? & ? & ? & ? & ? & _).
        unfold listing_ok. cbn. repeat split; try done; try lia. by right; right.
      * rewrite lookup_insert_ne by done. apply Hok.
  - split; [|split].
    + intros k. destruct (decide (k = id)) as [->|Hk].
      * rewrite lookup_insert_eq. split; [|eauto]. intros _. apply Hdense. eauto.
      * rewrite lookup_insert_ne by done. apply Hdense.
    + by rewrite map_size_insert_Some by eauto.
    + intros k x. destruct (decide (k = id)) as [->|Hk].
      * rewrite lookup_insert_eq. intros [= <-].
        destruct (Hok _ _ Hl) as (? & ? & ? & ? & ? & _).
        unfold listing_ok. cbn. repeat split; try done; try lia. by right; left.
      * rewrite lookup_insert_ne by done. apply Hok.
Qed.

Lemma reachable_market_invariant s : reachable s → market_invariant s.
Proof.
  induction 1 as [l|s t c _ IH];
    [apply market_invariant_initial|by apply market_invariant_exec].
Qed.

(** X14. In a reachable store the listing ids are exactly
    [1 .. last-listing-id] and the counter is the number of listings ever
    created (a rejected [create-listing] does not use up an id).
    [get-listing] answers the stored record for every id in that range and
    [none] for id 0 and for every id above the counter.  Every stored
    listing has a positive price, a name of 1 to 64 and a description of 1
    to 256 characters, expires after it was created and at most 52560 blocks
    after, and is ["active"], ["sold"] or ["cancelled"]. *)
Theorem market_store_shape s :
  reachable s →
  last_listing_id s = N.of_nat (size (Listings s)) ∧
  (∀ id, 1 ≤ id ≤ last_listing_id s →
     ∃ l, Listings s !! id = Some l ∧ get_listing id s = Some l) ∧
  get_listing 0 s = None ∧
  (∀ id, last_listing_id s < id → get_listing id s = None) ∧
  get_last_listing_id s = ok (last_listing_id s) ∧
  (∀ id l, Listings s !! id = Some l → listing_ok l).
Proof.
  intros (Hdense & Hsize & Hok)%reachable_market_invariant. split; [done|].
  unfold get_listing, is_valid_listing_id. split; [|split; [|split; [|split]]].
  - intros id Hid. destruct (proj2 (Hdense id) Hid) as [l Hl].
    exists l. split; [done|]. by rewrite (proj2 (N.leb_le _ _)) by lia.
  - rewrite (proj2 (N.leb_le _ _)) by lia.
    destruct (Listings s !! 0) as [l|] eqn:Hl; [|done].
    assert (1 ≤ 0) by (apply Hdense; eauto). lia.
  - intros id Hid. by rewrite (proj2 (N.leb_gt _ _)) by lia.
  - reflexivity.
  - exact Hok.
Qed.

Lemma market_evolves_refl l : evolves l l.
Proof. unfold evolves. tauto. Qed.

Lemma market_evolves_trans l1 l2 l3 : evolves l1 l2 → evolves l2 l3 → evolves l1 l3.
Proof.
  unfold evolves.
  intros (Hs12 & Hn12 & Hc12 & He12 & Hst12 & Hk12) (-> & -> & -> & -> & Hst23 & Hk23).
  repeat split; try done.
  - destruct Hst12 as [E12|[Ha H12]].
    + rewrite <- E12. exact Hst23.
    + right. split; [done|].
      destruct Hst23 as [->|[Ha' _]]; [done|].
      destruct H12 as [H12|H12]; rewrite H12 in Ha'; discriminate.
  - intros Hclosed. specialize (Hk12 Hclosed). subst l2. by apply Hk23.
Qed.

Lemma market_evolves_exec t c s id l :
  market_invariant s → Listings s !! id = Some l →
  ∃ l', Listings (snd (exec t c s)) !! id = Some l' ∧ evolves l l'.
Proof.
  intros (Hdense & _ & _) Hl.
  destruct (market_exec_detail t c s)
    as [->|[(name & description & price & duration & _ & _ & _ & _ & ->)|
       [(id' & l0 & p & d & Hl0 & _ & Hactive & _ & _ & ->)|
       [(id' & l0 & Hl0 & _ & Hactive & ->)|
        (id' & l0 & ledger & Hl0 & Hactive & _ & _ & _ & _ & ->)]]]];
    cbn [Listings set_Listings set_stx].
  - eauto using market_evolves_refl.
  - exists l. split; [|apply market_evolves_refl].
    rewrite lookup_insert_ne; [done|].
    assert (1 ≤ id ≤ last_listing_id s) by (apply Hdense; eauto). lia.
  - destruct (decide (id' = id)) as [->|Hne].
    + rewrite lookup_insert_eq. simplify_eq. eexists. split; [done|].
      unfold evolves. cbn. repeat split; try done; try (by left); try congruence.
    + rewrite lookup_insert_ne by done. eauto using market_evolves_refl.
  - destruct (decide (id' = id)) as [->|Hne].
    + rewrite lookup_insert_eq. simplify_eq. eexists. split; [done|].
      unfold evolves. cbn. repeat split; try done; try (right; tauto); try congruence.
    + rewrite lookup_insert_ne by done. eauto using market_evolves_refl.
  - destruct (decide (id' = id)) as [->|Hne].
    + rewrite lookup_insert_eq. simplify_eq. eexists. split; [done|].
      unfold evolves. cbn. repeat split; try done; try (right; tauto); try congruence.
    + rewrite lookup_insert_ne by done. eauto using market_evolves_refl.
Qed.

(** X15. Once stored, a listing keeps its seller, its name and both block
    heights along every sequence of transactions; its status only ever
    leaves ["active"], for ["sold"] or ["cancelled"]; and once it is not
    ["active"] the whole record, price and description included, stays as it
    is. *)
Theorem listing_record_evolves s id l txs :
  reachable s →
  Listings s !! id = Some l →
  ∃ l', Listings (run txs s) !! id = Some l' ∧ evolves l l'.
Proof.
  revert s l. induction txs as [|[t c] txs IH]; intros s l Hs Hl.
  - eauto using market_evolves_refl.
  - destruct (market_evolves_exec t c s id l) as (l1 & Hl1 & Hev1);
      [by apply reachable_market_invariant|done|].
    destruct (IH (snd (exec t c s)) l1) as (l' & Hl' & Hev'); [by constructor|done|].
    exists l'. split; [done|]. by apply (market_evolves_trans l l1 l').
Qed.

(** X16. The seller's edits.  [update-listing] and [cancel-listing] both
    check, in this order: the id is not above the counter
    (InvalidListingId), the listing exists (NotFound), the caller is its
    seller (NotSeller), it is ["active"] (InvalidStatus); [update-listing]
    then wants a positive new price (InvalidPrice) and a new description
    that is not empty (InvalidInput; one of more than 256 characters does
    not fit the declared parameter type and never reaches the body, so the
    upper half of that check never fails).  An update replaces the price and
    the description and nothing else; a cancellation sets the status to
    ["cancelled"] and nothing else, and no payment is involved.  A cancelled
    listing can be neither updated nor cancelled again: both answer
    InvalidStatus to the seller. *)
Theorem listing_seller_edits t id new_price new_description s :
  (let result := call_public (update_listing t id new_price new_description) s in
    (last_listing_id s < id →
     result = (Answer (err ERR_INVALID_LISTING_ID), s)) ∧
    (id ≤ last_listing_id s → Listings s !! id = None →
     result = (Answer (err ERR_LISTING_NOT_FOUND), s)) ∧
    (∀ l, id ≤ last_listing_id s → Listings s !! id = Some l →
       (seller l ≠ tx_sender t → result = (Answer (err ERR_NOT_SELLER), s)) ∧
       (seller l = tx_sender t → status l ≠ "active" →
        result = (Answer (err ERR_INVALID_STATUS), s)) ∧
       (seller l = tx_sender t → status l = "active" → new_price = 0 →
        result = (Answer (err ERR_INVALID_PRICE), s)) ∧
       (seller l = tx_sender t → status l = "active" → 0 < new_price →
        len new_description = 0 →
        result = (Answer (err ERR_INVALID_INPUT), s)) ∧
       (seller l = tx_sender t → status l = "active" → 0 < new_price →
        0 < len new_description →
        result =
          (Answer (ok true),
           set_Listings (insert id
             {| seller := seller l; name := name l;
                description := new_description; price := new_price;
                status := status l; created_at := created_at l;
                expires_at := expires_at l |}) s)))) ∧
  (let result := call_public (cancel_listing t id) s in
    (last_listing_id s < id →
     result = (Answer (err ERR_INVALID_LISTING_ID), s)) ∧
    (id ≤ last_listing_id s → Listings s !! id = None →
     result = (Answer (err ERR_LISTING_NOT_FOUND), s)) ∧
    (∀ l, id ≤ last_listing_id s → Listings s !! id = Some l →
       (seller l ≠ tx_sender t → result = (Answer (err ERR_NOT_SELLER), s)) ∧
       (seller l = tx_sender t → status l ≠ "active" →
        result = (Answer (err ERR_INVALID_STATUS), s)) ∧
       (seller l = tx_sender t → status l = "active" →
        ∃ s', result = (Answer (ok true), s') ∧
          Listings s' = <[id := with_status l "cancelled"]> (Listings s) ∧
          last_listing_id s' = last_listing_id s ∧ stx s' = stx s ∧
          ∀ t' p d,
            tx_sender t' = seller l →
            call_public (update_listing t' id p d) s'
              = (Answer (err ERR_INVALID_STATUS), s') ∧
            call_public (cancel_listing t' id) s'
              = (Answer (err ERR_INVALID_STATUS), s')))).
Proof.
  split.
  {
    cbv zeta. unfold call_public, run_body. rewrite update_listing_unfold.
    unfold is_valid_listing_id, is_valid_price, is_valid_string.
    split; [|split].
    - intros Hid. by rewrite (proj2 (N.leb_gt _ _) Hid).
    - intros Hid ->. by rewrite (proj2 (N.leb_le _ _) Hid).
    - intros l Hid ->. rewrite (proj2 (N.leb_le _ _) Hid).
      split; [|split; [|split; [|split]]].
      + intros Hs. by rewrite (proj2 (is_eq_false _ _) Hs).
      + intros Hs Hst. by rewrite (proj2 (is_eq_true _ _) Hs), (proj2 (is_eq_false _ _) Hst).
      + intros Hs Hst ->. by rewrite (proj2 (is_eq_true _ _) Hs), (proj2 (is_eq_true _ _) Hst).
      + intros Hs Hst Hp Hd.
        rewrite (proj2 (is_eq_true _ _) Hs), (proj2 (is_eq_true _ _) Hst).
        rewrite (proj2 (N.ltb_lt _ _) Hp).
        by rewrite (proj2 (N.leb_gt 1 (len new_description))) by lia.
      + intros Hs Hst Hp Hd.
        pose proof (len_fits new_description) as Hfit.
        rewrite (proj2 (is_eq_true _ _) Hs), (proj2 (is_eq_true _ _) Hst).
        rewrite (proj2 (N.ltb_lt _ _) Hp).
        rewrite (proj2 (N.leb_le 1 (len new_description))) by lia.
        by rewrite (proj2 (N.leb_le _ _) Hfit).
  }
  {
    cbv zeta. unfold call_public, run_body. rewrite cancel_listing_unfold.
    unfold is_valid_listing_id.
    split; [|split].
    - intros Hid. by rewrite (proj2 (N.leb_gt _ _) Hid).
    - intros Hid ->. by rewrite (proj2 (N.leb_le _ _) Hid).
    - intros l Hid Hl. rewrite Hl, (proj2 (N.leb_le _ _) Hid).
      split; [|split].
      + intros Hs. by rewrite (proj2 (is_eq_false _ _) Hs).
      + intros Hs Hst. by rewrite (proj2 (is_eq_true _ _) Hs), (proj2 (is_eq_false _ _) Hst).
      + intros Hs Hst.
        rewrite (proj2 (is_eq_true _ _) Hs), (proj2 (is_eq_true _ _) Hst).
        eexists. split; [reflexivity|]. cbn [Listings last_listing_id stx set_Listings].
        split; [done|]. split; [done|]. split; [done|].
        intros t' p d Ht'.
        rewrite update_listing_unfold, cancel_listing_unfold.
        unfold is_valid_listing_id. cbn [Listings last_listing_id set_Listings].
        rewrite (proj2 (N.leb_le _ _) Hid), lookup_insert_eq.
        cbn [seller status with_status].
        rewrite (proj2 (is_eq_true (seller l) (tx_sender t'))) by done.
        split; reflexivity.
  }
Qed.

(** X17. [purchase-listing] checks, in this order: the id is not above the
    counter (InvalidListingId), the listing exists (NotFound), it is
    ["active"] (InvalidStatus), the block height is not past its expiry
    (ListingExpired), the seller is neither the caller nor the contract
    (InvalidSeller: nobody buys their own listing), and then pays: when the
    caller's balance is below the price the answer is InsufficientBalance
    and nothing is written; otherwise the listing becomes ["sold"], the
    caller pays exactly the price, the seller receives exactly the price and
    no other balance moves. *)
Theorem purchase_listing_answers t id s :
  let result := call_public (purchase_listing t id) s in
  (last_listing_id s < id →
   result = (Answer (err ERR_INVALID_LISTING_ID), s)) ∧
  (id ≤ last_listing_id s → Listings s !! id = None →
   result = (Answer (err ERR_LISTING_NOT_FOUND), s)) ∧
  (∀ l, id ≤ last_listing_id s → Listings s !! id = Some l →
     (status l ≠ "active" → result = (Answer (err ERR_INVALID_STATUS), s)) ∧
     (status l = "active" → expires_at l < block_height t →
      result = (Answer (err ERR_LISTING_EXPIRED), s)) ∧
     (status l = "active" → block_height t ≤ expires_at l →
      seller l = tx_sender t ∨ seller l = contract_principal →
      result = (Answer (err ERR_INVALID_SELLER), s)) ∧
     (status l = "active" → block_height t ≤ expires_at l →
      seller l ≠ tx_sender t → seller l ≠ contract_principal →
      price l = 0 ∨ stx_balance (stx s) (tx_sender t) < price l →
      result = (Answer (err ERR_INSUFFICIENT_BALANCE), s)) ∧
     (status l = "active" → block_height t ≤ expires_at l →
      seller l ≠ tx_sender t → seller l ≠ contract_principal →
      0 < price l ≤ stx_balance (stx s) (tx_sender t) →
      ∃ s', result = (Answer (ok true), s') ∧
        Listings s' = <[id := with_status l "sold"]> (Listings s) ∧
        last_listing_id s' = last_listing_id s ∧
        stx_balance (stx s') (tx_sender t) + price l
          = stx_balance (stx s) (tx_sender t) ∧
        stx_balance (stx s') (seller l)
          = stx_balance (stx s) (seller l) + price l ∧
        ∀ p, p ≠ tx_sender t → p ≠ seller l →
             stx_balance (stx s') p = stx_balance (stx s) p)).
Proof.
  cbv zeta. unfold call_public, run_body. rewrite purchase_listing_unfold.
  unfold is_valid_listing_id, is_valid_seller.
  split; [|split].
  - intros Hid. by rewrite (proj2 (N.leb_gt _ _) Hid).
  - intros Hid ->. by rewrite (proj2 (N.leb_le _ _) Hid).
  - intros l Hid ->. rewrite (proj2 (N.leb_le _ _) Hid).
    split; [|split; [|split; [|split]]].
    + intros Hst. by rewrite (proj2 (is_eq_false _ _) Hst).
    + intros Hst Hexp.
      by rewrite (proj2 (is_eq_true _ _) Hst), (proj2 (N.leb_gt _ _) Hexp).
    + intros Hst Hexp Hs.
      rewrite (proj2 (is_eq_true _ _) Hst), (proj2 (N.leb_le _ _) Hexp).
      destruct Hs as [Hs|Hs].
      * by rewrite (proj2 (is_eq_true (seller l) (tx_sender t)) Hs).
      * rewrite (proj2 (is_eq_true (seller l) contract_principal) Hs).
        by rewrite andb_false_r.
    + intros Hst Hexp Hs1 Hs2 Hpay.
      rewrite (proj2 (is_eq_true _ _) Hst), (proj2 (N.leb_le _ _) Hexp).
      rewrite (proj2 (is_eq_false _ _) Hs1), (proj2 (is_eq_false _ _) Hs2).
      cbn [negb andb].
      destruct (stx_transfer _ _ _ _ _) as [ledger|code] eqn:Htr; [|done].
      apply stx_transfer_ok in Htr as (? & _ & _ & ? & _). lia.
    + intros Hst Hexp Hs1 Hs2 [Hp Hbal].
      rewrite (proj2 (is_eq_true _ _) Hst), (proj2 (N.leb_le _ _) Hexp).
      rewrite (proj2 (is_eq_false _ _) Hs1), (proj2 (is_eq_false _ _) Hs2).
      cbn [negb andb].
      destruct (stx_transfer_succeeds (tx_sender t) (price l) (tx_sender t)
                  (seller l) (stx s)) as [ledger Htr]; [done|congruence|done|done|].
      rewrite Htr. eexists. split; [reflexivity|].
      cbn [Listings last_listing_id stx set_Listings set_stx].
      split; [done|]. split; [done|].
      split; [apply (stx_balance_debited _ _ _ _ _ _ Htr)|].
      split; [apply (stx_balance_credited _ _ _ _ _ _ Htr)|].
      intros p Hp1 Hp2. by apply (stx_balance_untouched _ _ _ _ _ _ _ Htr).
Qed.

Lemma market_holds_no_funds_exec t c s :
  tx_sender t ≠ contract_principal →
  stx_balance (stx (snd (exec t c s))) contract_principal
    = stx_balance (stx s) contract_principal.
Proof.
  intros Hsender.
  destruct (market_exec_detail t c s)
    as [->|[(name & description & price & duration & _ & _ & _ & _ & ->)|
       [(id' & l0 & p & d & _ & _ & _ & _ & _ & ->)|
       [(id' & l0 & _ & _ & _ & ->)|
        (id' & l0 & ledger & _ & _ & _ & _ & Hs & Htr & ->)]]]];
    cbn [stx set_Listings set_stx]; try done.
  apply (stx_balance_untouched _ _ _ _ _ _ _ Htr); congruence.
Qed.

(** X18. The marketplace never holds funds: a purchase pays the seller
    directly and refuses a listing whose seller is the contract itself, so
    along every sequence of transactions sent by others the contract's own
    STX balance stays what it was. *)
Theorem market_holds_no_funds txs s :
  Forall (λ tc, tx_sender tc.1 ≠ contract_principal) txs →
  stx_balance (stx (run txs s)) contract_principal
    = stx_balance (stx s) contract_principal.
Proof.
  revert s. induction txs as [|[t c] txs IH]; intros s Hall; [done|].
  apply Forall_cons in Hall as [Ht Hall]. cbn [fst] in Ht.
  change (run ((t, c) :: txs) s) with (run txs (snd (exec t c s))).
  rewrite IH by done. by apply market_holds_no_funds_exec.
Qed.

End MarketFurther.

(** ** UserProfile: registration, ratings, reputation and authorization *)

Section ProfileFurther.

Import UserProfile.

Variable CONTRACT_OWNER : principal.
Variable contract_principal : principal.

Local Abbreviation is_valid_principal := (is_valid_principal contract_principal).
Local Abbreviation rate_user := (rate_user contract_principal).
Local Abbreviation calculate_reputation := (calculate_reputation contract_principal).
Local Abbreviation authorize_user := (authorize_user CONTRACT_OWNER contract_principal).
Local Abbreviation revoke_authorization :=
  (revoke_authorization CONTRACT_OWNER contract_principal).
Local Abbreviation exec := (exec CONTRACT_OWNER contract_principal).
Local Abbreviation initial := (initial CONTRACT_OWNER).
Local Abbreviation reachable := (reachable CONTRACT_OWNER contract_principal).
Local Abbreviation run := (run CONTRACT_OWNER contract_principal).

Lemma is_valid_string_spec {max} (str : string_utf8 max) max_len :
  is_valid_string str max_len = true ↔ 1 ≤ len str ≤ max_len.
Proof.
  unfold is_valid_string. rewrite andb_true_iff, !N.leb_le. tauto.
Qed.

Lemma positive_length_checked n : (0 <? n) = (1 <=? n).
Proof. destruct (N.ltb_spec 0 n), (N.leb_spec 1 n); (reflexivity || lia). Qed.

Lemma register_user_unfold t username bio email s :
  register_user t username bio email s =
  match Users s !! tx_sender t with
  | Some _ => Return (err ERR_ALREADY_REGISTERED) s
  | None =>
    if is_valid_string username 64 && is_valid_string bio 256 &&
       is_valid_string email 64 then
      Next (ok true)
        (set_Users (insert (tx_sender t)
           {| username := username; bio := bio; email := email;
              registration_date := block_height t;
              total_ratings := 0; rating_sum := 0; reputation_score := 0 |}) s)
    else Return (err ERR_INVALID_INPUT) s
  end.
Proof.
  unfold register_user, bind, gets, asserts, Clarity.try, Clarity.call,
    validate_username, validate_bio, validate_email, set_user_data,
    map_set_Users, pure, is_valid_string.
  rewrite !positive_length_checked.
  destruct (Users s !! tx_sender t); [reflexivity|]. cbn [is_none].
  destruct (1 <=? len username), (len username <=? 64), (1 <=? len bio),
    (len bio <=? 256), (1 <=? len email), (len email <=? 64); reflexivity.
Qed.

Lemma update_profile_unfold t bio email s :
  update_profile t bio email s =
  if is_valid_string bio 256 && is_valid_string email 64 then
    match Users s !! tx_sender t with
    | Some u =>
        Next (ok true)
          (set_Users (insert (tx_sender t) (with_bio_email u bio email)) s)
    | None => Next (err ERR_USER_NOT_FOUND) s
    end
  else Return (err ERR_INVALID_INPUT) s.
Proof.
  unfold update_profile, bind, gets, asserts, Clarity.try, Clarity.call,
    validate_bio, validate_email, set_user_data, map_set_Users, pure,
    is_valid_string.
  rewrite !positive_length_checked.
  destruct (1 <=? len bio), (len bio <=? 256), (1 <=? len email),
    (len email <=? 64); try reflexivity.
  cbn. destruct (Users s !! tx_sender t); reflexivity.
Qed.

Lemma rate_user_unfold t who rating s :
  rate_user t who rating s =
  if is_valid_principal who then
    if negb (is_eq (tx_sender t) who) then
      if (1 <=? rating) && (rating <=? 5) then
        match Users s !! who with
        | Some u =>
          match uint_add (total_ratings u) 1 with
          | Some total =>
            match uint_add (rating_sum u) rating with
            | Some sum =>
                Next (ok true) (set_Users (insert who (with_ratings u total sum)) s)
            | None => Fault ArithmeticOverflow
            end
          | None => Fault ArithmeticOverflow
          end
        | None => Next (err ERR_USER_NOT_FOUND) s
        end
      else Return (err ERR_INVALID_RATING) s
    else Return (err ERR_SELF_RATING) s
  else Return (err ERR_INVALID_PRINCIPAL) s.
Proof.
  unfold UserProfile.rate_user, bind, gets, asserts, add, Clarity.call,
    set_user_data, map_set_Users, pure.
  follow_tests.
Qed.

Lemma calculate_reputation_unfold t who s :
  calculate_reputation t who s =
  if is_valid_principal who then
    match Users s !! who with
    | Some u =>
      let avg := if 0 <? total_ratings u then rating_sum u / total_ratings u else 0 in
      match uint_mul avg 20 with
      | Some a =>
        match uint_mul (total_ratings u) 2 with
        | Some b =>
          match uint_add a b with
          | Some r => Next (ok true) (set_Users (insert who (with_reputation u r)) s)
          | None => Fault ArithmeticOverflow
          end
        | None => Fault ArithmeticOverflow
        end
      | None => Fault ArithmeticOverflow
      end
    | None => Next (err ERR_USER_NOT_FOUND) s
    end
  else Return (err ERR_INVALID_PRINCIPAL) s.
Proof.
  unfold UserProfile.calculate_reputation, bind, gets, asserts, add, mul,
    Clarity.call, set_user_data, map_set_Users, pure.
  follow_tests.
Qed.

Lemma authorize_user_unfold t who s :
  authorize_user t who s =
  if is_eq (tx_sender t) CONTRACT_OWNER then
    if is_valid_principal who then
      Next (ok true) (set_UserAuthorization (insert who true) s)
    else Return (err ERR_INVALID_PRINCIPAL) s
  else Return (err ERR_NOT_AUTHORIZED) s.
Proof.
  unfold UserProfile.authorize_user, bind, asserts, map_set_UserAuthorization, pure.
  follow_tests.
Qed.

Lemma revoke_authorization_unfold t who s :
  revoke_authorization t who s =
  if is_eq (tx_sender t) CONTRACT_OWNER then
    if is_valid_principal who then
      Next (ok true) (set_UserAuthorization (insert who false) s)
    else Return (err ERR_INVALID_PRINCIPAL) s
  else Return (err ERR_NOT_AUTHORIZED) s.
Proof.
  unfold UserProfile.revoke_authorization, bind, asserts,
    map_set_UserAuthorization, pure.
  follow_tests.
Qed.

Lemma uint_mul_Some a b n : uint_mul a b = Some n → n = a * b ∧ a * b ≤ UINT_MAX.
Proof.
  unfold uint_mul. destruct (N.leb_spec (a * b) UINT_MAX); [|done].
  intros [= <-]. done.
Qed.

(** X19. [register-user] refuses a caller who already has a profile
    (AlreadyRegistered), then an empty username, bio or email
    (InvalidInput).  Otherwise it stores a profile for the caller with the
    block height as registration date and no ratings and no reputation.
    The upper halves of the length checks never fail: a username or email of
    more than 64 or a bio of more than 256 characters does not fit the
    declared parameter types and never reaches the body. *)
Theorem register_user_answers t username bio email s :
  let result := call_public (register_user t username bio email) s in
  (∀ u, Users s !! tx_sender t = Some u →
     result = (Answer (err ERR_ALREADY_REGISTERED), s)) ∧
  (Users s !! tx_sender t = None →
   len username = 0 ∨ len bio = 0 ∨ len email = 0 →
   result = (Answer (err ERR_INVALID_INPUT), s)) ∧
  (Users s !! tx_sender t = None →
   0 < len username → 0 < len bio → 0 < len email →
   result =
     (Answer (ok true),
      {| Users :=
           <[tx_sender t :=
               {| username := username; bio := bio; email := email;
                  registration_date := block_height t;
                  total_ratings := 0; rating_sum := 0;
                  reputation_score := 0 |}]> (Users s);
         UserAuthorization := UserAuthorization s |})) ∧
  is_valid_string username 64 = (1 <=? len username) ∧
  is_valid_string bio 256 = (1 <=? len bio) ∧
  is_valid_string email 64 = (1 <=? len email).
Proof.
  cbv zeta.
  pose proof (len_fits username) as Hu. pose proof (len_fits bio) as Hb.
  pose proof (len_fits email) as He.
  assert (is_valid_string username 64 = (1 <=? len username)) as Hvu.
  { unfold is_valid_string.
    by rewrite (proj2 (N.leb_le (len username) 64) Hu), andb_true_r. }
  assert (is_valid_string bio 256 = (1 <=? len bio)) as Hvb.
  { unfold is_valid_string.
    by rewrite (proj2 (N.leb_le (len bio) 256) Hb), andb_true_r. }
  assert (is_valid_string email 64 = (1 <=? len email)) as Hve.
  { unfold is_valid_string.
    by rewrite (proj2 (N.leb_le (len email) 64) He), andb_true_r. }
  unfold call_public, run_body. rewrite register_user_unfold, Hvu, Hvb, Hve.
  split; [|split; [|split; [|done]]].
  - intros u ->. done.
  - intros -> Hbad.
    destruct (N.leb_spec 1 (len username)), (N.leb_spec 1 (len bio)),
      (N.leb_spec 1 (len email)); try done; lia.
  - intros -> Hu' Hb' He'.
    rewrite (proj2 (N.leb_le 1 (len username))) by lia.
    rewrite (proj2 (N.leb_le 1 (len bio))) by lia.
    rewrite (proj2 (N.leb_le 1 (len email))) by lia. done.
Qed.

(** X20. [update-profile] refuses an empty bio and an empty email
    (InvalidInput), then a caller without a profile (UserNotFound).
    Otherwise it replaces the bio and the email of the caller's own profile
    and nothing else: username, registration date, ratings and reputation
    are kept, and no other profile is touched.  A bio of more than 256 or an
    email of more than 64 characters does not fit the declared parameter
    types and never reaches the body. *)
Theorem update_profile_answers t bio email s :
  let result := call_public (update_profile t bio email) s in
  (len bio = 0 ∨ len email = 0 →
   result = (Answer (err ERR_INVALID_INPUT), s)) ∧
  (0 < len bio → 0 < len email → Users s !! tx_sender t = None →
   result = (Answer (err ERR_USER_NOT_FOUND), s)) ∧
  (∀ u, 0 < len bio → 0 < len email →
     Users s !! tx_sender t = Some u →
     result =
       (Answer (ok true),
        {| Users :=
             <[tx_sender t :=
                 {| username := username u; bio := bio; email := email;
                    registration_date := registration_date u;
                    total_ratings := total_ratings u;
                    rating_sum := rating_sum u;
                    reputation_score := reputation_score u |}]> (Users s);
           UserAuthorization := UserAuthorization s |}) ∧
     ∀ p, p ≠ tx_sender t →
       Users (snd result) !! p = Users s !! p).
Proof.
  cbv zeta.
  pose proof (len_fits bio) as Hb. pose proof (len_fits email) as He.
  assert (is_valid_string bio 256 = (1 <=? len bio)) as Hvb.
  { unfold is_valid_string.
    by rewrite (proj2 (N.leb_le (len bio) 256) Hb), andb_true_r. }
  assert (is_valid_string email 64 = (1 <=? len email)) as Hve.
  { unfold is_valid_string.
    by rewrite (proj2 (N.leb_le (len email) 64) He), andb_true_r. }
  unfold call_public, run_body. rewrite update_profile_unfold, Hvb, Hve.
  split; [|split].
  - intros Hbad.
    destruct (N.leb_spec 1 (len bio)), (N.leb_spec 1 (len email));
      try done; lia.
  - intros Hb' He' ->.
    rewrite (proj2 (N.leb_le 1 (len bio))) by lia.
    rewrite (proj2 (N.leb_le 1 (len email))) by lia. done.
  - intros u Hb' He' ->.
    rewrite (proj2 (N.leb_le 1 (len bio))) by lia.
    rewrite (proj2 (N.leb_le 1 (len email))) by lia.
    split; [done|]. intros p Hp. cbn [andb snd Users set_Users].
    by rewrite lookup_insert_ne by done.
Qed.

(** X21. [rate-user] checks, in this order: the rated principal is not the
    contract (InvalidPrincipal), is not the caller (SelfRating), the rating
    is between 1 and 5 (InvalidRating), the rated principal has a profile
    (UserNotFound).  Then it adds one to the number of ratings and the
    rating to the sum, and touches nothing else.  The caller needs no
    profile, and nothing keeps the same caller from rating again: a second
    identical call counts a second time. *)
Theorem rate_user_answers t who rating s :
  let result := call_public (rate_user t who rating) s in
  (who = contract_principal →
   result = (Answer (err ERR_INVALID_PRINCIPAL), s)) ∧
  (who ≠ contract_principal → who = tx_sender t →
   result = (Answer (err ERR_SELF_RATING), s)) ∧
  (who ≠ contract_principal → who ≠ tx_sender t → rating = 0 ∨ 5 < rating →
   result = (Answer (err ERR_INVALID_RATING), s)) ∧
  (who ≠ contract_principal → who ≠ tx_sender t → 1 ≤ rating ≤ 5 →
   Users s !! who = None →
   result = (Answer (err ERR_USER_NOT_FOUND), s)) ∧
  (∀ u, who ≠ contract_principal → who ≠ tx_sender t → 1 ≤ rating ≤ 5 →
     Users s !! who = Some u →
     rating_sum u + 2 * rating ≤ UINT_MAX → total_ratings u + 2 ≤ UINT_MAX →
     ∃ s1 s2,
       result = (Answer (ok true), s1) ∧
       Users s1 = <[who := with_ratings u (total_ratings u + 1)
                             (rating_sum u + rating)]> (Users s) ∧
       UserAuthorization s1 = UserAuthorization s ∧
       call_public (rate_user t who rating) s1 = (Answer (ok true), s2) ∧
       Users s2 !! who = Some (with_ratings u (total_ratings u + 2)
                                 (rating_sum u + 2 * rating))).
Proof.
  cbv zeta. unfold call_public, run_body. rewrite !rate_user_unfold.
  unfold UserProfile.is_valid_principal.
  split; [|split; [|split; [|split]]].
  - intros ->. by rewrite (proj2 (is_eq_true _ _)) by done.
  - intros Hc ->. rewrite (proj2 (is_eq_false _ _) Hc).
    by rewrite (proj2 (is_eq_true _ _)) by done.
  - intros Hc Hs Hr. rewrite (proj2 (is_eq_false _ _) Hc).
    rewrite (proj2 (is_eq_false (tx_sender t) who)) by congruence. cbn [negb].
    destruct Hr as [->|Hr]; [done|].
    rewrite (proj2 (N.leb_gt _ 5) Hr). by rewrite andb_false_r.
  - intros Hc Hs [Hr1 Hr2] ->. rewrite (proj2 (is_eq_false _ _) Hc).
    rewrite (proj2 (is_eq_false (tx_sender t) who)) by congruence. cbn [negb].
    by rewrite (proj2 (N.leb_le _ _) Hr1), (proj2 (N.leb_le _ _) Hr2).
  - intros u Hc Hs [Hr1 Hr2] Hu Hsum Htotal.
    assert (Hadd : ∀ a b, a + b ≤ UINT_MAX → uint_add a b = Some (a + b)).
    { intros a b Hab. unfold uint_add. by rewrite (proj2 (N.leb_le _ _) Hab). }
    rewrite (proj2 (is_eq_false _ _) Hc).
    rewrite (proj2 (is_eq_false (tx_sender t) who)) by congruence. cbn [negb].
    rewrite (proj2 (N.leb_le _ _) Hr1), (proj2 (N.leb_le _ _) Hr2). cbn [andb].
    rewrite Hu, !Hadd by lia.
    eexists _, _. split; [reflexivity|].
    cbn [Users UserAuthorization set_Users].
    split; [done|]. split; [done|].
    rewrite rate_user_unfold. unfold UserProfile.is_valid_principal.
    rewrite (proj2 (is_eq_false _ _) Hc).
    rewrite (proj2 (is_eq_false (tx_sender t) who)) by congruence. cbn [negb].
    rewrite (proj2 (N.leb_le _ _) Hr1), (proj2 (N.leb_le _ _) Hr2).
    cbn [andb Users set_Users].
    rewrite lookup_insert_eq.
    cbn [total_ratings rating_sum with_ratings].
    rewrite !Hadd by lia.
    split; [reflexivity|]. cbn [Users set_Users].
    rewrite lookup_insert_eq. unfold with_ratings. cbn. f_equal. f_equal; lia.
Qed.

(** *** What each transaction writes *)

Lemma profile_exec_detail t c s :
  let s' := snd (exec t c s) in
  s' = s ∨
  (∃ username bio email,
     Users s !! tx_sender t = None ∧
     1 ≤ len username ≤ 64 ∧ 1 ≤ len bio ≤ 256 ∧ 1 ≤ len email ≤ 64 ∧
     s' = set_Users (insert (tx_sender t)
            {| username := username; bio := bio; email := email;
               registration_date := block_height t;
               total_ratings := 0; rating_sum := 0; reputation_score := 0 |}) s) ∨
  (∃ who u u',
     Users s !! who = Some u ∧
     s' = set_Users (insert who u') s ∧
     ((∃ bio email, who = tx_sender t ∧ 1 ≤ len bio ≤ 256 ∧ 1 ≤ len email ≤ 64 ∧
                    u' = with_bio_email u bio email) ∨
      (∃ rating, who ≠ tx_sender t ∧ who ≠ contract_principal ∧ 1 ≤ rating ≤ 5 ∧
                 u' = with_ratings u (total_ratings u + 1) (rating_sum u + rating)) ∨
      (who ≠ contract_principal ∧ u' = with_reputation u (reputation_of u)))) ∨
  (∃ who flag,
     tx_sender t = CONTRACT_OWNER ∧ who ≠ contract_principal ∧
     s' = set_UserAuthorization (insert who flag) s).
Proof.
  destruct c as [username bio email|bio email|who rating|who|who|who];
    unfold UserProfile.exec; cbv zeta.
  - destruct (call_public_cases (register_user t username bio email) s)
      as [(a & s' & Hbody & ->)|[_ Hsame]]; cbn [answer_value snd].
    + right; left. unfold run_body in Hbody.
      rewrite register_user_unfold in Hbody.
      destruct (Users s !! tx_sender t) eqn:Hu; [done|].
      destruct (is_valid_string username 64 && is_valid_string bio 256 &&
                is_valid_string email 64) eqn:Hvalid; [|done].
      rewrite !andb_true_iff, !is_valid_string_spec in Hvalid.
      simplify_eq. eexists _, _, _. repeat split; try done; lia.
    + left. destruct (call_public _ s) as [[r|r] s0]; simpl in *; by subst.
  - destruct (call_public_cases (update_profile t bio email) s)
      as [(a & s' & Hbody & ->)|[_ Hsame]]; cbn [answer_value snd].
    + right; right; left. unfold run_body in Hbody.
      rewrite update_profile_unfold in Hbody.
      destruct (is_valid_string bio 256 && is_valid_string email 64) eqn:Hvalid;
        [|done].
      rewrite !andb_true_iff, !is_valid_string_spec in Hvalid.
      destruct (Users s !! tx_sender t) as [u|] eqn:Hu; [|done].
      simplify_eq. eexists _, u, _. split; [done|]. split; [done|].
      left. eexists _, _. repeat split; try done; lia.
    + left. destruct (call_public _ s) as [[r|r] s0]; simpl in *; by subst.
  - destruct (call_public_cases (rate_user t who rating) s)
      as [(a & s' & Hbody & ->)|[_ Hsame]]; cbn [answer_value snd].
    + right; right; left. unfold run_body in Hbody.
      rewrite rate_user_unfold in Hbody.
      unfold UserProfile.is_valid_principal in Hbody.
      repeat case_match; simplify_eq; reflect_bools.
      repeat match goal with H : uint_add _ _ = Some _ |- _ =>
        apply uint_add_Some in H; destruct H as [-> ?] end.
      eexists _, _, _. split; [done|]. split; [done|].
      right; left. exists rating. repeat split; try done; try lia; congruence.
    + left. destruct (call_public _ s) as [[r|r] s0]; simpl in *; by subst.
  - destruct (call_public_cases (calculate_reputation t who) s)
      as [(a & s' & Hbody & ->)|[_ Hsame]]; cbn [answer_value snd].
    + right; right; left. unfold run_body in Hbody.
      rewrite calculate_reputation_unfold in Hbody.
      unfold UserProfile.is_valid_principal in Hbody. cbv zeta in Hbody.
      destruct (negb (is_eq who contract_principal)) eqn:Hc; [|done].
      destruct (Users s !! who) as [u|] eqn:Hu; [|done].
      destruct (uint_mul _ 20) as [a0|] eqn:Ha; [|done].
      destruct (uint_mul _ 2) as [b0|] eqn:Hb; [|done].
      destruct (uint_add a0 b0) as [r|] eqn:Hr; [|done].
      apply uint_mul_Some in Ha as [-> _]. apply uint_mul_Some in Hb as [-> _].
      apply uint_add_Some in Hr as [-> _]. reflect_bools. simplify_eq.
      eexists _, u, _. split; [done|]. split; [done|].
      right; right. split; [done|]. reflexivity.
    + left. destruct (call_public _ s) as [[r|r] s0]; simpl in *; by subst.
  - destruct (call_public_cases (authorize_user t who) s)
      as [(a & s' & Hbody & ->)|[_ Hsame]]; cbn [answer_value snd].
    + right; right; right. unfold run_body in Hbody.
      rewrite authorize_user_unfold in Hbody.
      unfold UserProfile.is_valid_principal in Hbody.
      repeat case_match; simplify_eq; reflect_bools.
      eexists _, _. repeat split; done.
    + left. destruct (call_public _ s) as [[r|r] s0]; simpl in *; by subst.
  - destruct (call_public_cases (revoke_authorization t who) s)
      as [(a & s' & Hbody & ->)|[_ Hsame]]; cbn [answer_value snd].
    + right; right; right. unfold run_body in Hbody.
      rewrite revoke_authorization_unfold in Hbody.
      unfold UserProfile.is_valid_principal in Hbody.
      repeat case_match; simplify_eq; reflect_bools.
      eexists _, _. repeat split; done.
    + left. destruct (call_public _ s) as [[r|r] s0]; simpl in *; by subst.
Qed.

(** *** The shape of the profiles *)

Lemma average_rating_bounds total sum :
  0 < total → total ≤ sum ≤ 5 * total → 1 ≤ sum / total ≤ 5.
Proof.
  intros Hpos [Hlow Hhigh]. split.
  - apply N.div_le_lower_bound; lia.
  - apply N.Div0.div_le_upper_bound; lia.
Qed.

Lemma reputation_of_bound u :
  total_ratings u ≤ rating_sum u ≤ 5 * total_ratings u →
  reputation_of u ≤ 100 + 2 * total_ratings u.
Proof.
  intros Hsum. unfold reputation_of.
  destruct (N.ltb_spec 0 (total_ratings u)) as [Hpos|Hzero]; [|lia].
  pose proof (average_rating_bounds _ _ Hpos Hsum). lia.
Qed.

Lemma user_ok_exec t c s :
  (∀ who u, Users s !! who = Some u → user_ok u) →
  ∀ who u, Users (snd (exec t c s)) !! who = Some u → user_ok u.
Proof.
  intros Hok who u.
  destruct (profile_exec_detail t c s)
    as [->|[(username & bio & email & _ & Hu & Hb & He & ->)|
       [(who' & u0 & u' & Hu0 & -> & Hedit)|(who' & flag & _ & _ & ->)]]];
    cbn [Users set_Users set_UserAuthorization]; try apply Hok.
  - destruct (decide (who = tx_sender t)) as [->|Hne].
    + rewrite lookup_insert_eq. intros [= <-]. unfold user_ok. cbn. lia.
    + rewrite lookup_insert_ne by done. apply Hok.
  - destruct (decide (who = who')) as [->|Hne].
    + rewrite lookup_insert_eq. intros [= <-].
      destruct (Hok _ _ Hu0) as (Hu & Hb & He & Hsum & Hrep).
      destruct Hedit as [(bio & email & _ & Hb' & He' & ->)|
                         [(rating & _ & _ & Hr & ->)|[_ ->]]];
        unfold user_ok; cbn.
      * lia.
      * lia.
      * pose proof (reputation_of_bound u0 Hsum). lia.
    + rewrite lookup_insert_ne by done. apply Hok.
Qed.

Lemma reachable_user_ok s :
  reachable s → ∀ who u, Users s !! who = Some u → user_ok u.
Proof.
  induction 1 as [|s t c _ IH].
  - intros who u. unfold UserProfile.initial. cbn [Users].
    by rewrite lookup_empty.
  - by apply user_ok_exec.
Qed.

(** X22. Every profile in a reachable store has a username and an email of
    1 to 64 and a bio of 1 to 256 characters; its rating sum lies between
    one and five times its number of ratings; and its reputation score is at
    most 100 plus twice its number of ratings.  [get-user-rating] therefore
    answers 0 for a user nobody rated and a value from 1 to 5 for every
    other user. *)
Theorem user_record_shape s who u :
  reachable s →
  Users s !! who = Some u →
  user_ok u ∧
  ∃ r, get_user_rating who s = ok r ∧
       (total_ratings u = 0 ∧ r = 0 ∨ 0 < total_ratings u ∧ 1 ≤ r ≤ 5).
Proof.
  intros Hs Hu. pose proof (reachable_user_ok s Hs who u Hu) as Hok.
  split; [done|]. destruct Hok as (_ & _ & _ & Hsum & _).
  unfold get_user_rating. rewrite Hu. cbv zeta.
  destruct (N.ltb_spec 0 (total_ratings u)) as [Hpos|Hzero].
  - eexists. split; [reflexivity|]. right. split; [done|].
    by apply average_rating_bounds.
  - exists 0. split; [reflexivity|]. left. split; [lia|done].
Qed.

Lemma profile_evolves_exec t c s who u :
  Users s !! who = Some u →
  ∃ u', Users (snd (exec t c s)) !! who = Some u' ∧ evolves u u'.
Proof.
  intros Hu.
  assert (Hrefl : evolves u u) by (unfold evolves; repeat split; lia).
  destruct (profile_exec_detail t c s)
    as [->|[(username & bio & email & Hnone & _ & _ & _ & ->)|
       [(who' & u0 & u' & Hu0 & -> & Hedit)|(who' & flag & _ & _ & ->)]]];
    cbn [Users set_Users set_UserAuthorization]; eauto.
  - exists u. split; [|done]. rewrite lookup_insert_ne; [done|]. congruence.
  - destruct (decide (who' = who)) as [->|Hne].
    + rewrite lookup_insert_eq. simplify_eq. eexists. split; [done|].
      destruct Hedit as [(bio & email & _ & _ & _ & ->)|
                         [(rating & _ & _ & _ & ->)|[_ ->]]];
        unfold evolves; cbn; repeat split; lia.
    + rewrite lookup_insert_ne by done. eauto.
Qed.

(** X23. A profile is never deleted, its username and registration date
    never change, and its number of ratings and rating sum never decrease,
    whatever transactions follow.  Registration is therefore once and for
    all: every later [register-user] by the same principal answers
    AlreadyRegistered. *)
Theorem user_record_evolves s who u txs :
  Users s !! who = Some u →
  ∃ u', Users (run txs s) !! who = Some u' ∧ evolves u u' ∧
        ∀ t username bio email,
          tx_sender t = who →
          call_public (register_user t username bio email) (run txs s)
            = (Answer (err ERR_ALREADY_REGISTERED), run txs s).
Proof.
  revert s u. induction txs as [|[t c] txs IH]; intros s u Hu.
  - exists u. split; [done|]. split; [unfold evolves; repeat split; lia|].
    intros t username bio email <-.
    unfold call_public, run_body. rewrite register_user_unfold.
    change (run [] s) with s. by rewrite Hu.
  - destruct (profile_evolves_exec t c s who u Hu) as (u1 & Hu1 & Hev1).
    destruct (IH (snd (exec t c s)) u1 Hu1) as (u' & Hu' & Hev' & Hreg).
    exists u'. split; [done|]. split; [|done].
    unfold evolves in *. destruct Hev1 as (Hn1 & Hd1 & ? & ?).
    destruct Hev' as (Hn' & Hd' & ? & ?).
    repeat split; [congruence|congruence|lia|lia].
Qed.

(** X24. [calculate-reputation] may be called by anyone for any principal
    but the contract (InvalidPrincipal) that has a profile (UserNotFound).
    It stores twenty times the average rating, rounded down, plus twice the
    number of ratings as the reputation score, and changes nothing else; a
    score that does not fit a [uint] aborts the transaction. *)
Theorem calculate_reputation_answers t who s :
  let result := call_public (calculate_reputation t who) s in
  (who = contract_principal →
   result = (Answer (err ERR_INVALID_PRINCIPAL), s)) ∧
  (who ≠ contract_principal → Users s !! who = None →
   result = (Answer (err ERR_USER_NOT_FOUND), s)) ∧
  (∀ u, who ≠ contract_principal → Users s !! who = Some u →
     UINT_MAX < reputation_of u →
     result = (Aborted ArithmeticOverflow, s)) ∧
  (∀ u, who ≠ contract_principal → Users s !! who = Some u →
     reputation_of u ≤ UINT_MAX →
     result =
       (Answer (ok true),
        {| Users :=
             <[who := {| username := username u; bio := bio u; email := email u;
                         registration_date := registration_date u;
                         total_ratings := total_ratings u;
                         rating_sum := rating_sum u;
                         reputation_score := reputation_of u |}]> (Users s);
           UserAuthorization := UserAuthorization s |})).
Proof.
  cbv zeta. unfold call_public, run_body. rewrite calculate_reputation_unfold.
  unfold UserProfile.is_valid_principal. cbv zeta.
  split; [|split; [|split]].
  - intros ->. by rewrite (proj2 (is_eq_true _ _)) by done.
  - intros Hc ->. by rewrite (proj2 (is_eq_false _ _) Hc).
  - intros u Hc -> Hbig. rewrite (proj2 (is_eq_false _ _) Hc). cbn [negb].
    unfold reputation_of in Hbig. unfold uint_mul, uint_add.
    destruct (N.leb_spec
      ((if 0 <? total_ratings u then rating_sum u / total_ratings u else 0) * 20)
      UINT_MAX); [|done].
    destruct (N.leb_spec (total_ratings u * 2) UINT_MAX); [|done].
    by rewrite (proj2 (N.leb_gt _ _) Hbig).
  - intros u Hc -> Hfits. rewrite (proj2 (is_eq_false _ _) Hc). cbn [negb].
    unfold reputation_of in *. unfold uint_mul, uint_add.
    rewrite (proj2 (N.leb_le
      ((if 0 <? total_ratings u then rating_sum u / total_ratings u else 0) * 20)
      UINT_MAX)) by lia.
    rewrite (proj2 (N.leb_le (total_ratings u * 2) UINT_MAX)) by lia.
    by rewrite (proj2 (N.leb_le _ _) Hfits).
Qed.

(** X25. Only the contract owner changes the authorization map, and the map
    itself is never consulted: whatever it holds, the owner's
    [authorize-user] and [revoke-authorization] succeed for every principal
    but the contract (InvalidPrincipal), everybody else's answer
    NotAuthorized, and no transaction of another sender changes any
    authorization.  [is-user-authorized] answers the flag set last, [false]
    for a principal never set; at deployment only the owner is
    authorized. *)
Theorem authorization_owner_only t who s :
  (is_user_authorized CONTRACT_OWNER initial = ok true ∧
   ∀ p, p ≠ CONTRACT_OWNER → is_user_authorized p initial = ok false) ∧
  (tx_sender t ≠ CONTRACT_OWNER →
   call_public (authorize_user t who) s = (Answer (err ERR_NOT_AUTHORIZED), s) ∧
   call_public (revoke_authorization t who) s
     = (Answer (err ERR_NOT_AUTHORIZED), s) ∧
   ∀ c, UserAuthorization (snd (exec t c s)) = UserAuthorization s) ∧
  (tx_sender t = CONTRACT_OWNER → who = contract_principal →
   call_public (authorize_user t who) s
     = (Answer (err ERR_INVALID_PRINCIPAL), s) ∧
   call_public (revoke_authorization t who) s
     = (Answer (err ERR_INVALID_PRINCIPAL), s)) ∧
  (tx_sender t = CONTRACT_OWNER → who ≠ contract_principal →
   ∃ s1 s2,
     call_public (authorize_user t who) s = (Answer (ok true), s1) ∧
     call_public (revoke_authorization t who) s = (Answer (ok true), s2) ∧
     is_user_authorized who s1 = ok true ∧
     is_user_authorized who s2 = ok false ∧
     Users s1 = Users s ∧ Users s2 = Users s ∧
     ∀ p, p ≠ who →
       is_user_authorized p s1 = is_user_authorized p s ∧
       is_user_authorized p s2 = is_user_authorized p s).
Proof.
  split; [|split; [|split]].
  - unfold is_user_authorized, UserProfile.initial. cbn [UserAuthorization].
    split; [by rewrite lookup_singleton_eq|].
    intros p Hp. by rewrite lookup_singleton_ne.
  - intros Ht. unfold call_public, run_body.
    rewrite authorize_user_unfold, revoke_authorization_unfold.
    rewrite (proj2 (is_eq_false _ _) Ht). split; [done|]. split; [done|].
    intros c.
    destruct (profile_exec_detail t c s)
      as [->|[(username & bio & email & _ & _ & _ & _ & ->)|
         [(who' & u0 & u' & _ & -> & _)|(who' & flag & Howner & _ & _)]]];
      done.
  - intros Ht ->. unfold call_public, run_body.
    rewrite authorize_user_unfold, revoke_authorization_unfold.
    rewrite (proj2 (is_eq_true _ _) Ht). unfold UserProfile.is_valid_principal.
    rewrite (proj2 (is_eq_true contract_principal contract_principal)) by done.
    done.
  - intros Ht Hc. unfold call_public, run_body.
    rewrite authorize_user_unfold, revoke_authorization_unfold.
    rewrite (proj2 (is_eq_true _ _) Ht). unfold UserProfile.is_valid_principal.
    rewrite (proj2 (is_eq_false _ _) Hc). cbn [negb].
    eexists _, _. split; [reflexivity|]. split; [reflexivity|].
    unfold is_user_authorized.
    cbn [UserAuthorization Users set_UserAuthorization].
    rewrite !lookup_insert_eq. repeat split; try done.
    all: by rewrite lookup_insert_ne by done.
Qed.

(** X26. Of the eleven error constants the contract declares, four are never
    the answer of any transaction: DataStoreFailure (106), since [map-set]
    cannot fail, and InvalidUsername (108), InvalidBio (109) and
    InvalidEmail (110), since the length checks that come first answer
    InvalidInput (105) for the same inputs. *)
Theorem profile_error_codes t c s code :
  answers_code (fst (exec t c s)) code →
  code = 100 ∨ code = 101 ∨ code = 102 ∨ code = 103 ∨ code = 104 ∨
  code = 105 ∨ code = 107.
Proof.
  unfold answers_code.
  destruct c as [username bio email|bio email|who rating|who|who|who];
    unfold UserProfile.exec, call_public, run_body.
  - rewrite register_user_unfold.
    destruct (Users s !! tx_sender t);
      [|destruct (is_valid_string username 64 && is_valid_string bio 256 &&
                  is_valid_string email 64)];
      cbn; intros [= <-]; tauto.
  - rewrite update_profile_unfold.
    destruct (is_valid_string bio 256 && is_valid_string email 64);
      [destruct (Users s !! tx_sender t)|]; cbn; intros [= <-]; tauto.
  - rewrite rate_user_unfold.
    destruct (is_valid_principal who), (negb (is_eq (tx_sender t) who)),
      ((1 <=? rating) && (rating <=? 5)); try (cbn; intros [= <-]; tauto).
    destruct (Users s !! who) as [u|]; [|cbn; intros [= <-]; tauto].
    destruct (uint_add (total_ratings u) 1); [|done].
    destruct (uint_add (rating_sum u) rating); done.
  - rewrite calculate_reputation_unfold. cbv zeta.
    destruct (is_valid_principal who); [|cbn; intros [= <-]; tauto].
    destruct (Users s !! who) as [u|]; [|cbn; intros [= <-]; tauto].
    destruct (uint_mul _ 20) as [a|]; [|done].
    destruct (uint_mul _ 2) as [b|]; [|done].
    destruct (uint_add a b); done.
  - rewrite authorize_user_unfold.
    destruct (is_eq (tx_sender t) CONTRACT_OWNER), (is_valid_principal who);
      cbn; intros [= <-]; tauto.
  - rewrite revoke_authorization_unfold.
    destruct (is_eq (tx_sender t) CONTRACT_OWNER), (is_valid_principal who);
      cbn; intros [= <-]; tauto.
Qed.

End ProfileFurther.

(** ** Strade Token: supply, transfers, minting and the pause switch *)

Ltac decide_tests :=
  repeat match goal with
  | H : ?a = ?b |- context [is_eq ?a ?b] => rewrite (proj2 (is_eq_true a b) H)
  | H : ?a ≠ ?b |- context [is_eq ?a ?b] => rewrite (proj2 (is_eq_false a b) H)
  | H : ?a < ?b |- context [?a <? ?b] => rewrite (proj2 (N.ltb_lt a b) H)
  | H : ?a ≤ ?b |- context [?a <=? ?b] => rewrite (proj2 (N.leb_le a b) H)
  | H : ?b < ?a |- context [?a <=? ?b] => rewrite (proj2 (N.leb_gt a b) H)
  | H : ?b ≤ ?a |- context [?a <? ?b] => rewrite (proj2 (N.ltb_ge a b) H)
  | H : 0 < ?a |- context [?a =? 0] => rewrite (proj2 (N.eqb_neq a 0)) by lia
  end.

Section TokenFurther.

Import StradeToken.

Variable CONTRACT_OWNER : principal.
Variable contract_principal : principal.

Local Abbreviation transfer := (transfer contract_principal).
Local Abbreviation mint := (mint CONTRACT_OWNER contract_principal).
Local Abbreviation set_token_uri := (set_token_uri CONTRACT_OWNER).
Local Abbreviation pause_contract := (pause_contract CONTRACT_OWNER).
Local Abbreviation unpause_contract := (unpause_contract CONTRACT_OWNER).
Local Abbreviation exec := (exec CONTRACT_OWNER contract_principal).
Local Abbreviation initial := (initial CONTRACT_OWNER).
Local Abbreviation reachable := (reachable CONTRACT_OWNER contract_principal).
Local Abbreviation run := (run CONTRACT_OWNER contract_principal).

(** X27. [transfer] checks, in this order: the contract is not paused
    (ContractPaused), the caller is the sender (NotAuthorized), the amount
    is positive (InvalidAmount) and within the sender's balance
    (InsufficientBalance), the recipient is not the contract
    (InvalidRecipient).  A transfer to oneself passes all of them and then
    answers the bare code 2 of [ft-transfer?], which is none of the
    contract's own codes.  Any other transfer moves exactly the amount from
    the sender to the recipient and touches no other balance and not the
    supply. *)
Theorem transfer_answers t amount sender recipient s :
  let result := call_token (transfer t amount sender recipient) s in
  (contract_paused s = true → result = (Answered ERR_CONTRACT_PAUSED, s)) ∧
  (contract_paused s = false → tx_sender t ≠ sender →
   result = (Answered ERR_NOT_AUTHORIZED, s)) ∧
  (contract_paused s = false → tx_sender t = sender → amount = 0 →
   result = (Answered ERR_INVALID_AMOUNT, s)) ∧
  (contract_paused s = false → tx_sender t = sender → 0 < amount →
   ft_get_balance sender s < amount →
   result = (Answered ERR_INSUFFICIENT_BALANCE, s)) ∧
  (contract_paused s = false → tx_sender t = sender → 0 < amount →
   amount ≤ ft_get_balance sender s → recipient = contract_principal →
   result = (Answered ERR_INVALID_RECIPIENT, s)) ∧
  (contract_paused s = false → tx_sender t = sender → 0 < amount →
   amount ≤ ft_get_balance sender s → recipient ≠ contract_principal →
   recipient = sender →
   result = (Answered (err 2), s)) ∧
  (contract_paused s = false → tx_sender t = sender → 0 < amount →
   amount ≤ ft_get_balance sender s → recipient ≠ contract_principal →
   recipient ≠ sender →
   ∃ s', result = (Answered (ok true), s') ∧
     ft_get_balance sender s' + amount = ft_get_balance sender s ∧
     ft_get_balance recipient s' = ft_get_balance recipient s + amount ∧
     (∀ p, p ≠ sender → p ≠ recipient → ft_get_balance p s' = ft_get_balance p s) ∧
     bst_supply s' = bst_supply s ∧ contract_paused s' = false ∧
     token_uri s' = token_uri s).
Proof.
  cbv zeta.
  unfold call_token, StradeToken.transfer, bind, gets, asserts, ft_transfer,
    try_response, pure, is_contract_not_paused, is_valid_recipient.
  split; [|split; [|split; [|split; [|split; [|split]]]]].
  - intros ->. done.
  - intros -> Ht. cbn [negb]. by decide_tests.
  - intros -> Ht ->. cbn [negb]. by decide_tests.
  - intros -> Ht Ha Hbal. cbn [negb]. by decide_tests.
  - intros -> Ht Ha Hbal Hr. cbn [negb]. by decide_tests.
  - intros -> Ht Ha Hbal Hc Hr. cbn [negb]. decide_tests. cbn [negb].
    rewrite (proj2 (is_eq_true sender recipient)) by done. done.
  - intros Hp Ht Ha Hbal Hc Hr. rewrite Hp. cbn [negb]. decide_tests. cbn [negb].
    rewrite (proj2 (is_eq_false sender recipient)) by done.
    rewrite (proj2 (N.ltb_ge _ _) Hbal).
    eexists. split; [reflexivity|].
    unfold ft_get_balance in *. cbn [bst bst_supply contract_paused token_uri].
    rewrite lookup_insert_eq.
    rewrite (lookup_insert_ne _ recipient sender) by done.
    rewrite lookup_insert_eq. cbn [default from_option id].
    split; [lia|]. split; [done|]. split; [|done].
    intros p Hp1 Hp2. by rewrite !lookup_insert_ne by done.
Qed.

(** X28. [mint] checks, in this order: the contract is not paused
    (ContractPaused), the caller is the owner (OwnerOnly), the amount is
    positive (InvalidAmount), the recipient is not the contract
    (InvalidRecipient), amount plus supply is at most MAX_SUPPLY
    (MaxSupplyReached).  But the token itself is capped at a tenth of
    MAX_SUPPLY: a mint that passes every check and would take the supply
    above 1000000000000 aborts the transaction.  A mint therefore succeeds
    exactly when the new supply stays within the cap of the token, and never
    right after deployment, when the whole cap is already minted. *)
Theorem mint_answers t amount recipient s :
  let result := call_token (mint t amount recipient) s in
  (contract_paused s = true → result = (Answered ERR_CONTRACT_PAUSED, s)) ∧
  (contract_paused s = false → tx_sender t ≠ CONTRACT_OWNER →
   result = (Answered ERR_OWNER_ONLY, s)) ∧
  (contract_paused s = false → tx_sender t = CONTRACT_OWNER → amount = 0 →
   result = (Answered ERR_INVALID_AMOUNT, s)) ∧
  (contract_paused s = false → tx_sender t = CONTRACT_OWNER → 0 < amount →
   recipient = contract_principal →
   result = (Answered ERR_INVALID_RECIPIENT, s)) ∧
  (contract_paused s = false → tx_sender t = CONTRACT_OWNER → 0 < amount →
   recipient ≠ contract_principal →
   (UINT_MAX < amount + bst_supply s →
    result = (Reverted (Runtime ArithmeticOverflow), s)) ∧
   (MAX_SUPPLY < amount + bst_supply s ≤ UINT_MAX →
    result = (Answered ERR_MAX_SUPPLY_REACHED, s)) ∧
   (BST_TOTAL_SUPPLY < amount + bst_supply s ≤ MAX_SUPPLY →
    result = (Reverted SupplyOverflow, s)) ∧
   (amount + bst_supply s ≤ BST_TOTAL_SUPPLY →
    ∃ s', result = (Answered (ok true), s') ∧
      bst_supply s' = bst_supply s + amount ∧
      ft_get_balance recipient s' = ft_get_balance recipient s + amount ∧
      (∀ p, p ≠ recipient → ft_get_balance p s' = ft_get_balance p s))) ∧
  (∀ a, fst (call_token (mint t amount recipient) initial) ≠ Answered (ok a)).
Proof.
  cbv zeta.
  assert (Hgen : ∀ s0,
    contract_paused s0 = false → tx_sender t = CONTRACT_OWNER → 0 < amount →
    recipient ≠ contract_principal →
    (UINT_MAX < amount + bst_supply s0 →
     call_token (mint t amount recipient) s0
       = (Reverted (Runtime ArithmeticOverflow), s0)) ∧
    (MAX_SUPPLY < amount + bst_supply s0 ≤ UINT_MAX →
     call_token (mint t amount recipient) s0
       = (Answered ERR_MAX_SUPPLY_REACHED, s0)) ∧
    (BST_TOTAL_SUPPLY < amount + bst_supply s0 ≤ MAX_SUPPLY →
     call_token (mint t amount recipient) s0 = (Reverted SupplyOverflow, s0)) ∧
    (amount + bst_supply s0 ≤ BST_TOTAL_SUPPLY →
     ∃ s', call_token (mint t amount recipient) s0 = (Answered (ok true), s') ∧
       bst_supply s' = bst_supply s0 + amount ∧
       ft_get_balance recipient s' = ft_get_balance recipient s0 + amount ∧
       (∀ p, p ≠ recipient → ft_get_balance p s' = ft_get_balance p s0))).
  { intros s0 Hp Ht Ha Hc.
    unfold call_token, StradeToken.mint, bind, gets, asserts, add, ft_mint, pure,
      is_contract_not_paused, is_valid_recipient, ft_get_supply, uint_add.
    rewrite Hp. cbn [negb]. decide_tests. cbn [negb].
    unfold MAX_SUPPLY, BST_TOTAL_SUPPLY, UINT_MAX.
    split; [|split; [|split]].
    - intros Hbig. by rewrite (proj2 (N.leb_gt _ _) Hbig).
    - intros [Hbig Hfits]. rewrite (proj2 (N.leb_le _ _) Hfits).
      by rewrite (proj2 (N.leb_gt _ _) Hbig).
    - intros [Hbig Hfits].
      rewrite (proj2 (N.leb_le (amount + bst_supply s0) (2 ^ 128 - 1))) by lia.
      rewrite (proj2 (N.leb_le _ _) Hfits).
      rewrite (proj2 (N.leb_le (bst_supply s0 + amount) (2 ^ 128 - 1))) by lia.
      by rewrite (proj2 (N.ltb_lt 1000000000000 (bst_supply s0 + amount))) by lia.
    - intros Hfits.
      rewrite (proj2 (N.leb_le (amount + bst_supply s0) (2 ^ 128 - 1))) by lia.
      rewrite (proj2 (N.leb_le (amount + bst_supply s0) 10000000000000)) by lia.
      rewrite (proj2 (N.leb_le (bst_supply s0 + amount) (2 ^ 128 - 1))) by lia.
      rewrite (proj2 (N.ltb_ge 1000000000000 (bst_supply s0 + amount))) by lia.
      eexists. split; [reflexivity|].
      unfold ft_get_balance. cbn [bst bst_supply].
      rewrite lookup_insert_eq. split; [done|]. split; [done|].
      intros p Hp'. by rewrite lookup_insert_ne by done. }
  split; [|split; [|split; [|split; [|split]]]].
  - intros Hp.
    unfold call_token, StradeToken.mint, bind, gets, asserts,
      is_contract_not_paused. by rewrite Hp.
  - intros Hp Ht.
    unfold call_token, StradeToken.mint, bind, gets, asserts,
      is_contract_not_paused. rewrite Hp. cbn [negb]. by decide_tests.
  - intros Hp Ht ->.
    unfold call_token, StradeToken.mint, bind, gets, asserts,
      is_contract_not_paused. rewrite Hp. cbn [negb]. by decide_tests.
  - intros Hp Ht Ha ->.
    unfold call_token, StradeToken.mint, bind, gets, asserts,
      is_contract_not_paused, is_valid_recipient. rewrite Hp. cbn [negb].
    decide_tests.
    by rewrite (proj2 (is_eq_true contract_principal contract_principal)) by done.
  - apply Hgen.
  - intros a Hok.
    destruct (decide (tx_sender t = CONTRACT_OWNER)) as [Ht|Ht];
      [destruct (N.eq_dec amount 0) as [->|Ha];
       [|destruct (decide (recipient = contract_principal)) as [->|Hc]]|].
    + revert Hok.
      unfold call_token, StradeToken.mint, bind, gets, asserts,
        is_contract_not_paused, StradeToken.initial. cbn [contract_paused negb].
      by decide_tests.
    + revert Hok.
      unfold call_token, StradeToken.mint, bind, gets, asserts,
        is_contract_not_paused, is_valid_recipient, StradeToken.initial.
      cbn [contract_paused negb]. decide_tests.
      rewrite (proj2 (N.ltb_lt 0 amount)) by lia.
      by rewrite (proj2 (is_eq_true contract_principal contract_principal)) by done.
    + destruct (Hgen initial) as (H1 & H2 & H3 & _);
        [done|done|lia|done|].
      change (bst_supply initial) with 1000000000000 in *.
      unfold MAX_SUPPLY, BST_TOTAL_SUPPLY in *.
      destruct (N.le_gt_cases (amount + 1000000000000) UINT_MAX) as [Hfits|Hbig];
        [destruct (N.le_gt_cases (amount + 1000000000000) 10000000000000)|].
      * rewrite H3 in Hok by lia. done.
      * rewrite H2 in Hok by lia. done.
      * rewrite H1 in Hok by lia. done.
    + revert Hok.
      unfold call_token, StradeToken.mint, bind, gets, asserts,
        is_contract_not_paused, StradeToken.initial. cbn [contract_paused negb].
      by decide_tests.
Qed.

(** [burn] checks, in this order: the contract is not paused
    (ContractPaused), the caller is the sender (NotAuthorized), the amount
    is positive (InvalidAmount) and within the sender's balance
    (InsufficientBalance).  Then it takes the amount off the sender's
    balance and off the supply, and touches no other balance. *)
Lemma burn_answers t amount sender s :
  let result := call_token (burn t amount sender) s in
  (contract_paused s = true → result = (Answered ERR_CONTRACT_PAUSED, s)) ∧
  (contract_paused s = false → tx_sender t ≠ sender →
   result = (Answered ERR_NOT_AUTHORIZED, s)) ∧
  (contract_paused s = false → tx_sender t = sender → amount = 0 →
   result = (Answered ERR_INVALID_AMOUNT, s)) ∧
  (contract_paused s = false → tx_sender t = sender → 0 < amount →
   ft_get_balance sender s < amount →
   result = (Answered ERR_INSUFFICIENT_BALANCE, s)) ∧
  (contract_paused s = false → tx_sender t = sender → 0 < amount →
   amount ≤ ft_get_balance sender s →
   ∃ s', result = (Answered (ok true), s') ∧
     ft_get_balance sender s' + amount = ft_get_balance sender s ∧
     bst_supply s' = bst_supply s - amount ∧
     (∀ p, p ≠ sender → ft_get_balance p s' = ft_get_balance p s)).
Proof.
  cbv zeta.
  unfold call_token, burn, bind, gets, asserts, ft_burn, pure,
    is_contract_not_paused.
  split; [|split; [|split; [|split]]].
  - intros ->. done.
  - intros -> Ht. cbn [negb]. by decide_tests.
  - intros -> Ht ->. cbn [negb]. by decide_tests.
  - intros -> Ht Ha Hbal. cbn [negb]. by decide_tests.
  - intros Hp Ht Ha Hbal. rewrite Hp. cbn [negb]. decide_tests.
    eexists. split; [reflexivity|].
    unfold ft_get_balance in *. cbn [bst bst_supply].
    rewrite lookup_insert_eq. cbn [default from_option id].
    split; [lia|]. split; [done|].
    intros p Hp'. by rewrite lookup_insert_ne by done.
Qed.

(** *** What each transaction writes *)

Lemma token_exec_detail t c s :
  let s' := snd (exec t c s) in
  s' = s ∨
  (∃ amount sender recipient,
     0 < amount ≤ ft_get_balance sender s ∧ sender ≠ recipient ∧
     recipient ≠ contract_principal ∧
     s' = {| bst := <[recipient := ft_get_balance recipient s + amount]>
                      (<[sender := ft_get_balance sender s - amount]> (bst s));
             bst_supply := bst_supply s; token_uri := token_uri s;
             contract_paused := contract_paused s |}) ∨
  (∃ amount recipient,
     0 < amount ∧ bst_supply s + amount ≤ BST_TOTAL_SUPPLY ∧
     recipient ≠ contract_principal ∧
     s' = {| bst := <[recipient := ft_get_balance recipient s + amount]> (bst s);
             bst_supply := bst_supply s + amount; token_uri := token_uri s;
             contract_paused := contract_paused s |}) ∨
  (∃ amount sender,
     0 < amount ≤ ft_get_balance sender s ∧
     s' = {| bst := <[sender := ft_get_balance sender s - amount]> (bst s);
             bst_supply := bst_supply s - amount; token_uri := token_uri s;
             contract_paused := contract_paused s |}) ∨
  (tx_sender t = CONTRACT_OWNER ∧
   ((∃ uri, s' = set_token_uri_var uri s) ∨
    (∃ flag, s' = set_contract_paused flag s))).
Proof.
  destruct c as [amount sender recipient|amount recipient|amount sender|uri| |];
    unfold StradeToken.exec; cbv zeta.
  - unfold call_token, StradeToken.transfer, bind, gets, asserts, ft_transfer,
      try_response, pure, is_contract_not_paused, is_valid_recipient.
    destruct (negb (contract_paused s)); [|by left].
    destruct (is_eq (tx_sender t) sender); [|by left].
    destruct (N.ltb_spec 0 amount) as [Ha|Ha]; [|by left].
    destruct (N.leb_spec amount (ft_get_balance sender s)) as [Hbal|Hbal];
      [|by left].
    destruct (negb (is_eq recipient contract_principal)) eqn:Hc; [|by left].
    destruct (amount =? 0); [by left|].
    destruct (is_eq sender recipient) eqn:Hr; [by left|].
    destruct (ft_get_balance sender s <? amount); [by left|].
    cbn [snd]. right; left. reflect_bools.
    eexists _, _, _. repeat split; done.
  - unfold call_token, StradeToken.mint, bind, gets, asserts, add, ft_mint, pure,
      is_contract_not_paused, is_valid_recipient, ft_get_supply.
    destruct (negb (contract_paused s)); [|by left].
    destruct (is_eq (tx_sender t) CONTRACT_OWNER); [|by left].
    destruct (N.ltb_spec 0 amount) as [Ha|Ha]; [|by left].
    destruct (negb (is_eq recipient contract_principal)) eqn:Hc; [|by left].
    destruct (uint_add amount (bst_supply s)) as [requested|]; [|by left].
    destruct (requested <=? MAX_SUPPLY); [|by left].
    destruct (amount =? 0); [by left|].
    destruct (uint_add (bst_supply s) amount) as [supply|] eqn:Hsupply;
      [|by left].
    destruct (N.ltb_spec BST_TOTAL_SUPPLY supply) as [Hcap|Hcap]; [by left|].
    cbn [snd]. right; right; left. reflect_bools.
    apply uint_add_Some in Hsupply as [-> _].
    eexists _, _. repeat split; done.
  - unfold call_token, burn, bind, gets, asserts, ft_burn, pure,
      is_contract_not_paused.
    destruct (negb (contract_paused s)); [|by left].
    destruct (is_eq (tx_sender t) sender); [|by left].
    destruct (N.ltb_spec 0 amount) as [Ha|Ha]; [|by left].
    destruct (N.leb_spec amount (ft_get_balance sender s)) as [Hbal|Hbal];
      [|by left].
    destruct (amount =? 0); [by left|].
    destruct (ft_get_balance sender s <? amount); [by left|].
    cbn [snd]. right; right; right; left.
    eexists _, _. repeat split; done.
  - unfold call_token, StradeToken.set_token_uri, bind, asserts, modify, pure.
    destruct (is_eq (tx_sender t) CONTRACT_OWNER) eqn:Ht; [|by left].
    reflect_bools. destruct uri as [uri|].
    + destruct (len uri <=? 256); [|by left].
      cbn [snd]. right; right; right; right. split; [done|]. left. by eexists.
    + cbn [snd]. right; right; right; right. split; [done|]. left. by eexists.
  - unfold call_token, StradeToken.pause_contract, bind, asserts, modify, pure.
    destruct (is_eq (tx_sender t) CONTRACT_OWNER) eqn:Ht; [|by left].
    reflect_bools. cbn [snd]. right; right; right; right.
    split; [done|]. right. by eexists.
  - unfold call_token, StradeToken.unpause_contract, bind, asserts, modify, pure.
    destruct (is_eq (tx_sender t) CONTRACT_OWNER) eqn:Ht; [|by left].
    reflect_bools. cbn [snd]. right; right; right; right.
    split; [done|]. right. by eexists.
Qed.

(** *** Supply and balances *)

Lemma held_total_insert (l : gmap principal N) k v :
  held_total (<[k := v]> l) + default 0 (l !! k) = held_total l + v.
Proof.
  unfold held_total. destruct (l !! k) as [v0|] eqn:Hk; cbn [default from_option id].
  - rewrite (map_fold_delete_L _ _ k v0 l); [| |done]; [|intros; lia].
    rewrite <- (insert_delete_eq l k v).
    rewrite map_fold_insert_L; [lia| |apply lookup_delete_eq]. intros. lia.
  - rewrite map_fold_insert_L; [lia| |done]. intros. lia.
Qed.

Lemma held_total_ge (l : gmap principal N) k : default 0 (l !! k) ≤ held_total l.
Proof.
  destruct (l !! k) as [v0|] eqn:Hk; cbn [default from_option id]; [|lia].
  unfold held_total. rewrite (map_fold_delete_L _ _ k v0 l); [lia| |done].
  intros. lia.
Qed.

Lemma token_supply_exec t c s :
  held_total (bst s) = bst_supply s ∧ bst_supply s ≤ BST_TOTAL_SUPPLY →
  held_total (bst (snd (exec t c s))) = bst_supply (snd (exec t c s)) ∧
  bst_supply (snd (exec t c s)) ≤ BST_TOTAL_SUPPLY.
Proof.
  intros [Hheld Hcap].
  destruct (token_exec_detail t c s)
    as [->|[(amount & sender & recipient & [Ha Hbal] & Hne & _ & ->)|
       [(amount & recipient & Ha & Hfits & _ & ->)|
       [(amount & sender & [Ha Hbal] & ->)|
        (_ & [[uri ->]|[flag ->]])]]]]; try done;
    cbn [bst bst_supply]; unfold ft_get_balance in *.
  - split; [|done].
    pose proof (held_total_insert (bst s) sender
                  (default 0 (bst s !! sender) - amount)) as H1.
    pose proof (held_total_insert
                  (<[sender := default 0 (bst s !! sender) - amount]> (bst s))
                  recipient (default 0 (bst s !! recipient) + amount)) as H2.
    rewrite lookup_insert_ne in H2 by done. lia.
  - split; [|done].
    pose proof (held_total_insert (bst s) recipient
                  (default 0 (bst s !! recipient) + amount)). lia.
  - pose proof (held_total_insert (bst s) sender
                  (default 0 (bst s !! sender) - amount)).
    pose proof (held_total_ge (bst s) sender). split; lia.
Qed.

Lemma token_contract_balance_exec t c s :
  ft_get_balance contract_principal s = 0 →
  ft_get_balance contract_principal (snd (exec t c s)) = 0.
Proof.
  intros Hzero.
  destruct (token_exec_detail t c s)
    as [->|[(amount & sender & recipient & [Ha Hbal] & Hne & Hc & ->)|
       [(amount & recipient & Ha & Hfits & Hc & ->)|
       [(amount & sender & [Ha Hbal] & ->)|
        (_ & [[uri ->]|[flag ->]])]]]]; try done;
    unfold ft_get_balance in *; cbn [bst].
  - rewrite lookup_insert_ne by done.
    destruct (decide (sender = contract_principal)) as [->|Hs];
      [lia|by rewrite lookup_insert_ne by done].
  - by rewrite lookup_insert_ne by done.
  - destruct (decide (sender = contract_principal)) as [->|Hs];
      [lia|by rewrite lookup_insert_ne by done].
Qed.

(** X29. In every reachable store the supply is the sum of all balances and
    is at most 1000000000000, the cap of the token, which the deployment
    mints in full to the owner: MAX_SUPPLY, ten times that, is never
    reached.  No balance exceeds the supply, and the contract itself never
    holds a token. *)
Theorem token_supply_conserved s :
  reachable s →
  held_total (bst s) = bst_supply s ∧
  bst_supply s ≤ BST_TOTAL_SUPPLY ∧
  BST_TOTAL_SUPPLY * 10 = MAX_SUPPLY ∧
  get_total_supply initial = ok BST_TOTAL_SUPPLY ∧
  get_balance CONTRACT_OWNER initial = ok BST_TOTAL_SUPPLY ∧
  (∀ who, ft_get_balance who s ≤ bst_supply s) ∧
  (CONTRACT_OWNER ≠ contract_principal →
   ft_get_balance contract_principal s = 0).
Proof.
  intros Hs.
  assert (Hinv : (held_total (bst s) = bst_supply s ∧
                  bst_supply s ≤ BST_TOTAL_SUPPLY) ∧
                 (CONTRACT_OWNER ≠ contract_principal →
                  ft_get_balance contract_principal s = 0)).
  { induction Hs as [|s t c _ [IH1 IH2]].
    - unfold StradeToken.initial, held_total, BST_TOTAL_SUPPLY, ft_get_balance.
      cbn [bst bst_supply]. split; [split; [|done]|].
      + rewrite map_fold_singleton. lia.
      + intros Howner. by rewrite lookup_singleton_ne.
    - split; [by apply token_supply_exec|].
      intros Howner. by apply token_contract_balance_exec, IH2. }
  destruct Hinv as [[Hheld Hcap] Hcontract].
  split; [done|]. split; [done|]. split; [reflexivity|].
  split; [reflexivity|].
  split.
  { unfold get_balance, ft_get_balance, StradeToken.initial. cbn [bst].
    by rewrite lookup_singleton_eq. }
  split; [|done].
  intros who. rewrite <- Hheld. apply held_total_ge.
Qed.

(** X30. Only the owner pauses and unpauses the contract and sets or
    clears the metadata URI; everybody else's attempt answers OwnerOnly,
    and no transaction of another sender changes the flag or the URI.  The
    owner's [set-token-uri] succeeds for every URI and for [none]: the
    length check in it never fails, because a URI of more than 256
    characters does not fit the declared parameter type, and so no
    transaction at all is ever answered InvalidUri.  While the contract is
    paused every [transfer], [mint] and [burn] answers ContractPaused, so
    no balance and not the supply can change; the owner's administration
    still works. *)
Theorem pause_switch t s :
  (tx_sender t ≠ CONTRACT_OWNER →
   call_token (pause_contract t) s = (Answered ERR_OWNER_ONLY, s) ∧
   call_token (unpause_contract t) s = (Answered ERR_OWNER_ONLY, s) ∧
   (∀ uri, call_token (set_token_uri t uri) s = (Answered ERR_OWNER_ONLY, s)) ∧
   ∀ c, contract_paused (snd (exec t c s)) = contract_paused s ∧
        token_uri (snd (exec t c s)) = token_uri s) ∧
  (tx_sender t = CONTRACT_OWNER →
   call_token (pause_contract t) s
     = (Answered (ok true),
        {| bst := bst s; bst_supply := bst_supply s; token_uri := token_uri s;
           contract_paused := true |}) ∧
   call_token (unpause_contract t) s
     = (Answered (ok true),
        {| bst := bst s; bst_supply := bst_supply s; token_uri := token_uri s;
           contract_paused := false |}) ∧
   ∀ uri,
     call_token (set_token_uri t uri) s
       = (Answered (ok true),
          {| bst := bst s; bst_supply := bst_supply s; token_uri := uri;
             contract_paused := contract_paused s |})) ∧
  (∀ c, fst (exec t c s) ≠ Answered (err 105)) ∧
  ERR_INVALID_URI = err 105 ∧
  (contract_paused s = true →
   (∀ amount sender recipient,
      exec t (Transfer amount sender recipient) s
        = (Answered ERR_CONTRACT_PAUSED, s)) ∧
   (∀ amount recipient,
      exec t (Mint amount recipient) s = (Answered ERR_CONTRACT_PAUSED, s)) ∧
   (∀ amount sender,
      exec t (Burn amount sender) s = (Answered ERR_CONTRACT_PAUSED, s)) ∧
   ∀ c, bst (snd (exec t c s)) = bst s ∧
        bst_supply (snd (exec t c s)) = bst_supply s).
Proof.
  split; [|split; [|split; [|split; [done|]]]].
  - intros Ht.
    unfold call_token, StradeToken.pause_contract, StradeToken.unpause_contract,
      StradeToken.set_token_uri, bind, asserts.
    rewrite (proj2 (is_eq_false _ _) Ht).
    split; [done|]. split; [done|]. split; [done|].
    intros c.
    destruct (token_exec_detail t c s)
      as [->|[(amount & sender & recipient & _ & _ & _ & ->)|
         [(amount & recipient & _ & _ & _ & ->)|
         [(amount & sender & _ & ->)|(Howner & _)]]]]; done.
  - intros Ht.
    unfold call_token, StradeToken.pause_contract, StradeToken.unpause_contract,
      StradeToken.set_token_uri, bind, asserts, modify, pure.
    rewrite (proj2 (is_eq_true _ _) Ht).
    split; [done|]. split; [done|].
    intros [uri|]; [|done].
    by rewrite (proj2 (N.leb_le _ _) (len_fits uri)).
  - intros [amount sender recipient|amount recipient|amount sender|uri| |];
      unfold StradeToken.exec, call_token.
    + unfold StradeToken.transfer, bind, gets, asserts, ft_transfer,
        try_response, pure, is_contract_not_paused, is_valid_recipient.
      destruct (negb (contract_paused s)); [|by simpl].
      destruct (is_eq (tx_sender t) sender); [|by simpl].
      destruct (0 <? amount); [|by simpl].
      destruct (amount <=? ft_get_balance sender s); [|by simpl].
      destruct (negb (is_eq recipient contract_principal)); [|by simpl].
      destruct (amount =? 0); [by simpl|].
      destruct (is_eq sender recipient); [by simpl|].
      by destruct (ft_get_balance sender s <? amount).
    + unfold StradeToken.mint, bind, gets, asserts, add, ft_mint, pure,
        is_contract_not_paused, is_valid_recipient, ft_get_supply.
      destruct (negb (contract_paused s)); [|by simpl].
      destruct (is_eq (tx_sender t) CONTRACT_OWNER); [|by simpl].
      destruct (0 <? amount); [|by simpl].
      destruct (negb (is_eq recipient contract_principal)); [|by simpl].
      destruct (uint_add amount (bst_supply s)) as [requested|]; [|by simpl].
      destruct (requested <=? MAX_SUPPLY); [|by simpl].
      destruct (amount =? 0); [by simpl|].
      destruct (uint_add (bst_supply s) amount) as [supply|]; [|by simpl].
      by destruct (BST_TOTAL_SUPPLY <? supply).
    + unfold burn, bind, gets, asserts, ft_burn, pure, is_contract_not_paused.
      destruct (negb (contract_paused s)); [|by simpl].
      destruct (is_eq (tx_sender t) sender); [|by simpl].
      destruct (0 <? amount); [|by simpl].
      destruct (amount <=? ft_get_balance sender s); [|by simpl].
      destruct (amount =? 0); [by simpl|].
      by destruct (ft_get_balance sender s <? amount).
    + unfold StradeToken.set_token_uri, bind, asserts, modify, pure.
      destruct (is_eq (tx_sender t) CONTRACT_OWNER); [|by simpl].
      destruct uri as [uri|]; [|by simpl].
      by rewrite (proj2 (N.leb_le _ _) (len_fits uri)).
    + unfold StradeToken.pause_contract, bind, asserts, modify, pure.
      by destruct (is_eq (tx_sender t) CONTRACT_OWNER).
    + unfold StradeToken.unpause_contract, bind, asserts, modify, pure.
      by destruct (is_eq (tx_sender t) CONTRACT_OWNER).
  - intros Hp.
    assert (Hgate :
      (∀ amount sender recipient,
         exec t (Transfer amount sender recipient) s
           = (Answered ERR_CONTRACT_PAUSED, s)) ∧
      (∀ amount recipient,
         exec t (Mint amount recipient) s = (Answered ERR_CONTRACT_PAUSED, s)) ∧
      (∀ amount sender,
         exec t (Burn amount sender) s = (Answered ERR_CONTRACT_PAUSED, s))).
    { unfold StradeToken.exec, call_token, StradeToken.transfer,
        StradeToken.mint, burn, bind, gets, asserts, is_contract_not_paused.
      rewrite Hp. done. }
    destruct Hgate as (Htransfer & Hmint & Hburn).
    split; [done|]. split; [done|]. split; [done|].
    intros [amount sender recipient|amount recipient|amount sender|uri| |].
    + by rewrite Htransfer.
    + by rewrite Hmint.
    + by rewrite Hburn.
    + unfold StradeToken.exec, call_token, StradeToken.set_token_uri, bind,
        asserts, modify, pure.
      destruct (is_eq (tx_sender t) CONTRACT_OWNER); [|done].
      destruct uri as [uri|]; [|done].
      by destruct (len uri <=? 256).
    + unfold StradeToken.exec, call_token, StradeToken.pause_contract, bind,
        asserts, modify, pure.
      by destruct (is_eq (tx_sender t) CONTRACT_OWNER).
    + unfold StradeToken.exec, call_token, StradeToken.unpause_contract, bind,
        asserts, modify, pure.
      by destruct (is_eq (tx_sender t) CONTRACT_OWNER).
Qed.

End TokenFurther.

(** ** The further properties on the worked examples *)

Lemma escrow_store_shape_witness :
  EscrowService.reachable deployer vault escrow_opened ∧
  EscrowService.last_escrow_id escrow_opened
    = N.of_nat (size (EscrowService.Escrows escrow_opened)).
Proof.
  split; [exact escrow_opened_reachable|].
  exact (proj1 (escrow_store_shape deployer vault escrow_opened
                  escrow_opened_reachable)).
Defined.

(** The escrow of the example after its release: still there, same parties,
    same amount. *)
Lemma escrow_record_evolves_witness :
  EscrowService.Escrows escrow_opened !! 1 = Some escrow_1 ∧
  ∃ e',
    EscrowService.Escrows
      (EscrowService.run deployer vault
         [(at_height wallet_2 20, EscrowService.ReleaseFunds 1)] escrow_opened)
      !! 1 = Some e' ∧
    EscrowShape.evolves escrow_1 e'.
Proof.
  split; [exact escrow_opened_lookup|].
  exact (escrow_record_evolves deployer vault escrow_opened 1 escrow_1
           [(at_height wallet_2 20, EscrowService.ReleaseFunds 1)]
           escrow_opened_reachable escrow_opened_lookup).
Defined.

Lemma arbitrator_set_management_witness :
  DisputeResolution.reachable deployer board three_votes ∧
  DisputeResolution.is_arbitrator deployer three_votes = false.
Proof.
  split; [exact three_votes_reachable|].
  exact (proj1 (arbitrator_set_management deployer board three_votes
                  three_votes_reachable)).
Defined.

Lemma arbitrator_reward_positive_witness :
  DisputeResolution.reachable deployer board three_votes ∧
  0 < DisputeResolution.arbitrator_reward three_votes.
Proof.
  split; [exact three_votes_reachable|].
  exact (proj1 (arbitrator_reward_positive deployer board three_votes
                  three_votes_reachable)).
Defined.

(** [wallet_1] is no arbitrator. *)
Lemma vote_on_dispute_answers_witness :
  DisputeResolution.ids_assigned three_votes ∧
  DisputeResolution.Disputes three_votes !! 1 = Some dispute_1 ∧
  call_public (DisputeResolution.vote_on_dispute (at_height wallet_1 9) 1 true)
    three_votes
    = (Answer (err DisputeResolution.ERR_NOT_ARBITRATOR), three_votes).
Proof.
  assert (DisputeResolution.ids_assigned three_votes) as Hids.
  { exact (board_reachable_ids_assigned deployer board _ three_votes_reachable). }
  split; [exact Hids|]. split; [exact three_votes_lookup|].
  apply (proj1 (vote_on_dispute_answers (at_height wallet_1 9) 1 true three_votes
                  dispute_1 Hids three_votes_lookup)).
  vm_compute. discriminate.
Defined.

Lemma tallies_count_recorded_votes_witness :
  DisputeResolution.reachable deployer board three_votes ∧
  DisputeResolution.votes_for dispute_1
    = BoardShape.votes_cast 1 true (DisputeResolution.ArbitratorVotes three_votes).
Proof.
  split; [exact three_votes_reachable|].
  exact (proj1 (proj1 (tallies_count_recorded_votes deployer board three_votes
                         three_votes_reachable) 1 dispute_1 three_votes_lookup)).
Defined.

Lemma board_store_shape_witness :
  DisputeResolution.reachable deployer board three_votes ∧
  BoardShape.dispute_ok dispute_1.
Proof.
  split; [exact three_votes_reachable|].
  exact (proj2 (proj2 (board_store_shape deployer board three_votes
                         three_votes_reachable)) 1 dispute_1 three_votes_lookup).
Defined.

(** The dispute of the example was raised at height 5: an attempt to resolve
    it at height 200 changes nothing. *)
Lemma lapsed_dispute_stays_open_witness :
  DisputeResolution.reachable deployer board three_votes ∧
  DisputeResolution.Disputes
    (DisputeResolution.run deployer board
       [(at_height wallet_1 200, DisputeResolution.ResolveDispute 1)] three_votes)
    !! 1 = Some dispute_1.
Proof.
  split; [exact three_votes_reachable|].
  apply (lapsed_dispute_stays_open deployer board three_votes 1 dispute_1
           [(at_height wallet_1 200, DisputeResolution.ResolveDispute 1)]
           three_votes_reachable three_votes_lookup).
  - reflexivity.
  - constructor; [|constructor]. vm_compute. reflexivity.
Defined.

Lemma resolve_dispute_answers_witness :
  DisputeResolution.ids_assigned three_votes ∧
  DisputeResolution.Disputes three_votes !! 1 = Some dispute_1 ∧
  call_public (DisputeResolution.resolve_dispute (at_height wallet_1 200) 1)
    three_votes
    = (Answer (err DisputeResolution.ERR_VOTING_CLOSED), three_votes).
Proof.
  assert (DisputeResolution.ids_assigned three_votes) as Hids.
  { exact (board_reachable_ids_assigned deployer board _ three_votes_reachable). }
  split; [exact Hids|]. split; [exact three_votes_lookup|].
  assert (DisputeResolution.votes_for dispute_1
          + DisputeResolution.votes_against dispute_1 ≤ UINT_MAX) as Hfits.
  { vm_compute. discriminate. }
  apply (proj2 (proj2 (proj2 (proj2
           (resolve_dispute_answers (at_height wallet_1 200) 1 three_votes
              dispute_1 Hids three_votes_lookup Hfits))))).
  - reflexivity.
  - vm_compute. discriminate.
  - vm_compute. reflexivity.
Defined.

Lemma market_store_shape_witness :
  CoreMarketPlace.reachable market listed ∧ MarketShape.listing_ok listing_1.
Proof.
  split; [exact listed_reachable|].
  exact (proj2 (proj2 (proj2 (proj2 (proj2
           (market_store_shape market listed listed_reachable)))))
           1 listing_1 listed_lookup).
Defined.

Lemma listing_record_evolves_witness :
  CoreMarketPlace.Listings listed !! 1 = Some listing_1 ∧
  ∃ l',
    CoreMarketPlace.Listings
      (CoreMarketPlace.run market
         [(at_height wallet_2 12, CoreMarketPlace.PurchaseListing 1)] listed)
      !! 1 = Some l' ∧
    MarketShape.evolves listing_1 l'.
Proof.
  split; [exact listed_lookup|].
  exact (listing_record_evolves market listed 1 listing_1
           [(at_height wallet_2 12, CoreMarketPlace.PurchaseListing 1)]
           listed_reachable listed_lookup).
Defined.

Lemma market_holds_no_funds_witness :
  stx_balance
    (CoreMarketPlace.stx
       (CoreMarketPlace.run market
          [(at_height wallet_2 12, CoreMarketPlace.PurchaseListing 1)] listed))
    market
  = stx_balance (CoreMarketPlace.stx listed) market.
Proof.
  apply (market_holds_no_funds market
           [(at_height wallet_2 12, CoreMarketPlace.PurchaseListing 1)] listed).
  constructor; [|constructor]. discriminate.
Defined.

Lemma profile_reachable_run txs s :
  UserProfile.reachable deployer registry s →
  UserProfile.reachable deployer registry (UserProfile.run deployer registry txs s).
Proof.
  revert s. induction txs as [|[t c] txs IH]; intros s Hs; [done|].
  apply IH. by constructor.
Defined.

Lemma profiles_reachable : UserProfile.reachable deployer registry profiles.
Proof. apply profile_reachable_run. constructor. Defined.

Lemma profiles_lookup : UserProfile.Users profiles !! wallet_1 = Some profile_1.
Proof. vm_compute. reflexivity. Defined.

(** Rated 5 and 4: the average, rounded down, is 4. *)
Lemma user_record_shape_witness :
  UserProfile.reachable deployer registry profiles ∧
  UserProfile.Users profiles !! wallet_1 = Some profile_1 ∧
  UserProfile.user_ok profile_1 ∧
  UserProfile.get_user_rating wallet_1 profiles = ok 4.
Proof.
  split; [exact profiles_reachable|]. split; [exact profiles_lookup|].
  split.
  - exact (proj1 (user_record_shape deployer registry profiles wallet_1 profile_1
                    profiles_reachable profiles_lookup)).
  - vm_compute. reflexivity.
Defined.

Lemma user_record_evolves_witness :
  UserProfile.Users profiles !! wallet_1 = Some profile_1 ∧
  ∃ u',
    UserProfile.Users
      (UserProfile.run deployer registry
         [(at_height wallet_4 9, UserProfile.RateUser wallet_1 3)] profiles)
      !! wallet_1 = Some u' ∧
    UserProfile.evolves profile_1 u'.
Proof.
  split; [exact profiles_lookup|].
  destruct (user_record_evolves deployer registry profiles wallet_1 profile_1
              [(at_height wallet_4 9, UserProfile.RateUser wallet_1 3)]
              profiles_lookup) as (u' & Hu' & Hev & _).
  exists u'. split; [exact Hu'|exact Hev].
Defined.

(** A second registration of [wallet_1] answers code 104. *)
Lemma profile_error_codes_witness :
  UserProfile.answers_code
    (fst (UserProfile.exec deployer registry (at_height wallet_1 7)
            (UserProfile.RegisterUser (utf8 "a" I) (utf8 "b" I) (utf8 "c" I)) profiles)) 104 ∧
  (104 = 100 ∨ 104 = 101 ∨ 104 = 102 ∨ 104 = 103 ∨ 104 = 104 ∨ 104 = 105 ∨
   104 = 107).
Proof.
  assert (UserProfile.answers_code
            (fst (UserProfile.exec deployer registry (at_height wallet_1 7)
                    (UserProfile.RegisterUser (utf8 "a" I) (utf8 "b" I) (utf8 "c" I)) profiles)) 104)
    as Hcode.
  { vm_compute. reflexivity. }
  split; [exact Hcode|].
  exact (profile_error_codes deployer registry (at_height wallet_1 7)
           (UserProfile.RegisterUser (utf8 "a" I) (utf8 "b" I) (utf8 "c" I)) profiles 104 Hcode).
Defined.

Lemma token_supply_conserved_witness :
  StradeToken.reachable deployer token (StradeToken.initial deployer) ∧
  StradeToken.bst_supply (StradeToken.initial deployer)
    ≤ StradeToken.BST_TOTAL_SUPPLY.
Proof.
  split; [constructor|].
  exact (proj1 (proj2 (token_supply_conserved deployer token
                         (StradeToken.initial deployer)
                         (StradeToken.reachable_initial deployer token)))).
Defined.
